(** * LuminOrder: frames of a movie re-ordered by mean brightness

    A shallow embedding of [src/LuminOrderApp.cpp].  The C++ [double] is
    IEEE-754 binary64, modelled by the Standard Library's executable
    specification [SpecFloat] at precision 53 and exponent bound 1024; the
    C++ [int] is modelled by [Z] (no arithmetic of the program leaves the
    32-bit range on the inputs considered, the theorems say where that is
    assumed).  The application object becomes a record threaded through a
    small state-and-exception monad; the QuickTime source and sink and the
    two files written next to the movie are part of that record. *)

From Stdlib Require Import ZArith List Bool Lia Permutation Sorted.
From Stdlib Require Import Floats.SpecFloat Strings.Byte Ascii String.
Import ListNotations.
Local Open Scope Z_scope.

(** ** IEEE-754 binary64, as used by the C++ [double] *)

Module Double.

Definition prec : Z := 53.
Definition emax : Z := 1024.

Definition double : Type := spec_float.

Definition add : double -> double -> double := SFadd prec emax.
Definition sub : double -> double -> double := SFsub prec emax.
Definition mul : double -> double -> double := SFmul prec emax.
Definition div : double -> double -> double := SFdiv prec emax.

(** [a < b], [a == b] and [a != b] of C++ on doubles: every comparison
    with a NaN is false, except [!=], which is true. *)
Definition ltb : double -> double -> bool := SFltb.
Definition eqb : double -> double -> bool := SFeqb.
Definition neb (a b : double) : bool := negb (SFeqb a b).
Definition leb : double -> double -> bool := SFleb.

Definition is_nan (x : double) : bool :=
  match x with S754_nan => true | _ => false end.

(** The conversion [(double) n] of an [int]: exact, since every 32-bit
    integer fits the 53-bit significand. *)
Definition of_int (n : Z) : double := binary_normalize prec emax n 0 false.

Definition zero : double := S754_zero false.
Definition one : double := S754_finite false 4503599627370496 (-52).
Definition pinf : double := S754_infinity false.
Definition nan : double := S754_nan.

(** [round] of <math.h>: the nearest integer, halfway cases away from
    zero, the sign of the argument kept (so [round(-0.3)] is [-0.0]).
    A finite double with a non-negative exponent is an integer already;
    otherwise [|x| = m / 2^(-e)] and the result is [floor(|x| + 1/2)],
    which is below [2^53] and hence exact. *)
Definition round (x : double) : double :=
  match x with
  | S754_finite s m e =>
      if 0 <=? e then x
      else
        let q := (Zpos m + 2 ^ (- e - 1)) / 2 ^ (- e) in
        match q with
        | Z0 => S754_zero s
        | _ => binary_normalize prec emax (cond_Zopp s q) 0 s
        end
  | _ => x
  end.

End Double.

Abbreviation double := Double.double.

(** ** Global configuration (the [#define]s of the source) *)

Definition START_FRAME : Z := 0.

(** [ROUND_TO] is the literal [10e-3]: the double nearest to 1/100, that is
    [0x3F847AE147AE147B]. *)
Definition ROUND_TO : double := S754_finite false 5764607523034235 (-59).

(** ** [predict] *)

Definition predict (elapsed : double) (index total : Z) : double :=
  let ratio := Double.div (Double.of_int index) (Double.of_int total) in
  let ratio_time :=
    Double.mul (Double.div elapsed ratio) (Double.sub Double.one ratio) in
  ratio_time.

(** ** [FrameData] and the comparator *)

Record FrameData : Type := mkFrameData {
  mIndex : Z;
  mBrightness : double
}.

(** The rounded brightness that the comparator looks at:
    [round(x / ROUND_TO) * ROUND_TO]. *)
Definition rounded (x : double) : double :=
  Double.mul (Double.round (Double.div x ROUND_TO)) ROUND_TO.

Definition FrameBrightnessSort (a b : FrameData) : bool :=
  let roundA := rounded (mBrightness a) in
  let roundB := rounded (mBrightness b) in
  if Double.neb roundA roundB then Double.ltb roundA roundB
  else mIndex a <? mIndex b.

(** ** [std::sort]

    The library routine is modelled by insertion with the comparator as
    its "less" (what libstdc++ itself runs on short ranges).  Which
    algorithm is used does not matter where the comparator is a strict
    total order: [sorted_table_unique] below shows that every sorted
    permutation of such a table is the same sequence. *)

Section Sort.
Context {A : Type}.
Variable comp : A -> A -> bool.

Fixpoint insert_sorted (x : A) (l : list A) : list A :=
  match l with
  | [] => [x]
  | y :: l' => if comp x y then x :: l else y :: insert_sorted x l'
  end.

Definition std_sort (l : list A) : list A :=
  fold_right insert_sorted [] l.
End Sort.

(** ** Surfaces and the brightness of a frame *)

Record Pixel : Type := mkPixel {
  red : byte;
  green : byte;
  blue : byte;
  alpha : byte
}.

(** A [Surface8u]: its bounds and the pixel at column [x] of line [y]. *)
Record Surface8u : Type := mkSurface {
  getWidth : Z;
  getHeight : Z;
  getPixel : Z -> Z -> Pixel
}.

Definition channel (b : byte) : Z := Z.of_N (Byte.to_N b).

(** [(double) (iter.r() + iter.g() + iter.b()) / (3.0 * 255.0)] *)
Definition pixel_term (p : Pixel) : double :=
  Double.div
    (Double.of_int (channel (red p) + channel (green p) + channel (blue p)))
    (Double.mul (Double.of_int 3) (Double.of_int 255)).

(** [while (iter.pixel())]: the [n] pixels of line [y] from column [x] on. *)
Fixpoint pixel_loop (s : Surface8u) (y : Z) (n : nat) (x : Z)
    (brightness : double) : double :=
  match n with
  | O => brightness
  | S n' =>
      pixel_loop s y n' (x + 1)
        (Double.add brightness (pixel_term (getPixel s x y)))
  end.

(** [while (iter.line())]: the [n] lines from line [y] on. *)
Fixpoint line_loop (s : Surface8u) (n : nat) (y : Z)
    (brightness : double) : double :=
  match n with
  | O => brightness
  | S n' =>
      line_loop s n' (y + 1)
        (pixel_loop s y (Z.to_nat (getWidth s)) 0 brightness)
  end.

(** The brightness computed by [processNextFrame]: the accumulated sum,
    then [brightness /= getWidth() * getHeight()]. *)
Definition surface_brightness (s : Surface8u) : double :=
  let brightness := line_loop s (Z.to_nat (getHeight s)) 0 Double.zero in
  Double.div brightness (Double.of_int (getWidth s * getHeight s)).

(** ** The C++ [float] (binary32) *)

Module Single.

Definition prec : Z := 24.
Definition emax : Z := 128.

(** [(float) x] of a double: one rounding to nearest-even at 24 bits. *)
Definition of_double (x : double) : spec_float :=
  match x with
  | S754_finite s m e => binary_round prec emax s m e
  | _ => x
  end.

(** [(double) f] of a float: exact, the significand is re-aligned. *)
Definition to_double (f : spec_float) : double :=
  match f with
  | S754_finite s m e =>
      binary_normalize Double.prec Double.emax (cond_Zopp s (Zpos m)) e s
  | _ => f
  end.

(** The float nearest to the decimal [(-1)^s * d / 10^k], as [strtof]
    and the [%f] of [fscanf] produce it: the quotient of the two
    integers is rounded once, at 24 bits. *)
Definition of_decimal (s : bool) (d : N) (k : nat) : spec_float :=
  match d with
  | N0 => S754_zero s
  | Npos m =>
      SFdiv prec emax (S754_finite s m 0)
        (S754_finite false (Z.to_pos (10 ^ Z.of_nat k)) 0)
  end.

End Single.

(** ** The text of [offsets.txt]: [fprintf] and [fscanf]

    Only the conversions the program uses are modelled: ["%d"] and ["%f"]
    on output, and the same two on input, where ["%f"] stores a [float].
    The input side accepts what the output side can produce (an optional
    sign, decimal digits with an optional fraction, [inf], [nan]);
    exponents and hexadecimal floats never occur in a file written by
    [sortMovie]. *)

Module Text.

Definition is_digit (c : ascii) : bool :=
  ((48 <=? N_of_ascii c) && (N_of_ascii c <=? 57))%N.

Definition digit_val (c : ascii) : Z := Z.of_N (N_of_ascii c) - 48.

Definition digit_char (d : Z) : ascii := ascii_of_N (Z.to_N (48 + d)).

(** [isspace]: space, and the control characters 9 to 13. *)
Definition is_space (c : ascii) : bool :=
  ((N_of_ascii c =? 32) || ((9 <=? N_of_ascii c) && (N_of_ascii c <=? 13)))%N.

(** *** Output *)

(** The decimal digits of [n >= 0] put in front of [tail]; [fuel] bounds
    the number of digits. *)
Fixpoint print_digits (fuel : nat) (n : Z) (tail : string) : string :=
  match fuel with
  | O => tail
  | S fuel' =>
      let tail' := String (digit_char (n mod 10)) tail in
      if n <? 10 then tail' else print_digits fuel' (n / 10) tail'
  end.

Definition print_nat (n : Z) (tail : string) : string :=
  print_digits (S (Z.to_nat (Z.log2 n))) n tail.

(** ["%d"] *)
Definition print_d (n : Z) (tail : string) : string :=
  if n <? 0 then String "-" (print_nat (- n) tail) else print_nat n tail.

(** The integer nearest to [m * 2^e * 10^6], ties to even: the digits
    that ["%f"] prints for the magnitude of a finite double. *)
Definition millionths (m : positive) (e : Z) : Z :=
  if 0 <=? e then Zpos m * 2 ^ e * 1000000
  else
    let num := Zpos m * 1000000 in
    let den := 2 ^ (- e) in
    let q := num / den in
    match (2 * (num mod den)) ?= den with
    | Lt => q
    | Gt => q + 1
    | Eq => if Z.even q then q else q + 1
    end.

Definition print_sign (s : bool) (tail : string) : string :=
  if s then String "-" tail else tail.

(** [n] millionths as [<integer part>.<six digits>]. *)
Definition print_fixed (n : Z) (tail : string) : string :=
  let f := n mod 1000000 in
  print_nat (n / 1000000)
    (String "."
      (String (digit_char (f / 100000 mod 10))
      (String (digit_char (f / 10000 mod 10))
      (String (digit_char (f / 1000 mod 10))
      (String (digit_char (f / 100 mod 10))
      (String (digit_char (f / 10 mod 10))
      (String (digit_char (f mod 10)) tail))))))).

(** ["%f"] *)
Definition print_f (x : double) (tail : string) : string :=
  match x with
  | S754_nan => ("nan" ++ tail)%string
  | S754_infinity s => print_sign s ("inf" ++ tail)%string
  | S754_zero s => print_sign s (print_fixed 0 tail)
  | S754_finite s m e => print_sign s (print_fixed (millionths m e) tail)
  end.

(** *** Input *)

Fixpoint skip_space (s : string) : string :=
  match s with
  | String c s' => if is_space c then skip_space s' else s
  | EmptyString => s
  end.

(** The digits at the head of [s] accumulated onto [acc]; how many there
    were is added to [count]. *)
Fixpoint scan_digits (s : string) (acc : Z) (count : nat)
    : Z * nat * string :=
  match s with
  | String c s' =>
      if is_digit c then scan_digits s' (10 * acc + digit_val c) (S count)
      else (acc, count, s)
  | EmptyString => (acc, count, s)
  end.

Definition scan_sign (s : string) : bool * string :=
  match s with
  | String "-" s' => (true, s')
  | String "+" s' => (false, s')
  | _ => (false, s)
  end.

(** ["%d"], white space already skipped: [None] is a matching failure. *)
Definition scan_d (s : string) : option (Z * string) :=
  let '(neg, s1) := scan_sign s in
  let '(n, count, s2) := scan_digits s1 0 O in
  match count with
  | O => None
  | S _ => Some (if neg then - n else n, s2)
  end.

(** ["%f"] into a [float], white space already skipped. *)
Definition scan_f (s : string) : option (spec_float * string) :=
  let '(neg, s1) := scan_sign s in
  match s1 with
  | String "i" (String "n" (String "f" s2)) => Some (S754_infinity neg, s2)
  | String "n" (String "a" (String "n" s2)) => Some (S754_nan, s2)
  | _ =>
      let '(ip, ni, s2) := scan_digits s1 0 O in
      match s2 with
      | String "." s3 =>
          let '(d, nf, s4) := scan_digits s3 ip O in
          match ni, nf with
          | O, O => None
          | _, _ => Some (Single.of_decimal neg (Z.to_N d) nf, s4)
          end
      | _ =>
          match ni with
          | O => None
          | S _ => Some (Single.of_decimal neg (Z.to_N ip) O, s2)
          end
      end
  end.

(** What one call [fscanf(fd, "%d,%f", &offset, &brightness)] does to
    the unread text. *)
Inductive scanned : Type :=
| ScanEOF                       (* input ends before the first conversion *)
| ScanFailure                   (* fewer than two items were assigned *)
| Scanned (offset : Z) (brightness : spec_float) (rest : string).

Definition fscanf_d_f (s : string) : scanned :=
  match skip_space s with
  | EmptyString => ScanEOF
  | s1 =>
      match scan_d s1 with
      | None => ScanFailure
      | Some (offset, String "," s2) =>
          match scan_f (skip_space s2) with
          | None => ScanFailure
          | Some (brightness, rest) => Scanned offset brightness rest
          end
      | Some _ => ScanFailure
      end
  end.

End Text.

(** ** The application object and its surroundings

    [qtime::MovieSurface] is the decoder: a sequence of frames and a
    current position.  A frame the decoder cannot deliver is [None]; asking
    for it, or for a position outside the movie, throws.  A
    default-constructed or [reset] movie has no frames.

    Besides the members of the C++ class the record holds the three files
    the program touches in the directory of [mMoviePath]: the movie itself
    ([None]: it cannot be opened), [offsets.txt] and [output.mov] ([None]:
    the file does not exist).  The progress text [mInfoText] and the
    console output are not modelled. *)

Record MovieSurface : Type := mkMovie {
  movieFrames : list (option Surface8u);
  moviePosition : Z
}.

Definition noMovie : MovieSurface := mkMovie [] 0.

Definition getNumFrames (m : MovieSurface) : Z :=
  Z.of_nat (List.length (movieFrames m)).

Definition frameAt (m : MovieSurface) (i : Z) : option Surface8u :=
  if i <? 0 then None
  else match nth_error (movieFrames m) (Z.to_nat i) with
       | Some (Some s) => Some s
       | _ => None
       end.

Inductive exn : Type :=
| OpenFailed
| DecodeFailed (index : Z).

Record LuminOrderApp : Type := mkApp {
  mFrameSurface : option Surface8u;
  mMovie : MovieSurface;
  mFrameData : list FrameData;
  mFrameIndex : Z;
  mSorted : bool;
  mSaved : bool;
  movie_file : option (list (option Surface8u));
  offsets_txt : option string;
  output_mov : option (list Surface8u)
}.

Definition with_mFrameSurface (v : option Surface8u) (a : LuminOrderApp) :=
  mkApp v (mMovie a) (mFrameData a) (mFrameIndex a) (mSorted a) (mSaved a)
    (movie_file a) (offsets_txt a) (output_mov a).
Definition with_mMovie (v : MovieSurface) (a : LuminOrderApp) :=
  mkApp (mFrameSurface a) v (mFrameData a) (mFrameIndex a) (mSorted a)
    (mSaved a) (movie_file a) (offsets_txt a) (output_mov a).
Definition with_mFrameData (v : list FrameData) (a : LuminOrderApp) :=
  mkApp (mFrameSurface a) (mMovie a) v (mFrameIndex a) (mSorted a) (mSaved a)
    (movie_file a) (offsets_txt a) (output_mov a).
Definition with_mFrameIndex (v : Z) (a : LuminOrderApp) :=
  mkApp (mFrameSurface a) (mMovie a) (mFrameData a) v (mSorted a) (mSaved a)
    (movie_file a) (offsets_txt a) (output_mov a).
Definition with_mSorted (v : bool) (a : LuminOrderApp) :=
  mkApp (mFrameSurface a) (mMovie a) (mFrameData a) (mFrameIndex a) v
    (mSaved a) (movie_file a) (offsets_txt a) (output_mov a).
Definition with_mSaved (v : bool) (a : LuminOrderApp) :=
  mkApp (mFrameSurface a) (mMovie a) (mFrameData a) (mFrameIndex a)
    (mSorted a) v (movie_file a) (offsets_txt a) (output_mov a).
Definition with_offsets_txt (v : option string) (a : LuminOrderApp) :=
  mkApp (mFrameSurface a) (mMovie a) (mFrameData a) (mFrameIndex a)
    (mSorted a) (mSaved a) (movie_file a) v (output_mov a).
Definition with_output_mov (v : option (list Surface8u))
    (a : LuminOrderApp) :=
  mkApp (mFrameSurface a) (mMovie a) (mFrameData a) (mFrameIndex a)
    (mSorted a) (mSaved a) (movie_file a) (offsets_txt a) v.

(** *** A state monad with exceptions

    A C++ member function that may throw: it returns a value or an
    exception, and in both cases the object as it has left it. *)

Definition M (A : Type) : Type := LuminOrderApp -> (exn + A) * LuminOrderApp.

Definition ret {A} (x : A) : M A := fun a => (inr x, a).

Definition bind {A B} (c : M A) (k : A -> M B) : M B :=
  fun a =>
    match c a with
    | (inl e, a') => (inl e, a')
    | (inr x, a') => k x a'
    end.

Definition throw {A} (e : exn) : M A := fun a => (inl e, a).

Definition gets {A} (f : LuminOrderApp -> A) : M A := fun a => (inr (f a), a).

Definition modify (f : LuminOrderApp -> LuminOrderApp) : M unit :=
  fun a => (inr tt, f a).

(** [try { c } catch (...) { h }] *)
Definition try_catch (c h : M unit) : M unit :=
  fun a =>
    match c a with
    | (inl _, a') => h a'
    | (inr tt, a') => (inr tt, a')
    end.

Declare Scope app_scope.
Delimit Scope app_scope with app.
Notation "x <- c ;; k" := (bind c (fun x => k))
  (at level 61, c at next level, right associativity) : app_scope.
Notation "c ;; k" := (bind c (fun _ => k))
  (at level 61, right associativity) : app_scope.
Local Open Scope app_scope.

(** [for (int i = ...; ...; i++) body(i)]: [n] iterations from [i] on. *)
Fixpoint for_loop (n : nat) (i : Z) (body : Z -> M unit) : M unit :=
  match n with
  | O => ret tt
  | S n' => body i ;; for_loop n' (i + 1) body
  end.

(** A loop over the elements of a vector that the body does not change. *)
Fixpoint for_each {A} (l : list A) (body : A -> M unit) : M unit :=
  match l with
  | [] => ret tt
  | x :: l' => body x ;; for_each l' body
  end.

(** *** The decoder, as the application calls it *)

Definition movie_open : M unit :=
  file <- gets movie_file ;;
  match file with
  | None => throw OpenFailed
  | Some frames => modify (with_mMovie (mkMovie frames 0))
  end.

Definition movie_seekToFrame (i : Z) : M unit :=
  modify (fun a => with_mMovie (mkMovie (movieFrames (mMovie a)) i) a).

Definition movie_stepForward : M unit :=
  modify (fun a =>
    with_mMovie
      (mkMovie (movieFrames (mMovie a)) (moviePosition (mMovie a) + 1)) a).

Definition movie_getSurface : M Surface8u :=
  m <- gets mMovie ;;
  match frameAt m (moviePosition m) with
  | Some s => ret s
  | None => throw (DecodeFailed (moviePosition m))
  end.

Definition movie_reset : M unit := modify (with_mMovie noMovie).

(** ** The member functions *)

(** The state of a freshly constructed application after [setup]: the
    vector is empty, no movie is loaded, both flags are false.
    ([mFrameIndex] is indeterminate in C++; it is written before it is
    read.) *)
Definition setup (movie : option (list (option Surface8u)))
    (offsets : option string) (output : option (list Surface8u))
    : LuminOrderApp :=
  mkApp None noMovie [] 0 false false movie offsets output.

Definition processNextFrame : M double :=
  surface <- movie_getSurface ;;
  modify (with_mFrameSurface (Some surface)) ;;
  let brightness := surface_brightness surface in
  index <- gets mFrameIndex ;;
  let data := mkFrameData index brightness in
  modify (fun a => with_mFrameData (mFrameData a ++ [data]) a) ;;
  modify (fun a => with_mFrameIndex (mFrameIndex a + 1) a) ;;
  movie_stepForward ;;
  ret (Single.to_double (Single.of_double brightness)).

(** [start_frame] stands for the macro [START_FRAME]; the program is
    compiled with [START_FRAME = 0]. *)
Definition processAllFrames (start_frame : Z) : M unit :=
  movie_seekToFrame start_frame ;;
  modify (with_mFrameIndex start_frame) ;;
  n <- gets (fun a => getNumFrames (mMovie a)) ;;
  for_loop (Z.to_nat (n - start_frame)) 0 (fun i =>
    brightness <- processNextFrame ;;
    ret tt).

(** One line of the sidecar: [fprintf(fd, "%d,%f\n", ...)]. *)
Definition print_record (r : FrameData) (tail : string) : string :=
  Text.print_d (mIndex r)
    (String "," (Text.print_f (mBrightness r) (String "010" tail))).

Definition print_table (t : list FrameData) : string :=
  fold_right print_record EmptyString t.

Definition sortMovie : M unit :=
  modify (fun a =>
    with_mFrameData (std_sort FrameBrightnessSort (mFrameData a)) a) ;;
  modify (with_mSorted true) ;;
  modify (with_mFrameIndex 0) ;;
  t <- gets mFrameData ;;
  modify (with_offsets_txt (Some (print_table t))).

Definition writer_addFrame (s : Surface8u) : M unit :=
  modify (fun a =>
    with_output_mov
      (match output_mov a with
       | Some written => Some (written ++ [s])
       | None => Some [s]
       end) a).

Definition saveMovie : M unit :=
  sorted <- gets mSorted ;;
  if negb sorted then ret tt
  else
    modify (with_output_mov (Some [])) ;;
    t <- gets mFrameData ;;
    for_each t (fun r =>
      movie_seekToFrame (mIndex r) ;;
      surface <- movie_getSurface ;;
      modify (with_mFrameSurface (Some surface)) ;;
      writer_addFrame surface) ;;
    modify (with_mSaved true).

Definition loadMovieFile (start_frame : Z) : M unit :=
  try_catch
    (movie_open ;;
     processAllFrames start_frame ;;
     sortMovie ;;
     saveMovie)
    movie_reset.

(** [loadBrightnessFile]: records are appended while [fscanf] does not
    report the end of the file.  A call that assigns fewer than two items
    makes the C++ loop push indeterminate values and read the same text
    again; that, and a missing file, is [None] here.  Every successful
    call consumes at least one character, which bounds the loop. *)
Fixpoint load_loop (fuel : nat) (s : string) (data : list FrameData)
    : option (list FrameData) :=
  match fuel with
  | O => None
  | S fuel' =>
      match Text.fscanf_d_f s with
      | Text.ScanEOF => Some data
      | Text.ScanFailure => None
      | Text.Scanned offset brightness rest =>
          load_loop fuel' rest
            (data ++ [mkFrameData offset (Single.to_double brightness)])
      end
  end.

Definition loadBrightnessFile (a : LuminOrderApp) : option LuminOrderApp :=
  match offsets_txt a with
  | None => None
  | Some s =>
      match load_loop (S (String.length s)) s (mFrameData a) with
      | None => None
      | Some data => Some (with_mFrameData data a)
      end
  end.

(** ** The comparator as the specification words it

    [epsilon] is the bucket width 0.01 (the double nearest to 1/100) and
    [bucket x] is [round(x / epsilon) * epsilon]; [precedes] is the order
    the specification describes.  They are compared with the program's
    [ROUND_TO] and [FrameBrightnessSort] below. *)

Definition epsilon : double := Double.div (Double.of_int 1) (Double.of_int 100).

Definition bucket (x : double) : double :=
  Double.mul (Double.round (Double.div x epsilon)) epsilon.

Definition precedes (a b : FrameData) : Prop :=
  Double.ltb (bucket (mBrightness a)) (bucket (mBrightness b)) = true \/
  (Double.eqb (bucket (mBrightness a)) (bucket (mBrightness b)) = true /\
   mIndex a < mIndex b).

Definition not_nan (r : FrameData) : Prop :=
  Double.is_nan (mBrightness r) = false.

(** ** Sample data

    [decimal n d] is the double nearest to [n / d].  The sample table is
    the third scenario of the specification: brightnesses 0.49, 0.51,
    0.48 and 0.52 at the indices 0 to 3. *)

Definition decimal (n d : Z) : double :=
  Double.div (Double.of_int n) (Double.of_int d).

Definition sample_table : list FrameData :=
  [ mkFrameData 0 (decimal 49 100); mkFrameData 1 (decimal 51 100);
    mkFrameData 2 (decimal 48 100); mkFrameData 3 (decimal 52 100) ].


(** ** Vocabulary for the statements about the pipeline *)

(** The brightness [processNextFrame] records for frame [i] of a movie. *)
Definition brightness_at (m : MovieSurface) (i : Z) : double :=
  match frameAt m i with
  | Some s => surface_brightness s
  | None => Double.nan
  end.

(** The records that pass 1 appends for the [n] frames from position
    [pos] on, numbered from [index] on. *)
Definition analysed (m : MovieSurface) (pos index : Z) (n : nat)
    : list FrameData :=
  map (fun j => mkFrameData (index + Z.of_nat j)
                  (brightness_at m (pos + Z.of_nat j)))
      (seq 0 n).

(** Nothing but the decoder position, the current surface, the table and
    the running index differs between two states. *)
Definition same_surroundings (a a' : LuminOrderApp) : Prop :=
  movieFrames (mMovie a') = movieFrames (mMovie a) /\
  mSorted a' = mSorted a /\ mSaved a' = mSaved a /\
  movie_file a' = movie_file a /\
  offsets_txt a' = offsets_txt a /\ output_mov a' = output_mov a.

(** The surfaces that pass 2 fetches for the records of a table. *)
Definition fetched (m : MovieSurface) (t : list FrameData)
    : list Surface8u :=
  flat_map (fun r => match frameAt m (mIndex r) with
                     | Some s => [s]
                     | None => []
                     end) t.

(** The first scenario of the specification: three frames of one colour
    each, black, white and mid-grey (here 4 by 3 pixels). *)
Definition grey (v : byte) : Pixel := mkPixel v v v xff.

Definition uniform (w h : Z) (v : byte) : Surface8u :=
  mkSurface w h (fun _ _ => grey v).

Definition sample_movie : list (option Surface8u) :=
  [Some (uniform 4 3 x00); Some (uniform 4 3 xff); Some (uniform 4 3 x80)].

(** A movie whose second frame cannot be decoded. *)
Definition failing_movie : list (option Surface8u) :=
  [Some (uniform 4 3 x00); None; Some (uniform 4 3 x80)].

(** ** Brightness as the specification words it

    The mean over all pixels of [(R + G + B) / (3 * 255)]: the pixels are
    taken in scan order, the arithmetic is that of doubles. *)

Definition intensity (p : Pixel) : double :=
  Double.div
    (Double.of_int (channel (red p) + channel (green p) + channel (blue p)))
    (Double.of_int (3 * 255)).

Definition pixels_of (s : Surface8u) : list Pixel :=
  flat_map
    (fun y => map (fun x => getPixel s (Z.of_nat x) (Z.of_nat y))
                (seq 0 (Z.to_nat (getWidth s))))
    (seq 0 (Z.to_nat (getHeight s))).

Definition mean_brightness (ps : list Pixel) : double :=
  Double.div (fold_left Double.add (map intensity ps) Double.zero)
    (Double.of_int (Z.of_nat (List.length ps))).

(** Every finite double is a multiple of [2^-1074]: the number of binary
    places of the smallest one. *)
Definition places : Z := 1074.

(** [x] is a valid double, not negative, and at most the integer [B]:
    every finite double is a multiple of [2^-1074], which turns the
    comparison into one between integers. *)
Definition in_range (x : double) (B : Z) : Prop :=
  match x with
  | S754_zero s => s = false
  | S754_finite s m e =>
      s = false /\ bounded Double.prec Double.emax m e = true /\
      Zpos m * 2 ^ (e + places) <= B * 2 ^ places
  | _ => False
  end.

Definition in_rangeb (x : double) (B : Z) : bool :=
  match x with
  | S754_zero s => negb s
  | S754_finite s m e =>
      negb s && bounded Double.prec Double.emax m e
      && (Zpos m * 2 ^ (e + places) <=? B * 2 ^ places)
  | _ => false
  end.

(** The value of a finite double in units of [2^-1074]: an integer for
    every valid double. *)
Definition scaled (x : double) : Z :=
  match x with
  | S754_finite s m e => cond_Zopp s (Zpos m * 2 ^ (e + places))
  | _ => 0
  end.

(** The sum of the three colour channels of a pixel, and of all pixels. *)
Definition channel_sum (p : Pixel) : Z :=
  channel (red p) + channel (green p) + channel (blue p).

Definition channel_total (ps : list Pixel) : Z :=
  fold_right (fun p acc => channel_sum p + acc) 0 ps.

(** The term a pixel adds to the sum, by the sum of its channels. *)
Definition term_of (k : Z) : double :=
  Double.div (Double.of_int k)
    (Double.mul (Double.of_int 3) (Double.of_int 255)).

(** The exact sum of the terms that the loop adds up, in units of
    [2^-1074]. *)
Definition term_total (ps : list Pixel) : Z :=
  fold_right (fun p acc => scaled (pixel_term p) + acc) 0 ps.

(** A term is within [2^-53] of the exact quotient [k / 765]. *)
Definition term_closeb (k : Z) : bool :=
  Z.abs (scaled (term_of k) * 765 - k * 2 ^ places) <=? 765 * 2 ^ (places - 53).

(** ** Vocabulary for the statements about the sidecar *)

(** What comes back for a brightness that has been through the file: the
    numeral with six decimals, read as a [float]. *)
Definition reread (x : double) : double :=
  Single.to_double
    match x with
    | S754_finite s m e => Single.of_decimal s (Z.to_N (Text.millionths m e)) 6
    | S754_zero s => Single.of_decimal s 0 6
    | _ => x
    end.

Definition reread_record (r : FrameData) : FrameData :=
  mkFrameData (mIndex r) (reread (mBrightness r)).

(** Two records on either side of the bucket boundary 0.025: the first
    is the brightness of a frame of 4000 pixels whose channels add up to
    76499, just below the boundary; it is printed as [0.025000]. *)
Definition boundary_table : list FrameData :=
  [ mkFrameData 5 (decimal 76499 3060000); mkFrameData 3 (decimal 26 1000) ].

(** The text does not continue the number before it. *)
Definition ends_number (tail : string) : Prop :=
  match tail with
  | String c _ => Text.is_digit c = false
  | EmptyString => True
  end.

(** ** Vocabulary for the statements about rounding and sorting *)

(** Bits were lost when a significand was shifted right. *)
Definition inexact (mrs : shr_record) : bool := shr_r mrs || shr_s mrs.

(** [a] may stand before [b]: the comparator does not put [b] before
    [a]. *)
Definition not_after {A} (comp : A -> A -> bool) (a b : A) : Prop :=
  comp b a = false.

Definition before {A} (comp : A -> A -> bool) (a b : A) : Prop :=
  comp a b = true.

(** [SFcompare] orders floats that are not NaN like the lexicographic
    order on a triple of integers: the class (infinities outermost, zeros
    of both signs in the middle), then exponent and significand, both
    negated for negative numbers. *)

Definition rank (x : double) : Z * Z * Z :=
  match x with
  | S754_nan => (0, 0, 0)
  | S754_zero _ => (0, 0, 0)
  | S754_infinity true => (-2, 0, 0)
  | S754_infinity false => (2, 0, 0)
  | S754_finite true m e => (-1, - e, Zneg m)
  | S754_finite false m e => (1, e, Zpos m)
  end.

Definition lex3 (a b : Z * Z * Z) : comparison :=
  let '(a1, a2, a3) := a in
  let '(b1, b2, b3) := b in
  match a1 ?= b1 with
  | Eq => match a2 ?= b2 with Eq => a3 ?= b3 | c => c end
  | c => c
  end.

(** ** Vocabulary for the statements about repeated runs

    [fileDrop] starts [loadMovieFile] anew for every file dropped on the
    window, on the same application object.  [after_first_run] is that
    object after one run on the sample movie; [reopened] is the state in
    which a second run on the same file starts its pass 1, the movie
    opened again. *)

Definition after_first_run : LuminOrderApp :=
  snd (loadMovieFile START_FRAME (setup (Some sample_movie) None None)).

Definition reopened : LuminOrderApp :=
  with_mMovie (mkMovie sample_movie 0) after_first_run.

(** The [try] block of [loadMovieFile].  A run is successful when no
    exception leaves the block, that is, when the [catch] block is not
    entered. *)
Definition loadMovieFile_try (start_frame : Z) : M unit :=
  movie_open ;;
  processAllFrames start_frame ;;
  sortMovie ;;
  saveMovie.

Definition successful (start_frame : Z) (a : LuminOrderApp) : Prop :=
  fst (loadMovieFile_try start_frame a) = inr tt.

(** A movie whose first frame has no pixels, followed by a black frame. *)
Definition empty_first_movie : list (option Surface8u) :=
  [Some (uniform 0 0 x00); Some (uniform 4 3 x00)].

(** ** [gotoNextFrame]

    The test [mFrameIndex < mFrameData.size()] compares an [int] with a
    [size_t]: the [int] is converted, and a negative one becomes a value
    above every size a vector can have.  The test therefore holds exactly
    for [0 <= mFrameIndex < size], and the element access that follows is
    within the vector (the [None] branch below is never taken). *)

Definition gotoNextFrame : M unit :=
  index <- gets mFrameIndex ;;
  t <- gets mFrameData ;;
  if (0 <=? index) && (index <? Z.of_nat (List.length t)) then
    match nth_error t (Z.to_nat index) with
    | Some r =>
        movie_seekToFrame (mIndex r) ;;
        surface <- movie_getSurface ;;
        modify (with_mFrameSurface (Some surface)) ;;
        modify (fun a => with_mFrameIndex (mFrameIndex a + 1) a)
    | None => ret tt
    end
  else ret tt.

(** [n] calls of a member function in a row, as long as none throws. *)
Definition calls (n : nat) (c : M unit) : M unit :=
  for_loop n 0 (fun _ => c).

(** ** The loop of [loadBrightnessFile], turn by turn

    [load_loop] above follows the loop while every call of [fscanf] reads a
    whole record.  The loop itself only asks whether [fscanf] returned
    [EOF]; when a call assigns nothing, the body still runs, with the
    variables [offset] and [brightness] as the last assignment left them
    (or as they were at the start, where C++ leaves them indeterminate).

    One case of that is modelled here besides the two of [load_loop]: the
    first character after the white space cannot begin an integer, so the
    input item of ["%d"] is empty; [fscanf] then returns 0 and the
    character stays unread.  Items that match in part (a sign without
    digits, a record cut short) are not modelled. *)

Record Loader : Type := mkLoader {
  unread : string;
  offset : Z;
  brightness : spec_float;
  loaded : list FrameData
}.

Inductive turn : Type :=
| Ended (table : list FrameData)
| Next (l : Loader)
| Unmodelled.

Definition starts_integer (c : ascii) : bool :=
  Text.is_digit c || Ascii.eqb c "-" || Ascii.eqb c "+".

(** [mFrameData.push_back(FrameData(offset, brightness))] *)
Definition push_back (offset : Z) (brightness : spec_float)
    (t : list FrameData) : list FrameData :=
  t ++ [mkFrameData offset (Single.to_double brightness)].

Definition loop_turn (l : Loader) : turn :=
  match Text.skip_space (unread l) with
  | EmptyString => Ended (loaded l)
  | String c _ as s =>
      if starts_integer c then
        match Text.fscanf_d_f s with
        | Text.Scanned o b rest =>
            Next (mkLoader rest o b (push_back o b (loaded l)))
        | _ => Unmodelled
        end
      else
        Next (mkLoader s (offset l) (brightness l)
                (push_back (offset l) (brightness l) (loaded l)))
  end.

Fixpoint loop_turns (n : nat) (l : Loader) : turn :=
  match n with
  | O => Next l
  | S n' =>
      match loop_turn l with
      | Next l' => loop_turns n' l'
      | t => t
      end
  end.

(** How often a character occurs in a text. *)
Fixpoint count_char (c : ascii) (s : string) : nat :=
  match s with
  | EmptyString => O
  | String c' s' => (if Ascii.eqb c c' then 1 else 0) + count_char c s'
  end.

(** ** Vocabulary for the statements about buckets *)

(** The facts about exponents that a proof hands to [lia], marked to be
    found in its context. *)
Definition linear (P : Prop) : Prop := P.

(** The double that stands for bucket [k]: [k * ROUND_TO], rounded. *)
Definition bucket_value (k : Z) : double :=
  Double.mul (Double.of_int k) ROUND_TO.

(** It is a valid double between 0 and 1, within [2^-52] of the exact
    product. *)
Definition bucket_closeb (k : Z) : bool :=
  in_rangeb (bucket_value k) 1 &&
  (Z.abs (scaled (bucket_value k) - k * scaled ROUND_TO)
   <=? 2 ^ (places - 52)).

(** ** Vocabulary for the statements about [predict] *)

(** [x] is a number, not a NaN, and its sign bit is [s]. *)
Definition signed (s : bool) (x : double) : Prop :=
  match x with
  | S754_nan => False
  | S754_zero s' | S754_infinity s' | S754_finite s' _ _ => s' = s
  end.

(** * Properties *)

(** ** The order on doubles *)

Lemma lex3_Lt (a1 a2 a3 b1 b2 b3 : Z) :
  lex3 (a1, a2, a3) (b1, b2, b3) = Lt <->
  a1 < b1 \/ (a1 = b1 /\ (a2 < b2 \/ (a2 = b2 /\ a3 < b3))).
Proof.
  unfold lex3.
  destruct (Z.compare_spec a1 b1); [destruct (Z.compare_spec a2 b2);
    [destruct (Z.compare_spec a3 b3)| |] | |];
    split; intros; try discriminate; try reflexivity; lia.
Qed.

Lemma lex3_Eq (a1 a2 a3 b1 b2 b3 : Z) :
  lex3 (a1, a2, a3) (b1, b2, b3) = Eq <-> a1 = b1 /\ a2 = b2 /\ a3 = b3.
Proof.
  unfold lex3.
  destruct (Z.compare_spec a1 b1); [destruct (Z.compare_spec a2 b2);
    [destruct (Z.compare_spec a3 b3)| |] | |];
    split; intros; try discriminate; try reflexivity; lia.
Qed.

Lemma SFcompare_rank (x y : double) :
  Double.is_nan x = false -> Double.is_nan y = false ->
  SFcompare x y = Some (lex3 (rank x) (rank y)).
Proof.
  destruct x as [sx|sx| |sx mx ex], y as [sy|sy| |sy my ey];
    try discriminate; intros _ _; simpl;
    try destruct sx; try destruct sy; try reflexivity; simpl.
  rewrite Z.compare_opp, (Z.compare_antisym ex ey).
  destruct (ex ?= ey); reflexivity.
Qed.

Lemma SFcompare_Some_not_nan (x y : double) (c : comparison) :
  SFcompare x y = Some c ->
  Double.is_nan x = false /\ Double.is_nan y = false.
Proof.
  destruct x, y; simpl; intros H; try discriminate; split; reflexivity.
Qed.

(** The three outcomes of comparing two doubles, in terms of [rank]. *)
Lemma ltb_rank (x y : double) :
  Double.ltb x y = true <->
  Double.is_nan x = false /\ Double.is_nan y = false /\
  lex3 (rank x) (rank y) = Lt.
Proof.
  unfold Double.ltb, SFltb. split.
  - destruct (SFcompare x y) as [c|] eqn:E; try discriminate.
    destruct (SFcompare_Some_not_nan _ _ _ E) as [Hx Hy].
    rewrite (SFcompare_rank _ _ Hx Hy) in E. inversion E; subst c.
    destruct (lex3 (rank x) (rank y)); try discriminate; auto.
  - intros (Hx & Hy & H). rewrite (SFcompare_rank _ _ Hx Hy), H. reflexivity.
Qed.

Lemma eqb_rank (x y : double) :
  Double.eqb x y = true <->
  Double.is_nan x = false /\ Double.is_nan y = false /\ rank x = rank y.
Proof.
  unfold Double.eqb, SFeqb. split.
  - destruct (SFcompare x y) as [c|] eqn:E; try discriminate.
    destruct (SFcompare_Some_not_nan _ _ _ E) as [Hx Hy].
    rewrite (SFcompare_rank _ _ Hx Hy) in E. inversion E; subst c.
    destruct (lex3 (rank x) (rank y)) eqn:L; try discriminate.
    intros _. repeat split; auto.
    destruct (rank x) as [[a1 a2] a3], (rank y) as [[b1 b2] b3].
    apply lex3_Eq in L. destruct L as (-> & -> & ->). reflexivity.
  - intros (Hx & Hy & H). rewrite (SFcompare_rank _ _ Hx Hy), H.
    destruct (rank y) as [[b1 b2] b3].
    replace (lex3 (b1, b2, b3) (b1, b2, b3)) with Eq; [reflexivity|].
    symmetry. apply lex3_Eq. auto.
Qed.

(** ** Rounding never produces a NaN from a number *)

Section RoundingFacts.
Variables prec emax : Z.

Lemma iter_pos_nat {A} (f : A -> A) (p : positive) (x : A) :
  iter_pos f p x = Nat.iter (Pos.to_nat p) f x.
Proof.
  revert x. induction p as [p IH|p IH|]; intros x; cbn [iter_pos].
  - rewrite !IH, Pos2Nat.inj_xI, <- Nat.iter_add.
    replace (S (2 * Pos.to_nat p))%nat
      with (Pos.to_nat p + Pos.to_nat p + 1)%nat by lia.
    rewrite (Nat.iter_add (Pos.to_nat p + Pos.to_nat p)). reflexivity.
  - rewrite !IH, Pos2Nat.inj_xO, <- Nat.iter_add.
    f_equal. lia.
  - reflexivity.
Qed.

Lemma shr_1_spec (mrs : shr_record) :
  0 <= shr_m mrs ->
  shr_m (shr_1 mrs) = shr_m mrs / 2 /\
  inexact (shr_1 mrs) = Z.odd (shr_m mrs) || inexact mrs.
Proof.
  destruct mrs as [m r s]. unfold inexact. simpl. intros Hm.
  rewrite <- Z.div2_div.
  destruct m as [|p|p]; [|destruct p|lia]; simpl; auto.
Qed.

Lemma shr_iter_spec (k : nat) (mrs : shr_record) :
  0 <= shr_m mrs ->
  shr_m (Nat.iter k shr_1 mrs) = shr_m mrs / 2 ^ Z.of_nat k /\
  inexact (Nat.iter k shr_1 mrs) =
    negb (shr_m mrs mod 2 ^ Z.of_nat k =? 0) || inexact mrs.
Proof.
  intros Hm. induction k as [|k [IHm IHi]].
  - simpl. rewrite Z.div_1_r, Z.mod_1_r. auto.
  - assert (Hp : 0 < 2 ^ Z.of_nat k) by (apply Z.pow_pos_nonneg; lia).
    assert (H0 : 0 <= shr_m (Nat.iter k shr_1 mrs)).
    { rewrite IHm. apply Z.div_pos; lia. }
    destruct (shr_1_spec _ H0) as [Em Ei].
    simpl Nat.iter. rewrite Em, Ei, IHm, IHi.
    rewrite Nat2Z.inj_succ, Z.pow_succ_r by lia.
    split.
    + rewrite Z.div_div by lia. f_equal. lia.
    + set (m := shr_m mrs) in *. set (q := 2 ^ Z.of_nat k) in *.
      rewrite (Z.mul_comm 2 q), Z.rem_mul_r by lia.
      rewrite orb_assoc. f_equal.
      rewrite Zodd_mod.
      assert (0 <= m mod q < q) by (apply Z.mod_pos_bound; lia).
      assert (0 <= (m / q) mod 2 < 2) by (apply Z.mod_pos_bound; lia).
      destruct (Z.eqb_spec (m mod q) 0), (Z.eqb_spec ((m / q) mod 2) 1),
        (Z.eqb_spec (m mod q + q * ((m / q) mod 2)) 0);
        simpl; try reflexivity; try nia.
Qed.

Lemma shr_record_of_loc_m (m : Z) (l : location) :
  shr_m (shr_record_of_loc m l) = m.
Proof. destruct l as [|[]]; reflexivity. Qed.

Lemma shr_record_of_loc_inexact (m : Z) (l : location) :
  inexact (shr_record_of_loc m l) =
  match l with loc_Exact => false | _ => true end.
Proof. destruct l as [|[]]; reflexivity. Qed.

Lemma loc_of_shr_record_exact (mrs : shr_record) :
  loc_of_shr_record mrs = loc_Exact <-> inexact mrs = false.
Proof.
  destruct mrs as [m [] []]; unfold inexact; simpl; split; congruence.
Qed.

(** [shr] drops the [n] low bits of the significand and remembers
    whether anything was lost. *)
Lemma shr_spec (mrs : shr_record) (e n : Z) :
  0 <= shr_m mrs ->
  let k := Z.max 0 n in
  shr_m (fst (shr mrs e n)) = shr_m mrs / 2 ^ k /\
  snd (shr mrs e n) = e + k /\
  inexact (fst (shr mrs e n)) =
    negb (shr_m mrs mod 2 ^ k =? 0) || inexact mrs.
Proof.
  intros Hm k. unfold shr. destruct n as [|p|p]; simpl in k; subst k.
  - simpl. rewrite Z.div_1_r, Z.mod_1_r, Z.add_0_r. auto.
  - cbn [fst snd]. rewrite iter_pos_nat.
    destruct (shr_iter_spec (Pos.to_nat p) mrs Hm) as [Em Ei].
    rewrite positive_nat_Z in Em, Ei. auto.
  - simpl. rewrite Z.div_1_r, Z.mod_1_r, Z.add_0_r. auto.
Qed.

Lemma shr_fexp_spec (m e : Z) (l : location) :
  0 <= m ->
  let k := Z.max 0 (fexp prec emax (Zdigits2 m + e) - e) in
  shr_m (fst (shr_fexp prec emax m e l)) = m / 2 ^ k /\
  snd (shr_fexp prec emax m e l) = e + k /\
  inexact (fst (shr_fexp prec emax m e l)) =
    (negb (m mod 2 ^ k =? 0)
     || match l with loc_Exact => false | _ => true end).
Proof.
  intros Hm k. unfold shr_fexp.
  pose proof (shr_spec (shr_record_of_loc m l) e
    (fexp prec emax (Zdigits2 m + e) - e)) as H.
  rewrite shr_record_of_loc_m, shr_record_of_loc_inexact in H.
  apply H. exact Hm.
Qed.

Lemma round_nearest_even_range (m : Z) (l : location) :
  m <= round_nearest_even m l <= m + 1 /\
  (l = loc_Exact -> round_nearest_even m l = m).
Proof.
  destruct l as [|[]]; simpl; try destruct (Z.even m); split;
    try reflexivity; try lia; discriminate.
Qed.

Lemma binary_round_aux_not_nan (sx : bool) (mx ex : Z) (lx : location) :
  0 <= mx ->
  Double.is_nan (binary_round_aux prec emax sx mx ex lx) = false.
Proof.
  intros Hm. unfold binary_round_aux.
  destruct (shr_fexp prec emax mx ex lx) as [mrs1 e1] eqn:E1.
  pose proof (shr_fexp_spec mx ex lx Hm) as (Hm1 & _ & _).
  rewrite E1 in Hm1. cbn [fst] in Hm1.
  set (m2 := round_nearest_even (shr_m mrs1) (loc_of_shr_record mrs1)).
  assert (H2 : 0 <= m2).
  { pose proof (round_nearest_even_range (shr_m mrs1)
      (loc_of_shr_record mrs1)) as [? _].
    assert (0 <= shr_m mrs1).
    { rewrite Hm1. apply Z.div_pos; [lia|]. apply Z.pow_pos_nonneg; lia. }
    unfold m2. lia. }
  destruct (shr_fexp prec emax m2 e1 loc_Exact) as [mrs2 e2] eqn:E2.
  pose proof (shr_fexp_spec m2 e1 loc_Exact H2) as (Hm2 & _ & _).
  rewrite E2 in Hm2. cbn [fst] in Hm2.
  assert (0 <= shr_m mrs2).
  { rewrite Hm2. apply Z.div_pos; [lia|]. apply Z.pow_pos_nonneg; lia. }
  destruct (shr_m mrs2); try reflexivity; [|lia].
  destruct (_ <=? _); reflexivity.
Qed.
End RoundingFacts.

Lemma binary_normalize_not_nan (prec emax m e : Z) (sz : bool) :
  Double.is_nan (binary_normalize prec emax m e sz) = false.
Proof.
  destruct m as [|p|p]; simpl; try reflexivity; unfold binary_round;
    destruct (shl_align _ _ _) as [mz ez];
    apply binary_round_aux_not_nan; lia.
Qed.

Lemma div_ROUND_TO_not_nan (x : double) :
  Double.is_nan x = false -> Double.is_nan (Double.div x ROUND_TO) = false.
Proof.
  destruct x as [s|s| |s m e]; try discriminate; intros _; try reflexivity.
  unfold Double.div, ROUND_TO, SFdiv.
  destruct (SFdiv_core_binary _ _ _ _ _ _) as [[mz ez] lz] eqn:E.
  apply binary_round_aux_not_nan.
  unfold SFdiv_core_binary in E.
  match type of E with
  | (let '(q, r) := Z.div_eucl ?a ?b in _) = _ =>
      pose proof (Z_div_mod a b eq_refl) as Hd;
      assert (Ha : 0 <= a); [|destruct (Z.div_eucl a b) as [q r]]
  end.
  { destruct (_ - _ - _) as [|p|p]; try lia.
    rewrite Z.shiftl_mul_pow2 by lia.
    apply Z.mul_nonneg_nonneg; [lia | apply Z.pow_nonneg; lia]. }
  inversion E; subst. nia.
Qed.

Lemma round_not_nan (x : double) :
  Double.is_nan x = false -> Double.is_nan (Double.round x) = false.
Proof.
  destruct x as [s|s| |s m e]; try discriminate; intros _; try reflexivity.
  unfold Double.round. destruct (0 <=? e); [reflexivity|].
  destruct (_ / _); try reflexivity; apply binary_normalize_not_nan.
Qed.

Lemma mul_ROUND_TO_not_nan (x : double) :
  Double.is_nan x = false -> Double.is_nan (Double.mul x ROUND_TO) = false.
Proof.
  destruct x as [s|s| |s m e]; try discriminate; intros _; try reflexivity.
  unfold Double.mul, ROUND_TO, SFmul.
  apply binary_round_aux_not_nan. lia.
Qed.

(** The rounded brightness of a brightness that is a number is a number. *)
Lemma rounded_not_nan (x : double) :
  Double.is_nan x = false -> Double.is_nan (rounded x) = false.
Proof.
  intros H. unfold rounded.
  apply mul_ROUND_TO_not_nan, round_not_nan, div_ROUND_TO_not_nan, H.
Qed.

(** ** The comparator *)

(** How the comparator decides, over the integers: by the rank of the
    rounded brightness, then by the index. *)
Lemma FrameBrightnessSort_rank (a b : FrameData) :
  FrameBrightnessSort a b = true <->
  Double.is_nan (rounded (mBrightness a)) = false /\
  Double.is_nan (rounded (mBrightness b)) = false /\
  (lex3 (rank (rounded (mBrightness a))) (rank (rounded (mBrightness b))) = Lt
   \/ (rank (rounded (mBrightness a)) = rank (rounded (mBrightness b)) /\
       mIndex a < mIndex b)).
Proof.
  unfold FrameBrightnessSort, Double.neb.
  set (ra := rounded (mBrightness a)). set (rb := rounded (mBrightness b)).
  fold (Double.eqb ra rb).
  destruct (Double.eqb ra rb) eqn:E; simpl.
  - apply eqb_rank in E. destruct E as (Ha & Hb & Hr).
    rewrite Z.ltb_lt. split.
    + intros H. auto.
    + intros (_ & _ & [H|[_ H]]); [|exact H].
      rewrite Hr in H. destruct (rank rb) as [[r1 r2] r3].
      apply lex3_Lt in H. lia.
  - rewrite ltb_rank. split.
    + intros (Ha & Hb & H). auto.
    + intros (Ha & Hb & [H|[H _]]); [auto|].
      assert (Double.eqb ra rb = true) by (apply eqb_rank; auto).
      congruence.
Qed.

Lemma FrameBrightnessSort_irrefl (a : FrameData) :
  FrameBrightnessSort a a = false.
Proof.
  destruct (FrameBrightnessSort a a) eqn:E; [|reflexivity].
  apply FrameBrightnessSort_rank in E. destruct E as (_ & _ & H).
  destruct (rank (rounded (mBrightness a))) as [[r1 r2] r3].
  rewrite lex3_Lt in H. lia.
Qed.

Lemma FrameBrightnessSort_asym (a b : FrameData) :
  FrameBrightnessSort a b = true -> FrameBrightnessSort b a = false.
Proof.
  intros H. destruct (FrameBrightnessSort b a) eqn:E; [|reflexivity].
  apply FrameBrightnessSort_rank in H, E.
  destruct H as (_ & _ & H), E as (_ & _ & E).
  destruct (rank (rounded (mBrightness a))) as [[a1 a2] a3].
  destruct (rank (rounded (mBrightness b))) as [[b1 b2] b3].
  rewrite lex3_Lt in H, E.
  destruct H as [H|[H ?]], E as [E|[E ?]];
    try (injection H as -> -> ->); try (injection E as -> -> ->); lia.
Qed.

Lemma FrameBrightnessSort_trans (a b c : FrameData) :
  FrameBrightnessSort a b = true -> FrameBrightnessSort b c = true ->
  FrameBrightnessSort a c = true.
Proof.
  intros H1 H2. apply FrameBrightnessSort_rank in H1, H2.
  apply FrameBrightnessSort_rank.
  destruct H1 as (Ha & Hb & H1), H2 as (_ & Hc & H2).
  repeat split; auto.
  destruct (rank (rounded (mBrightness a))) as [[a1 a2] a3].
  destruct (rank (rounded (mBrightness b))) as [[b1 b2] b3].
  destruct (rank (rounded (mBrightness c))) as [[c1 c2] c3].
  rewrite lex3_Lt in *.
  destruct H1 as [H1|[H1 I1]], H2 as [H2|[H2 I2]];
    try (injection H1 as -> -> ->); try (injection H2 as -> -> ->).
  - left. lia.
  - left. lia.
  - left. lia.
  - right. split; [reflexivity|lia].
Qed.

Lemma FrameBrightnessSort_total (a b : FrameData) :
  not_nan a -> not_nan b -> mIndex a <> mIndex b ->
  FrameBrightnessSort a b = true \/ FrameBrightnessSort b a = true.
Proof.
  intros Ha Hb Hi.
  apply rounded_not_nan in Ha, Hb.
  rewrite !FrameBrightnessSort_rank.
  destruct (rank (rounded (mBrightness a))) as [[a1 a2] a3] eqn:Ea.
  destruct (rank (rounded (mBrightness b))) as [[b1 b2] b3] eqn:Eb.
  rewrite !lex3_Lt.
  assert (C : (a1, a2, a3) = (b1, b2, b3) \/
              (a1 < b1 \/ a1 = b1 /\ (a2 < b2 \/ a2 = b2 /\ a3 < b3)) \/
              (b1 < a1 \/ b1 = a1 /\ (b2 < a2 \/ b2 = a2 /\ b3 < a3))).
  { destruct (Z.lt_total a1 b1) as [?|[?|?]]; [lia| |lia].
    destruct (Z.lt_total a2 b2) as [?|[?|?]]; [lia| |lia].
    destruct (Z.lt_total a3 b3) as [?|[?|?]]; [lia| |lia].
    left. congruence. }
  destruct C as [C|[C|C]].
  - destruct (Z.lt_total (mIndex a) (mIndex b)) as [?|[?|?]]; [|lia|].
    + left. auto.
    + right. auto.
  - left. auto.
  - right. auto.
Qed.

(** ** Sorting by insertion *)

Section SortFacts.
Context {A : Type}.
Variable comp : A -> A -> bool.

Lemma insert_sorted_perm (x : A) (l : list A) :
  Permutation (x :: l) (insert_sorted comp x l).
Proof.
  induction l as [|y l IH]; simpl.
  - apply Permutation_refl.
  - destruct (comp x y).
    + apply Permutation_refl.
    + eapply perm_trans; [apply perm_swap|]. apply perm_skip, IH.
Qed.

Lemma std_sort_perm (l : list A) : Permutation l (std_sort comp l).
Proof.
  induction l as [|x l IH]; simpl.
  - apply perm_nil.
  - eapply perm_trans; [apply perm_skip, IH|]. apply insert_sorted_perm.
Qed.

Hypothesis comp_asym : forall a b, comp a b = true -> comp b a = false.

Lemma insert_sorted_HdRel (x y : A) (l : list A) :
  comp x y = false -> HdRel (not_after comp) y l ->
  HdRel (not_after comp) y (insert_sorted comp x l).
Proof.
  intros Hxy H. destruct l as [|z l]; simpl.
  - constructor. exact Hxy.
  - destruct (comp x z); constructor.
    + exact Hxy.
    + inversion H; assumption.
Qed.

Lemma insert_sorted_Sorted (x : A) (l : list A) :
  Sorted (not_after comp) l -> Sorted (not_after comp) (insert_sorted comp x l).
Proof.
  induction l as [|y l IH]; simpl; intros H.
  - repeat constructor.
  - destruct (comp x y) eqn:E.
    + constructor; [exact H|]. constructor. apply comp_asym, E.
    + inversion H; subst. constructor; [apply IH; assumption|].
      apply insert_sorted_HdRel; assumption.
Qed.

Lemma std_sort_Sorted (l : list A) : Sorted (not_after comp) (std_sort comp l).
Proof.
  induction l as [|x l IH]; simpl.
  - constructor.
  - apply insert_sorted_Sorted, IH.
Qed.

Hypothesis comp_trans :
  forall a b c, comp a b = true -> comp b c = true -> comp a c = true.

(** Where any two elements at different places are comparable, a
    sequence without inversions between neighbours is increasing
    throughout. *)
Lemma Sorted_before (l : list A) :
  ForallOrdPairs (fun a b => comp a b = true \/ comp b a = true) l ->
  Sorted (not_after comp) l -> StronglySorted (before comp) l.
Proof.
  induction l as [|a l IH]; intros Ht Hs.
  - constructor.
  - inversion Ht as [|? ? Ha Ht']; subst. inversion Hs as [|? ? Hs' Hd]; subst.
    specialize (IH Ht' Hs'). constructor; [exact IH|].
    destruct l as [|b l]; [constructor|].
    inversion Hd as [|? ? Hab]; subst.
    assert (Bab : before comp a b).
    { inversion Ha as [|? ? Hab' _]; subst.
      destruct Hab' as [H|H]; [exact H|].
      unfold not_after in Hab. congruence. }
    constructor; [exact Bab|].
    inversion IH as [|? ? _ Hb]; subst.
    eapply Forall_impl; [|exact Hb].
    intros c Hbc. eapply comp_trans; eassumption.
Qed.


(** Two increasing arrangements of the same elements are equal. *)
Lemma StronglySorted_unique (l1 l2 : list A) :
  Permutation l1 l2 ->
  StronglySorted (before comp) l1 -> StronglySorted (before comp) l2 ->
  l1 = l2.
Proof.
  revert l2. induction l1 as [|a l1 IH]; intros l2 Hp H1 H2.
  - apply Permutation_nil in Hp. congruence.
  - destruct l2 as [|b l2].
    { apply Permutation_sym, Permutation_nil in Hp. discriminate. }
    inversion H1 as [|? ? H1' Fa]; subst.
    inversion H2 as [|? ? H2' Fb]; subst.
    rewrite Forall_forall in Fa, Fb.
    assert (E : a = b).
    { assert (Ia : In a (b :: l2))
        by (eapply Permutation_in; [exact Hp|left; reflexivity]).
      assert (Ib : In b (a :: l1))
        by (eapply Permutation_in;
            [apply Permutation_sym, Hp|left; reflexivity]).
      destruct Ia as [Ia|Ia]; [congruence|].
      destruct Ib as [Ib|Ib]; [congruence|].
      pose proof (comp_asym _ _ (Fa _ Ib)) as N.
      pose proof (Fb _ Ia) as P. unfold before in P. congruence. }
    subst b. f_equal. apply IH; auto.
    eapply Permutation_cons_inv, Hp.
Qed.
End SortFacts.

Lemma NoDup_map_ForallOrdPairs {A B} (f : A -> B) (l : list A) :
  NoDup (map f l) -> ForallOrdPairs (fun a b => f a <> f b) l.
Proof.
  induction l as [|a l IH]; simpl; intros H.
  - constructor.
  - inversion H as [|? ? Hn Hd]; subst. constructor; [|apply IH, Hd].
    apply Forall_forall. intros b Hb E. apply Hn. rewrite E.
    apply in_map, Hb.
Qed.

(** On a table of numbers with distinct indices any two records are
    comparable. *)
Lemma table_comparable (t : list FrameData) :
  Forall not_nan t -> NoDup (map mIndex t) ->
  ForallOrdPairs
    (fun a b => FrameBrightnessSort a b = true \/
                FrameBrightnessSort b a = true) t.
Proof.
  intros Hn Hd. apply NoDup_map_ForallOrdPairs in Hd.
  induction Hd as [|a l Ha Hd IH]; [constructor|].
  inversion Hn as [|? ? Na Nl]; subst. constructor; [|apply IH, Nl].
  rewrite Forall_forall in *. intros b Hb.
  apply FrameBrightnessSort_total; auto.
Qed.

Lemma sorted_table_increasing (t : list FrameData) :
  Forall not_nan t -> NoDup (map mIndex t) ->
  Sorted (not_after FrameBrightnessSort) t ->
  StronglySorted (before FrameBrightnessSort) t.
Proof.
  intros Hn Hd Hs. apply Sorted_before; auto.
  - exact FrameBrightnessSort_trans.
  - apply table_comparable; assumption.
Qed.

(** Every sorted arrangement of a table of numbers with distinct indices
    is the same sequence: [std::sort] need not be stable, and how it sorts
    does not show. *)
Lemma sorted_table_unique (t1 t2 : list FrameData) :
  Forall not_nan t1 -> NoDup (map mIndex t1) -> Permutation t1 t2 ->
  Sorted (not_after FrameBrightnessSort) t1 ->
  Sorted (not_after FrameBrightnessSort) t2 ->
  t1 = t2.
Proof.
  intros Hn Hd Hp H1 H2.
  apply (StronglySorted_unique FrameBrightnessSort); auto.
  - exact FrameBrightnessSort_asym.
  - apply sorted_table_increasing; auto.
  - apply sorted_table_increasing; auto.
    + eapply Permutation_Forall; eassumption.
    + eapply Permutation_NoDup; [apply Permutation_map, Hp|exact Hd].
Qed.

Lemma ROUND_TO_epsilon : ROUND_TO = epsilon.
Proof. vm_compute. reflexivity. Qed.

Lemma rounded_bucket (x : double) : rounded x = bucket x.
Proof. unfold rounded, bucket. rewrite ROUND_TO_epsilon. reflexivity. Qed.


(** ** The claims about the comparator and the sort *)

Lemma FrameBrightnessSort_precedes (a b : FrameData) :
  FrameBrightnessSort a b = true <-> precedes a b.
Proof.
  unfold precedes. rewrite <- !rounded_bucket.
  rewrite FrameBrightnessSort_rank, ltb_rank, eqb_rank. tauto.
Qed.

(** C2.  [FrameBrightnessSort a b] holds exactly when the bucket of [a]
    (its brightness divided by 0.01, rounded, times 0.01, all in double
    arithmetic) is less than the bucket of [b], or the two buckets are equal
    and the index of [a] is less than the index of [b]; two pairs of
    records with the same buckets and the same indices compare alike. *)
Theorem FrameBrightnessSort_spec :
  (forall a b : FrameData, FrameBrightnessSort a b = true <-> precedes a b) /\
  (forall a b a' b' : FrameData,
     bucket (mBrightness a) = bucket (mBrightness a') ->
     bucket (mBrightness b) = bucket (mBrightness b') ->
     mIndex a = mIndex a' -> mIndex b = mIndex b' ->
     FrameBrightnessSort a b = FrameBrightnessSort a' b').
Proof.
  split.
  - exact FrameBrightnessSort_precedes.
  - intros a b a' b' Ha Hb Ia Ib. rewrite <- !rounded_bucket in Ha, Hb.
    unfold FrameBrightnessSort. rewrite Ha, Hb, Ia, Ib. reflexivity.
Qed.

(** Two records of the bucket 0.50 against two others of the same bucket
    and indices. *)
Lemma FrameBrightnessSort_spec_witness :
  FrameBrightnessSort
    (mkFrameData 0 (Double.div (Double.of_int 501) (Double.of_int 1000)))
    (mkFrameData 3 (Double.div (Double.of_int 498) (Double.of_int 1000))) =
  FrameBrightnessSort
    (mkFrameData 0 (Double.div (Double.of_int 1) (Double.of_int 2)))
    (mkFrameData 3 (Double.div (Double.of_int 503) (Double.of_int 1000))).
Proof.
  apply (proj2 FrameBrightnessSort_spec); vm_compute; reflexivity.
Defined.

(** C10, as the program has it.  [FrameBrightnessSort] is irreflexive,
    asymmetric and transitive on all records; of two records whose
    brightness is not a NaN and whose indices differ exactly one precedes
    the other; hence two sorted arrangements of the same table of such
    records are the same sequence. *)
Theorem FrameBrightnessSort_strict_total_order :
  (forall a, FrameBrightnessSort a a = false) /\
  (forall a b,
     FrameBrightnessSort a b = true -> FrameBrightnessSort b a = false) /\
  (forall a b c,
     FrameBrightnessSort a b = true -> FrameBrightnessSort b c = true ->
     FrameBrightnessSort a c = true) /\
  (forall a b,
     not_nan a -> not_nan b -> mIndex a <> mIndex b ->
     (FrameBrightnessSort a b = true /\ FrameBrightnessSort b a = false) \/
     (FrameBrightnessSort a b = false /\ FrameBrightnessSort b a = true)) /\
  (forall t1 t2,
     Forall not_nan t1 -> NoDup (map mIndex t1) -> Permutation t1 t2 ->
     Sorted (not_after FrameBrightnessSort) t1 ->
     Sorted (not_after FrameBrightnessSort) t2 ->
     t1 = t2).
Proof.
  split; [exact FrameBrightnessSort_irrefl|].
  split; [exact FrameBrightnessSort_asym|].
  split; [exact FrameBrightnessSort_trans|].
  split; [|exact sorted_table_unique].
  intros a b Ha Hb Hi.
  destruct (FrameBrightnessSort_total a b Ha Hb Hi) as [H|H].
  - left. split; [exact H|]. apply FrameBrightnessSort_asym, H.
  - right. split; [|exact H]. apply FrameBrightnessSort_asym, H.
Qed.

Lemma sample_table_not_nan : Forall not_nan sample_table.
Proof. repeat constructor. Qed.

Lemma sample_table_NoDup : NoDup (map mIndex sample_table).
Proof. repeat constructor; simpl; intuition discriminate. Qed.

Lemma FrameBrightnessSort_strict_total_order_witness :
  let a := mkFrameData 2 (decimal 48 100) in
  let b := mkFrameData 0 (decimal 49 100) in
  let c := mkFrameData 1 (decimal 51 100) in
  FrameBrightnessSort b a = false /\
  FrameBrightnessSort a c = true /\
  ((FrameBrightnessSort a b = true /\ FrameBrightnessSort b a = false) \/
   (FrameBrightnessSort a b = false /\ FrameBrightnessSort b a = true)) /\
  std_sort FrameBrightnessSort sample_table =
  std_sort FrameBrightnessSort (List.rev sample_table).
Proof.
  intros a b c.
  destruct FrameBrightnessSort_strict_total_order
    as (_ & Hasym & Htrans & Htotal & Hunique).
  split; [|split; [|split]].
  - apply Hasym. vm_compute. reflexivity.
  - apply (Htrans a b c); vm_compute; reflexivity.
  - apply Htotal; [reflexivity|reflexivity|discriminate].
  - apply Hunique.
    + eapply Permutation_Forall;
        [apply std_sort_perm|exact sample_table_not_nan].
    + eapply Permutation_NoDup;
        [apply Permutation_map, std_sort_perm|exact sample_table_NoDup].
    + eapply perm_trans; [apply Permutation_sym, std_sort_perm|].
      eapply perm_trans; [apply Permutation_rev|]. apply std_sort_perm.
    + apply std_sort_Sorted, FrameBrightnessSort_asym.
    + apply std_sort_Sorted, FrameBrightnessSort_asym.
Defined.

(** Not total on every table the program builds: for a movie whose first
    frame has no pixels pass 1 stores a NaN record, the comparator puts
    neither it nor the record of the next frame first, although their
    indices differ, and both arrangements of the two are without
    inversion. *)
Lemma FrameBrightnessSort_nan_incomparable :
  let a := mkFrameData 0 Double.nan in
  let b := mkFrameData 1 Double.zero in
  mFrameData
    (snd (processAllFrames START_FRAME
            (with_mMovie (mkMovie empty_first_movie 0)
               (setup None None None)))) = [a; b] /\
  mIndex a <> mIndex b /\
  FrameBrightnessSort a b = false /\ FrameBrightnessSort b a = false /\
  Permutation [a; b] [b; a] /\
  Sorted (not_after FrameBrightnessSort) [a; b] /\
  Sorted (not_after FrameBrightnessSort) [b; a] /\
  [a; b] <> [b; a].
Proof.
  intros a b.
  split; [vm_compute; reflexivity|]. split; [discriminate|].
  split; [reflexivity|]. split; [reflexivity|].
  split; [apply perm_swap|].
  split; [|split].
  - repeat constructor.
  - repeat constructor.
  - discriminate.
Qed.









(** ** Pass 1 *)

Lemma same_surroundings_refl (a : LuminOrderApp) : same_surroundings a a.
Proof. repeat split. Qed.

Lemma same_surroundings_trans (a b c : LuminOrderApp) :
  same_surroundings a b -> same_surroundings b c -> same_surroundings a c.
Proof.
  unfold same_surroundings. intros (?&?&?&?&?&?) (?&?&?&?&?&?).
  repeat split; congruence.
Qed.

Lemma processNextFrame_ok (a : LuminOrderApp) (s : Surface8u) :
  frameAt (mMovie a) (moviePosition (mMovie a)) = Some s ->
  exists b a',
    processNextFrame a = (inr b, a') /\
    mFrameData a' = mFrameData a ++ [mkFrameData (mFrameIndex a)
                                       (surface_brightness s)] /\
    mFrameIndex a' = mFrameIndex a + 1 /\
    moviePosition (mMovie a') = moviePosition (mMovie a) + 1 /\
    same_surroundings a a'.
Proof.
  intros H. unfold processNextFrame, movie_getSurface, bind, gets.
  rewrite H. simpl. do 2 eexists. split; [reflexivity|].
  simpl. repeat split.
Qed.

Lemma processNextFrame_fail (a : LuminOrderApp) :
  frameAt (mMovie a) (moviePosition (mMovie a)) = None ->
  processNextFrame a = (inl (DecodeFailed (moviePosition (mMovie a))), a).
Proof.
  intros H. unfold processNextFrame, movie_getSurface, bind, gets.
  rewrite H. reflexivity.
Qed.

Lemma frameAt_frames (m m' : MovieSurface) (i : Z) :
  movieFrames m' = movieFrames m -> frameAt m' i = frameAt m i.
Proof. unfold frameAt. intros ->. reflexivity. Qed.

Lemma analysed_S (m : MovieSurface) (pos index : Z) (n : nat) :
  analysed m pos index (S n) =
  mkFrameData index (brightness_at m pos) ::
  analysed m (pos + 1) (index + 1) n.
Proof.
  unfold analysed. simpl. rewrite !Z.add_0_r. f_equal.
  rewrite <- seq_shift, map_map. apply map_ext. intros j.
  rewrite Nat2Z.inj_succ.
  replace (index + 1 + Z.of_nat j) with (index + Z.succ (Z.of_nat j)) by lia.
  replace (pos + 1 + Z.of_nat j) with (pos + Z.succ (Z.of_nat j)) by lia.
  reflexivity.
Qed.

Lemma analysed_frames (m m' : MovieSurface) (pos index : Z) (n : nat) :
  movieFrames m' = movieFrames m ->
  analysed m' pos index n = analysed m pos index n.
Proof.
  intros H. unfold analysed, brightness_at. apply map_ext. intros j.
  rewrite (frameAt_frames m m') by exact H. reflexivity.
Qed.

(** The loop of [processAllFrames]: it appends one record per frame until
    the count is reached or a frame cannot be decoded. *)
Lemma pass1_loop (n : nat) :
  forall (i : Z) (a : LuminOrderApp),
  exists (k : nat) (r : exn + unit) (a' : LuminOrderApp),
    for_loop n i (fun _ => bind processNextFrame (fun _ => ret tt)) a
      = (r, a') /\
    mFrameData a' =
      mFrameData a ++
      analysed (mMovie a) (moviePosition (mMovie a)) (mFrameIndex a) k /\
    (forall j : nat, (j < k)%nat ->
       frameAt (mMovie a) (moviePosition (mMovie a) + Z.of_nat j) <> None) /\
    same_surroundings a a' /\
    ((r = inr tt /\ k = n) \/
     (r = inl (DecodeFailed (moviePosition (mMovie a) + Z.of_nat k)) /\
      (k < n)%nat /\
      frameAt (mMovie a) (moviePosition (mMovie a) + Z.of_nat k) = None)).
Proof.
  induction n as [|n IH]; intros i a.
  - exists O, (inr tt), a. simpl. rewrite app_nil_r.
    repeat split; auto. intros j Hj. lia.
  - simpl for_loop.
    destruct (frameAt (mMovie a) (moviePosition (mMovie a))) as [s|] eqn:F.
    + destruct (processNextFrame_ok a s F)
        as (b & a1 & E1 & D1 & I1 & P1 & S1).
      destruct (IH (i + 1) a1) as (k & r & a' & E & D & Fk & S2 & R).
      exists (S k), r, a'.
      assert (Hf : movieFrames (mMovie a1) = movieFrames (mMovie a))
        by apply S1.
      split; [|split; [|split; [|split]]].
      * unfold bind at 1. unfold bind at 1. rewrite E1. unfold ret at 1.
        exact E.
      * rewrite D, D1, <- app_assoc. f_equal. rewrite analysed_S.
        simpl. unfold brightness_at. rewrite F. f_equal.
        rewrite P1, I1. apply analysed_frames, Hf.
      * intros j Hj. destruct j as [|j].
        -- simpl. rewrite Z.add_0_r, F. discriminate.
        -- specialize (Fk j ltac:(lia)).
           rewrite (frameAt_frames _ _ _ Hf), P1 in Fk.
           replace (moviePosition (mMovie a) + Z.of_nat (S j))
             with (moviePosition (mMovie a) + 1 + Z.of_nat j) by lia.
           exact Fk.
      * eapply same_surroundings_trans; eassumption.
      * rewrite (frameAt_frames _ _ _ Hf), P1 in R.
        replace (moviePosition (mMovie a) + Z.of_nat (S k))
          with (moviePosition (mMovie a) + 1 + Z.of_nat k) by lia.
        destruct R as [[-> ->]|(-> & Hk & Hn)]; [left; auto|right].
        repeat split; auto. lia.
    + exists O, (inl (DecodeFailed (moviePosition (mMovie a)))), a.
      split; [|split; [|split; [|split]]].
      * unfold bind at 1. unfold bind at 1.
        rewrite (processNextFrame_fail a F). reflexivity.
      * simpl. rewrite app_nil_r. reflexivity.
      * intros j Hj. lia.
      * apply same_surroundings_refl.
      * right. simpl. rewrite Z.add_0_r. repeat split; auto. lia.
Qed.

Lemma processAllFrames_spec (start_frame : Z) (a : LuminOrderApp) :
  exists (k : nat) (r : exn + unit) (a' : LuminOrderApp),
    processAllFrames start_frame a = (r, a') /\
    mFrameData a' =
      mFrameData a ++ analysed (mMovie a) start_frame start_frame k /\
    (forall j : nat, (j < k)%nat ->
       frameAt (mMovie a) (start_frame + Z.of_nat j) <> None) /\
    same_surroundings a a' /\
    ((r = inr tt /\
      k = Z.to_nat (getNumFrames (mMovie a) - start_frame)) \/
     (r = inl (DecodeFailed (start_frame + Z.of_nat k)) /\
      (k < Z.to_nat (getNumFrames (mMovie a) - start_frame))%nat /\
      frameAt (mMovie a) (start_frame + Z.of_nat k) = None)).
Proof.
  set (a0 := with_mFrameIndex start_frame
               (with_mMovie (mkMovie (movieFrames (mMovie a)) start_frame) a)).
  destruct (pass1_loop (Z.to_nat (getNumFrames (mMovie a) - start_frame)) 0 a0)
    as (k & r & a' & E & D & Fk & S0 & R).
  exists k, r, a'. split; [exact E|].
  assert (Hf : movieFrames (mMovie a0) = movieFrames (mMovie a))
    by reflexivity.
  change (moviePosition (mMovie a0)) with start_frame in *.
  change (mFrameIndex a0) with start_frame in *.
  change (mFrameData a0) with (mFrameData a) in *.
  rewrite (analysed_frames (mMovie a) (mMovie a0) start_frame start_frame k Hf)
    in D.
  split; [exact D|]. split.
  - intros j Hj. rewrite <- (frameAt_frames (mMovie a) (mMovie a0) _ Hf).
    apply Fk, Hj.
  - split.
    + eapply same_surroundings_trans; [|exact S0]. repeat split.
    + rewrite (frameAt_frames (mMovie a) (mMovie a0) _ Hf) in R. exact R.
Qed.

Lemma analysed_length (m : MovieSurface) (pos index : Z) (n : nat) :
  List.length (analysed m pos index n) = n.
Proof. unfold analysed. rewrite length_map, length_seq. reflexivity. Qed.

Lemma analysed_nth (m : MovieSurface) (pos index : Z) (n k : nat)
    (r : FrameData) :
  nth_error (analysed m pos index n) k = Some r ->
  mIndex r = index + Z.of_nat k.
Proof.
  unfold analysed. intros H.
  rewrite nth_error_map in H.
  destruct (nth_error (seq 0 n) k) as [j|] eqn:E; [|discriminate].
  assert (Hk : (k < List.length (seq 0 n))%nat)
    by (apply nth_error_Some; congruence).
  rewrite length_seq in Hk.
  rewrite (nth_error_nth' _ O) in E by (rewrite length_seq; exact Hk).
  rewrite seq_nth in E by exact Hk. inversion E; subst j.
  simpl in H. inversion H; subst r. reflexivity.
Qed.

Lemma analysed_indices (m : MovieSurface) (pos index : Z) (n : nat) :
  map mIndex (analysed m pos index n) =
  map (fun j => index + Z.of_nat j) (seq 0 n).
Proof. unfold analysed. rewrite map_map. reflexivity. Qed.

(** C5, as the program has it.  When [processAllFrames] returns normally
    on a movie of [N] frames, with [0 <= START_FRAME <= N], the table is
    the table from before followed by [N - START_FRAME] new records, and
    the new record at position [k] has the index [START_FRAME + k].  Started
    with an empty table, the table has [N - START_FRAME] records and the
    record at position [k] has the index [START_FRAME + k]. *)
Theorem processAllFrames_table (start_frame : Z) (a : LuminOrderApp) :
  0 <= start_frame <= getNumFrames (mMovie a) ->
  fst (processAllFrames start_frame a) = inr tt ->
  (exists new : list FrameData,
     mFrameData (snd (processAllFrames start_frame a)) = mFrameData a ++ new /\
     Z.of_nat (List.length new) = getNumFrames (mMovie a) - start_frame /\
     (forall (k : nat) (r : FrameData),
        nth_error new k = Some r -> mIndex r = start_frame + Z.of_nat k)) /\
  (mFrameData a = [] ->
   Z.of_nat (List.length (mFrameData (snd (processAllFrames start_frame a)))) =
     getNumFrames (mMovie a) - start_frame /\
   (forall (k : nat) (r : FrameData),
      nth_error (mFrameData (snd (processAllFrames start_frame a))) k = Some r ->
      mIndex r = start_frame + Z.of_nat k)).
Proof.
  intros Hs Hr.
  destruct (processAllFrames_spec start_frame a)
    as (k & r & a' & E & D & _ & _ & R).
  rewrite E in *. cbn [fst snd] in *. subst r.
  destruct R as [[_ ->]|(R & _)]; [|discriminate].
  rewrite D. split.
  - eexists. split; [reflexivity|]. split.
    + rewrite analysed_length. lia.
    + intros j r. apply analysed_nth.
  - intros ->. cbn [app]. split.
    + rewrite analysed_length. lia.
    + intros j r. apply analysed_nth.
Qed.

(** Pass 1 completes exactly when every frame from [START_FRAME] on can
    be decoded. *)
Lemma processAllFrames_completes (start_frame : Z) (a : LuminOrderApp) :
  0 <= start_frame ->
  (fst (processAllFrames start_frame a) = inr tt <->
   forall i, start_frame <= i < getNumFrames (mMovie a) ->
             frameAt (mMovie a) i <> None).
Proof.
  intros Hs.
  destruct (processAllFrames_spec start_frame a)
    as (k & r & a' & E & _ & Fk & _ & R).
  rewrite E. cbn [fst]. split.
  - intros ->. destruct R as [[_ ->]|(R & _)]; [|discriminate].
    intros i Hi. specialize (Fk (Z.to_nat (i - start_frame)) ltac:(lia)).
    replace (start_frame + Z.of_nat (Z.to_nat (i - start_frame))) with i
      in Fk by lia.
    exact Fk.
  - intros H. destruct R as [[-> _]|(_ & Hk & Hn)]; [reflexivity|].
    exfalso. apply (H (start_frame + Z.of_nat k)); [lia|exact Hn].
Qed.

(** The second pass 1 over the sample movie, with [START_FRAME] at 1: two
    records, of the frames 1 and 2, follow the three of the first run. *)
Lemma processAllFrames_table_witness :
  exists new : list FrameData,
    mFrameData (snd (processAllFrames 1 reopened)) =
      mFrameData reopened ++ new /\
    Z.of_nat (List.length new) = getNumFrames (mMovie reopened) - 1 /\
    map mIndex new = [1; 2].
Proof.
  destruct (processAllFrames_table 1 reopened) as [(new & D & L & I) _].
  - vm_compute. split; discriminate.
  - vm_compute. reflexivity.
  - exists new. split; [exact D|]. split; [exact L|].
    destruct new as [|r1 [|r2 [|r3 new]]]; try discriminate L.
    + cbn [map]. rewrite (I 0%nat r1 eq_refl), (I 1%nat r2 eq_refl).
      reflexivity.
    + exfalso. cbn [List.length] in L.
      change (getNumFrames (mMovie reopened)) with 3 in L. lia.
Defined.

(** Not [N - START_FRAME] records after every pass 1: the pass of a second
    run on the sample movie completes with six records in the table, the
    three of the first run, in their sorted order, and three new ones. *)
Lemma processAllFrames_second_pass :
  fst (processAllFrames START_FRAME reopened) = inr tt /\
  getNumFrames (mMovie reopened) = 3 /\
  map mIndex (mFrameData (snd (processAllFrames START_FRAME reopened))) =
    [0; 2; 1; 0; 1; 2] /\
  Z.of_nat (List.length
              (mFrameData (snd (processAllFrames START_FRAME reopened)))) <>
    getNumFrames (mMovie reopened) - START_FRAME.
Proof.
  split; [vm_compute; reflexivity|]. split; [reflexivity|].
  split; [vm_compute; reflexivity|]. vm_compute. discriminate.
Qed.

(** ** Sorting and pass 2 *)

Lemma sortMovie_eq (a : LuminOrderApp) :
  sortMovie a =
  (inr tt,
   with_offsets_txt
     (Some (print_table (std_sort FrameBrightnessSort (mFrameData a))))
     (with_mFrameIndex 0
        (with_mSorted true
           (with_mFrameData (std_sort FrameBrightnessSort (mFrameData a))
              a)))).
Proof. reflexivity. Qed.

(** The loop of [saveMovie] on records that can all be fetched. *)
Lemma pass2_loop (t : list FrameData) :
  forall (a : LuminOrderApp) (written : list Surface8u),
    output_mov a = Some written ->
    (forall r, In r t -> frameAt (mMovie a) (mIndex r) <> None) ->
    exists a',
      for_each t (fun r =>
        bind (movie_seekToFrame (mIndex r)) (fun _ =>
        bind movie_getSurface (fun surface =>
        bind (modify (with_mFrameSurface (Some surface))) (fun _ =>
        writer_addFrame surface)))) a = (inr tt, a') /\
      output_mov a' = Some (written ++ fetched (mMovie a) t) /\
      movieFrames (mMovie a') = movieFrames (mMovie a) /\
      mFrameData a' = mFrameData a /\ mSorted a' = mSorted a /\
      mSaved a' = mSaved a /\ offsets_txt a' = offsets_txt a /\
      movie_file a' = movie_file a.
Proof.
  induction t as [|r t IH]; intros a written Ho Hf.
  - exists a. simpl. rewrite app_nil_r. repeat split; auto.
  - destruct (frameAt (mMovie a) (mIndex r)) as [s|] eqn:F;
      [|exfalso; apply (Hf r); [left; reflexivity|exact F]].
    set (a1 := with_output_mov (Some (written ++ [s]))
                 (with_mFrameSurface (Some s)
                    (with_mMovie (mkMovie (movieFrames (mMovie a)) (mIndex r))
                       a))).
    assert (Hm : movieFrames (mMovie a1) = movieFrames (mMovie a))
      by reflexivity.
    destruct (IH a1 (written ++ [s]) eq_refl) as (a' & E & O & M & D & rest).
    { intros r' Hr'. rewrite (frameAt_frames (mMovie a) (mMovie a1) _ Hm).
      apply Hf. right. exact Hr'. }
    exists a'. split; [|split; [|split; [|split]]].
    + cbn [for_each]. unfold bind at 1. unfold bind at 1.
      unfold movie_seekToFrame at 1, modify at 1.
      unfold bind at 1. unfold movie_getSurface at 1, bind at 1, gets at 1.
      cbn [mMovie with_mMovie moviePosition movieFrames].
      unfold frameAt in F |- *. cbn [movieFrames]. rewrite F.
      unfold ret at 1. unfold bind at 1. unfold modify at 1.
      unfold writer_addFrame at 1, modify at 1.
      cbn [output_mov with_mFrameSurface with_mMovie]. rewrite Ho.
      exact E.
    + rewrite O, <- app_assoc. f_equal. simpl.
      rewrite F. reflexivity.
    + rewrite M. exact Hm.
    + rewrite D. reflexivity.
    + destruct rest as (-> & -> & -> & ->). repeat split.
Qed.

Lemma saveMovie_spec (a : LuminOrderApp) :
  mSorted a = true ->
  (forall r, In r (mFrameData a) -> frameAt (mMovie a) (mIndex r) <> None) ->
  exists a',
    saveMovie a = (inr tt, a') /\
    output_mov a' = Some (fetched (mMovie a) (mFrameData a)) /\
    mSaved a' = true /\ mFrameData a' = mFrameData a /\
    offsets_txt a' = offsets_txt a.
Proof.
  intros Hs Hf.
  destruct (pass2_loop (mFrameData a) (with_output_mov (Some []) a) []
              eq_refl Hf) as (a1 & E & O & M & D & S1 & S2 & F1 & F2).
  exists (with_mSaved true a1). split; [|repeat split; auto].
  unfold saveMovie, bind at 1, gets at 1. rewrite Hs. cbn [negb].
  unfold bind at 1, modify at 1. unfold bind at 1, gets at 1.
  unfold bind at 1.
  change (mFrameData (with_output_mov (Some []) a)) with (mFrameData a).
  rewrite E. reflexivity.
Qed.

Lemma fetched_Forall2 (m : MovieSurface) (t : list FrameData) :
  (forall r, In r t -> frameAt m (mIndex r) <> None) ->
  Forall2 (fun r s => frameAt m (mIndex r) = Some s) t (fetched m t).
Proof.
  induction t as [|r t IH]; intros H; simpl.
  - constructor.
  - destruct (frameAt m (mIndex r)) as [s|] eqn:F.
    + simpl. constructor; [exact F|]. apply IH. intros r' Hr'.
      apply H. right. exact Hr'.
    + exfalso. apply (H r); [left; reflexivity|exact F].
Qed.

Lemma analysed_In (m : MovieSurface) (pos index : Z) (n : nat)
    (r : FrameData) :
  In r (analysed m pos index n) ->
  exists j : nat, (j < n)%nat /\ mIndex r = index + Z.of_nat j.
Proof.
  unfold analysed. intros H. apply in_map_iff in H.
  destruct H as (j & <- & Hj). apply in_seq in Hj.
  exists j. split; [lia|reflexivity].
Qed.

(** The loop of [saveMovie] on a table with a record that cannot be
    fetched. *)
Lemma for_each_app {A} (l1 l2 : list A) (body : A -> M unit) (a : LuminOrderApp) :
  for_each (l1 ++ l2) body a =
  match for_each l1 body a with
  | (inl e, a') => (inl e, a')
  | (inr _, a') => for_each l2 body a'
  end.
Proof.
  revert a. induction l1 as [|x l1 IH]; intros a; [reflexivity|].
  cbn [app for_each]. unfold bind.
  destruct (body x a) as [[e|[]] a']; [reflexivity|apply IH].
Qed.

(** A table is fetched completely, or there is a first record whose frame
    the decoder does not deliver. *)
Lemma first_undecodable (m : MovieSurface) (t : list FrameData) :
  (forall r, In r t -> frameAt m (mIndex r) <> None) \/
  exists t1 r t2,
    t = t1 ++ r :: t2 /\
    (forall r', In r' t1 -> frameAt m (mIndex r') <> None) /\
    frameAt m (mIndex r) = None.
Proof.
  induction t as [|r t IH]; [left; intros r []|].
  destruct (frameAt m (mIndex r)) as [s|] eqn:F.
  - destruct IH as [IH|(t1 & r' & t2 & -> & H1 & H2)].
    + left. intros r' [<-|Hr']; [rewrite F; discriminate|apply IH, Hr'].
    + right. exists (r :: t1), r', t2. split; [reflexivity|].
      split; [|exact H2].
      intros r'' [<-|Hr'']; [rewrite F; discriminate|apply H1, Hr''].
  - right. exists [], r, t. split; [reflexivity|]. split; [intros r' []|exact F].
Qed.

Lemma saveMovie_throws (a : LuminOrderApp) (t1 t2 : list FrameData)
    (r : FrameData) :
  mSorted a = true ->
  mFrameData a = t1 ++ r :: t2 ->
  (forall r', In r' t1 -> frameAt (mMovie a) (mIndex r') <> None) ->
  frameAt (mMovie a) (mIndex r) = None ->
  exists a',
    saveMovie a = (inl (DecodeFailed (mIndex r)), a') /\
    output_mov a' = Some (fetched (mMovie a) t1) /\
    mSaved a' = mSaved a /\ mSorted a' = mSorted a /\
    mFrameData a' = mFrameData a /\ offsets_txt a' = offsets_txt a /\
    moviePosition (mMovie a') = mIndex r.
Proof.
  intros Hs Ht H1 Hr.
  destruct (pass2_loop t1 (with_output_mov (Some []) a) [] eq_refl H1)
    as (a1 & E & O & M & D & S1 & S2 & F1 & F2).
  exists (with_mMovie (mkMovie (movieFrames (mMovie a1)) (mIndex r)) a1).
  split.
  - unfold saveMovie, bind at 1, gets at 1. rewrite Hs. cbn [negb].
    unfold bind at 1, modify at 1. unfold bind at 1, gets at 1.
    unfold bind at 1.
    change (mFrameData (with_output_mov (Some []) a)) with (mFrameData a).
    rewrite Ht, for_each_app, E.
    cbn [for_each]. unfold bind at 1. unfold bind at 1.
    unfold movie_seekToFrame at 1, modify at 1.
    unfold bind at 1. unfold movie_getSurface at 1, bind at 1, gets at 1.
    cbn [mMovie with_mMovie moviePosition].
    change (mMovie (with_output_mov (Some []) a)) with (mMovie a) in M.
    unfold frameAt in Hr |- *. cbn [movieFrames]. rewrite M, Hr.
    reflexivity.
  - cbn [output_mov with_mMovie mSaved mSorted mFrameData offsets_txt mMovie
           moviePosition].
    rewrite O, S1, S2, D, F1. repeat split.
Qed.

(** What [loadMovieFile] does once the movie is open, by the outcome of
    pass 1. *)
Lemma loadMovieFile_unfold (start_frame : Z) (a : LuminOrderApp)
    (frames : list (option Surface8u)) :
  movie_file a = Some frames ->
  loadMovieFile start_frame a =
  match processAllFrames start_frame (with_mMovie (mkMovie frames 0) a) with
  | (inl _, a1) => (inr tt, with_mMovie noMovie a1)
  | (inr _, a1) =>
      match saveMovie (snd (sortMovie a1)) with
      | (inl _, a2) => (inr tt, with_mMovie noMovie a2)
      | (inr _, a2) => (inr tt, a2)
      end
  end.
Proof.
  intros H. unfold loadMovieFile, try_catch, bind at 1.
  unfold movie_open at 1, bind at 1, gets at 1. rewrite H.
  unfold modify at 1. unfold bind at 1.
  destruct (processAllFrames _ _) as [[e|[]] a1]; [reflexivity|].
  unfold bind at 1. rewrite sortMovie_eq. cbn [snd].
  destruct (saveMovie _) as [[e|[]] a2]; reflexivity.
Qed.

(** ** The claims about the whole run *)

Lemma loadMovieFile_try_unfold (start_frame : Z) (a : LuminOrderApp)
    (frames : list (option Surface8u)) :
  movie_file a = Some frames ->
  loadMovieFile_try start_frame a =
  match processAllFrames start_frame (with_mMovie (mkMovie frames 0) a) with
  | (inl e, a1) => (inl e, a1)
  | (inr _, a1) => saveMovie (snd (sortMovie a1))
  end.
Proof.
  intros H. unfold loadMovieFile_try, bind at 1.
  unfold movie_open at 1, bind at 1, gets at 1. rewrite H.
  unfold modify at 1. unfold bind at 1.
  destruct (processAllFrames _ _) as [[e|[]] a1]; [reflexivity|].
  unfold bind at 1. rewrite sortMovie_eq. reflexivity.
Qed.

(** C3, as the program has it.  A successful run of [loadMovieFile] on a
    movie of [N] frames, with [0 <= START_FRAME <= N], writes one frame per
    record of the table to [output.mov], the records that were in the table
    before the run included: they are the source frames at the indices of
    the table, in the order of the table, and these indices are those of the
    old records together with [START_FRAME, ..., N - 1].  A run that starts
    with an empty table writes [N - START_FRAME] frames, and the indices are
    a permutation of [START_FRAME, ..., N - 1]. *)
Theorem loadMovieFile_output (start_frame : Z) (a : LuminOrderApp)
    (frames : list (option Surface8u)) :
  movie_file a = Some frames ->
  0 <= start_frame <= Z.of_nat (List.length frames) ->
  successful start_frame a ->
  exists written : list Surface8u,
    output_mov (snd (loadMovieFile start_frame a)) = Some written /\
    mSaved (snd (loadMovieFile start_frame a)) = true /\
    Z.of_nat (List.length written) =
      Z.of_nat (List.length (mFrameData a)) +
      (Z.of_nat (List.length frames) - start_frame) /\
    Forall2 (fun r s => frameAt (mkMovie frames 0) (mIndex r) = Some s)
      (mFrameData (snd (loadMovieFile start_frame a))) written /\
    Permutation
      (map mIndex (mFrameData (snd (loadMovieFile start_frame a))))
      (map mIndex (mFrameData a) ++
       map (fun j => start_frame + Z.of_nat j)
         (seq 0 (Z.to_nat (Z.of_nat (List.length frames) - start_frame)))) /\
    (mFrameData a = [] ->
     Z.of_nat (List.length written) =
       Z.of_nat (List.length frames) - start_frame /\
     Permutation
       (map mIndex (mFrameData (snd (loadMovieFile start_frame a))))
       (map (fun j => start_frame + Z.of_nat j)
          (seq 0 (Z.to_nat (Z.of_nat (List.length frames) - start_frame))))).
Proof.
  intros Hfile Hs Hok. unfold successful in Hok.
  rewrite (loadMovieFile_try_unfold start_frame a frames Hfile) in Hok.
  rewrite (loadMovieFile_unfold start_frame a frames Hfile).
  set (a1 := with_mMovie (mkMovie frames 0) a) in *.
  destruct (processAllFrames_spec start_frame a1)
    as (k & r & a2 & E & D & Fk & S1 & R).
  rewrite E in *.
  destruct R as [[-> ->]|(-> & _ & _)]; [|discriminate Hok].
  change (getNumFrames (mMovie a1)) with (Z.of_nat (List.length frames)) in *.
  change (mFrameData a1) with (mFrameData a) in D.
  set (n := Z.to_nat (Z.of_nat (List.length frames) - start_frame)) in *.
  set (a3 := snd (sortMovie a2)) in *.
  assert (Hp : Permutation (mFrameData a2) (mFrameData a3))
    by apply std_sort_perm.
  assert (Hm : movieFrames (mMovie a3) = frames) by apply S1.
  destruct (first_undecodable (mMovie a3) (mFrameData a3))
    as [Hf|(t1 & r & t2 & Et & H1 & Hr)].
  2:{ destruct (saveMovie_throws a3 t1 t2 r eq_refl Et H1 Hr) as (a4 & E4 & _).
      rewrite E4 in Hok. discriminate Hok. }
  destruct (saveMovie_spec a3 eq_refl Hf) as (a4 & E4 & O4 & S4 & D4 & _).
  rewrite E4. cbn [snd].
  exists (fetched (mMovie a3) (mFrameData a3)).
  pose proof (fetched_Forall2 (mMovie a3) (mFrameData a3) Hf) as F2.
  assert (Hl : Z.of_nat (List.length (fetched (mMovie a3) (mFrameData a3))) =
               Z.of_nat (List.length (mFrameData a)) +
               (Z.of_nat (List.length frames) - start_frame)).
  { rewrite <- (Forall2_length F2), <- (Permutation_length Hp), D,
      length_app, analysed_length. unfold n. lia. }
  assert (Hi : Permutation (map mIndex (mFrameData a4))
                 (map mIndex (mFrameData a) ++
                  map (fun j => start_frame + Z.of_nat j) (seq 0 n))).
  { rewrite D4. eapply perm_trans;
      [apply Permutation_map, Permutation_sym, Hp|].
    rewrite D, map_app, analysed_indices. apply Permutation_refl. }
  split; [exact O4|]. split; [exact S4|]. split; [exact Hl|].
  split; [|split; [exact Hi|]].
  - rewrite D4. eapply Forall2_impl; [|exact F2].
    intros r s H. rewrite <- H. symmetry.
    apply (frameAt_frames (mkMovie frames 0) (mMovie a3)). exact Hm.
  - intros He. rewrite He in Hl, Hi. cbn [List.length map app] in Hl, Hi.
    split; [lia|exact Hi].
Qed.

(** The first run on the sample movie, and the second: three frames, then
    six. *)
Lemma loadMovieFile_output_witness :
  exists written : list Surface8u,
    output_mov (snd (loadMovieFile START_FRAME after_first_run))
      = Some written /\
    Z.of_nat (List.length written) = 3 + (3 - START_FRAME).
Proof.
  destruct (loadMovieFile_output START_FRAME after_first_run sample_movie)
    as (written & H1 & _ & H2 & _).
  - reflexivity.
  - vm_compute. split; discriminate.
  - vm_compute. reflexivity.
  - exists written. split; [exact H1|exact H2].
Defined.

(** Not [N - START_FRAME] frames after every successful run: the second
    run on the sample movie, in the same process, completes and writes six
    frames, every source frame twice. *)
Lemma loadMovieFile_second_run :
  let a2 := snd (loadMovieFile START_FRAME after_first_run) in
  successful START_FRAME after_first_run /\
  mSaved a2 = true /\
  movie_file after_first_run = Some sample_movie /\
  output_mov a2 =
    Some [uniform 4 3 x00; uniform 4 3 x00; uniform 4 3 x80;
          uniform 4 3 x80; uniform 4 3 xff; uniform 4 3 xff] /\
  map mIndex (mFrameData a2) = [0; 0; 2; 2; 1; 1] /\
  ~ Permutation (map mIndex (mFrameData a2)) [0; 1; 2].
Proof.
  intros a2.
  assert (Hi : map mIndex (mFrameData a2) = [0; 0; 2; 2; 1; 1])
    by (vm_compute; reflexivity).
  split; [vm_compute; reflexivity|]. split; [vm_compute; reflexivity|].
  split; [reflexivity|]. split; [vm_compute; reflexivity|].
  split; [exact Hi|].
  rewrite Hi. intros H. apply Permutation_length in H. discriminate H.
Qed.

(** C7, as the program has it.  When the decoder throws at frame [k]
    during pass 1, [loadMovieFile] catches the exception and resets the
    movie; [sortMovie] and [saveMovie] do not run, so both flags and both
    files are as they were; the records of the frames before [k] stay in
    the table. *)
Theorem loadMovieFile_decode_failure (start_frame : Z) (a : LuminOrderApp)
    (frames : list (option Surface8u)) (k : Z) :
  movie_file a = Some frames ->
  0 <= start_frame <= k -> k < Z.of_nat (List.length frames) ->
  (forall i, start_frame <= i < k -> frameAt (mkMovie frames 0) i <> None) ->
  frameAt (mkMovie frames 0) k = None ->
  fst (loadMovieFile start_frame a) = inr tt /\
  mMovie (snd (loadMovieFile start_frame a)) = noMovie /\
  mSorted (snd (loadMovieFile start_frame a)) = mSorted a /\
  mSaved (snd (loadMovieFile start_frame a)) = mSaved a /\
  offsets_txt (snd (loadMovieFile start_frame a)) = offsets_txt a /\
  output_mov (snd (loadMovieFile start_frame a)) = output_mov a /\
  mFrameData (snd (loadMovieFile start_frame a)) =
    mFrameData a ++
    analysed (mkMovie frames 0) start_frame start_frame
      (Z.to_nat (k - start_frame)).
Proof.
  intros Hfile Hs Hk Hok Hbad.
  rewrite (loadMovieFile_unfold start_frame a frames Hfile).
  set (a1 := with_mMovie (mkMovie frames 0) a).
  destruct (processAllFrames_spec start_frame a1)
    as (j & r & a2 & E & D & Fj & S1 & R).
  rewrite E.
  change (getNumFrames (mMovie a1)) with (Z.of_nat (List.length frames)) in R.
  change (mMovie a1) with (mkMovie frames 0) in *.
  destruct R as [[-> ->]|(-> & Hj & Hn)].
  { exfalso. apply (Fj (Z.to_nat (k - start_frame))); [lia|].
    replace (start_frame + Z.of_nat (Z.to_nat (k - start_frame))) with k
      by lia.
    exact Hbad. }
  assert (Ej : j = Z.to_nat (k - start_frame)).
  { destruct (Nat.lt_trichotomy j (Z.to_nat (k - start_frame)))
      as [L|[L|L]]; [|exact L|].
    - exfalso. apply (Hok (start_frame + Z.of_nat j)); [lia|exact Hn].
    - exfalso. apply (Fj (Z.to_nat (k - start_frame)) L).
      replace (start_frame + Z.of_nat (Z.to_nat (k - start_frame))) with k
        by lia.
      exact Hbad. }
  subst j. cbn [fst snd].
  destruct S1 as (_ & S2 & S3 & _ & S5 & S6).
  repeat split; auto.
Qed.

Lemma loadMovieFile_decode_failure_witness :
  mFrameData (snd (loadMovieFile START_FRAME
                     (setup (Some failing_movie) None None))) =
    [] ++ analysed (mkMovie failing_movie 0) START_FRAME START_FRAME 1 /\
  offsets_txt (snd (loadMovieFile START_FRAME
                      (setup (Some failing_movie) None None))) = None /\
  output_mov (snd (loadMovieFile START_FRAME
                     (setup (Some failing_movie) None None))) = None.
Proof.
  destruct (loadMovieFile_decode_failure START_FRAME
              (setup (Some failing_movie) None None) failing_movie 1)
    as (_ & _ & _ & _ & Ho & Hw & Ht).
  - reflexivity.
  - vm_compute. split; discriminate.
  - vm_compute. reflexivity.
  - intros i Hi. assert (i = 0) by (unfold START_FRAME in Hi; lia). subst i.
    vm_compute. discriminate.
  - vm_compute. reflexivity.
  - split; [exact Ht|]. split; [exact Ho|exact Hw].
Defined.

(** The partial table is not discarded: after the decoder has failed at
    frame 1 of three, the record of frame 0 is still in [mFrameData]. *)
Lemma decode_failure_keeps_records :
  frameAt (mkMovie failing_movie 0) 1 = None /\
  mFrameData (snd (loadMovieFile START_FRAME
                     (setup (Some failing_movie) None None))) =
    [mkFrameData 0 Double.zero] /\
  mFrameData (snd (loadMovieFile START_FRAME
                     (setup (Some failing_movie) None None))) <> [].
Proof.
  split; [reflexivity|]. split; [vm_compute; reflexivity|].
  vm_compute. discriminate.
Qed.

(** ** Surfaces without pixels *)

Lemma line_loop_empty_lines (s : Surface8u) (n : nat) (y : Z) (b : double) :
  Z.to_nat (getWidth s) = O -> line_loop s n y b = b.
Proof.
  intros Hw. revert y. induction n as [|n IH]; intros y; simpl.
  - reflexivity.
  - rewrite Hw. simpl. apply IH.
Qed.

(** C8, as the program has it.  For a surface with [width * height = 0]
    no pixel is visited, the sum 0.0 is divided by 0.0 all the same, and
    the brightness is NaN; [processNextFrame] does not fail on such a frame
    but appends a record with that brightness. *)
Theorem zero_area_brightness (s : Surface8u) :
  getWidth s * getHeight s = 0 ->
  surface_brightness s = Double.nan /\
  forall a : LuminOrderApp,
    frameAt (mMovie a) (moviePosition (mMovie a)) = Some s ->
    exists b,
      fst (processNextFrame a) = inr b /\
      mFrameData (snd (processNextFrame a)) =
        mFrameData a ++ [mkFrameData (mFrameIndex a) Double.nan].
Proof.
  intros H0.
  assert (Hb : surface_brightness s = Double.nan).
  { unfold surface_brightness. rewrite H0.
    assert (Hl : line_loop s (Z.to_nat (getHeight s)) 0 Double.zero
                 = Double.zero).
    { apply Z.mul_eq_0 in H0. destruct H0 as [Hw|Hh].
      - apply line_loop_empty_lines. rewrite Hw. reflexivity.
      - rewrite Hh. reflexivity. }
    rewrite Hl. reflexivity. }
  split; [exact Hb|].
  intros a F. destruct (processNextFrame_ok a s F) as (b & a' & E & D & _).
  exists b. rewrite E. cbn [fst snd]. rewrite D, Hb. auto.
Qed.

Lemma zero_area_brightness_witness :
  surface_brightness (uniform 0 0 x00) = Double.nan.
Proof. apply (zero_area_brightness (uniform 0 0 x00)). reflexivity. Defined.

(** No [EmptySurface] failure: on a movie whose only frame is 0 by 0
    pixels, [processNextFrame] returns and the table holds a record whose
    brightness is NaN. *)
Lemma zero_area_frame_is_recorded :
  let a := with_mMovie (mkMovie [Some (uniform 0 0 x00)] 0)
             (setup None None None) in
  (exists b, fst (processNextFrame a) = inr b) /\
  mFrameData (snd (processNextFrame a)) = [mkFrameData 0 Double.nan].
Proof.
  split; [eexists|]; vm_compute; reflexivity.
Qed.

(** ** Significands and exponents of doubles *)

Lemma digits2_pos_bounds (p : positive) :
  2 ^ (Zpos (digits2_pos p) - 1) <= Zpos p < 2 ^ Zpos (digits2_pos p).
Proof.
  induction p as [p IH|p IH|]; cbn [digits2_pos].
  - rewrite Pos2Z.inj_succ.
    replace (Z.succ (Zpos (digits2_pos p)) - 1) with (Zpos (digits2_pos p))
      by lia.
    rewrite Z.pow_succ_r by lia.
    replace (2 ^ Zpos (digits2_pos p))
      with (2 * 2 ^ (Zpos (digits2_pos p) - 1)) in *
      by (rewrite <- Z.pow_succ_r by lia; f_equal; lia).
    lia.
  - rewrite Pos2Z.inj_succ.
    replace (Z.succ (Zpos (digits2_pos p)) - 1) with (Zpos (digits2_pos p))
      by lia.
    rewrite Z.pow_succ_r by lia.
    replace (2 ^ Zpos (digits2_pos p))
      with (2 * 2 ^ (Zpos (digits2_pos p) - 1)) in *
      by (rewrite <- Z.pow_succ_r by lia; f_equal; lia).
    lia.
  - simpl. lia.
Qed.

Lemma Zdigits2_bounds (m : Z) :
  0 < m -> 2 ^ (Zdigits2 m - 1) <= m < 2 ^ Zdigits2 m.
Proof.
  destruct m as [|p|p]; try lia. intros _. apply digits2_pos_bounds.
Qed.

Lemma Zdigits2_nonneg (m : Z) : 0 <= Zdigits2 m.
Proof. destruct m; simpl; lia. Qed.

Lemma Zdigits2_pos (m : Z) : 0 < m -> 0 < Zdigits2 m.
Proof. destruct m; simpl; lia. Qed.

Lemma pow2_lt_inv (a b : Z) : 0 <= a -> 0 <= b -> 2 ^ a < 2 ^ b -> a < b.
Proof. intros Ha Hb H. apply (Z.pow_lt_mono_r_iff 2); lia. Qed.

Lemma pow2_le_lt (a b : Z) (x : Z) :
  0 <= a -> 0 <= b -> 2 ^ a <= x -> x < 2 ^ b -> a < b.
Proof. intros Ha Hb H1 H2. apply pow2_lt_inv; lia. Qed.

(** The number of binary digits is determined by the two powers of two
    around the number. *)
Lemma Zdigits2_unique (m d : Z) :
  0 < d -> 2 ^ (d - 1) <= m < 2 ^ d -> Zdigits2 m = d.
Proof.
  intros Hd [H1 H2].
  assert (Hm : 0 < m).
  { assert (0 < 2 ^ (d - 1)) by (apply Z.pow_pos_nonneg; lia). lia. }
  pose proof (Zdigits2_bounds m Hm) as [B1 B2].
  pose proof (Zdigits2_pos m Hm) as Hp.
  assert (d - 1 < Zdigits2 m) by (apply (pow2_le_lt _ _ m); lia).
  assert (Zdigits2 m - 1 < d) by (apply (pow2_le_lt _ _ m); lia).
  lia.
Qed.

Lemma Zdigits2_le (m d : Z) : 0 <= d -> 0 <= m < 2 ^ d -> Zdigits2 m <= d.
Proof.
  intros Hd [H1 H2]. destruct (Z.eq_dec m 0) as [->|Hn]; [simpl; lia|].
  assert (Hm : 0 < m) by lia.
  pose proof (Zdigits2_bounds m Hm) as [B1 B2].
  pose proof (Zdigits2_pos m Hm) as Hp.
  assert (Zdigits2 m - 1 < d) by (apply (pow2_le_lt _ _ m); lia).
  lia.
Qed.

Lemma Zdigits2_ge (m d : Z) : 0 <= d -> 2 ^ d <= m -> d < Zdigits2 m.
Proof.
  intros Hd H.
  assert (Hm : 0 < m).
  { assert (0 < 2 ^ d) by (apply Z.pow_pos_nonneg; lia). lia. }
  pose proof (Zdigits2_bounds m Hm) as [B1 B2].
  pose proof (Zdigits2_pos m Hm) as Hp.
  apply (pow2_le_lt _ _ m); lia.
Qed.

Lemma Zdigits2_mul_pow2 (m k : Z) :
  0 < m -> 0 <= k -> Zdigits2 (m * 2 ^ k) = Zdigits2 m + k.
Proof.
  intros Hm Hk.
  pose proof (Zdigits2_bounds m Hm) as [B1 B2].
  pose proof (Zdigits2_pos m Hm) as Hp.
  assert (P : 0 < 2 ^ k) by (apply Z.pow_pos_nonneg; lia).
  apply Zdigits2_unique; [lia|].
  replace (Zdigits2 m + k - 1) with (Zdigits2 m - 1 + k) by lia.
  rewrite !Z.pow_add_r by lia. nia.
Qed.

Lemma Zdigits2_div_pow2 (m k : Z) :
  0 < m -> 0 <= k -> k < Zdigits2 m ->
  Zdigits2 (m / 2 ^ k) = Zdigits2 m - k.
Proof.
  intros Hm Hk Hlt.
  pose proof (Zdigits2_bounds m Hm) as [B1 B2].
  assert (P : 0 < 2 ^ k) by (apply Z.pow_pos_nonneg; lia).
  apply Zdigits2_unique; [lia|].
  replace (2 ^ (Zdigits2 m - 1)) with (2 ^ (Zdigits2 m - k - 1) * 2 ^ k) in B1
    by (rewrite <- Z.pow_add_r by lia; f_equal; lia).
  replace (2 ^ Zdigits2 m) with (2 ^ (Zdigits2 m - k) * 2 ^ k) in B2
    by (rewrite <- Z.pow_add_r by lia; f_equal; lia).
  split.
  - apply Z.div_le_lower_bound; lia.
  - apply Z.div_lt_upper_bound; lia.
Qed.

Lemma Pos_iter_xO (p : positive) (k : positive) :
  Zpos (Pos.iter xO p k) = Zpos p * 2 ^ Zpos k.
Proof.
  induction k as [|k IH] using Pos.peano_ind.
  - simpl. lia.
  - rewrite Pos.iter_succ, Pos2Z.inj_xO, IH, Pos2Z.inj_succ.
    rewrite Z.pow_succ_r by lia. lia.
Qed.

Lemma places_eq : places = 1074.
Proof. reflexivity. Qed.

(** The exponent of the format: [fexp] at precision 53, with the least
    exponent -1074. *)
Lemma fexp_double (e : Z) :
  fexp Double.prec Double.emax e = Z.max (e - 53) (-1074).
Proof. reflexivity. Qed.

(** ** What [binary_round_aux] computes

    A significand [mx] at exponent [ex], with a location telling whether
    the number is [mx * 2^ex] exactly or lies above it, is first brought to
    the exponent of the format by dropping low bits, then rounded to the
    neighbour [m2], then brought to the exponent of the format once
    more. *)

Lemma binary_round_aux_unfold (prec emax : Z) (sx : bool) (mx ex : Z)
    (lx : location) :
  0 <= mx ->
  let k := Z.max 0 (fexp prec emax (Zdigits2 mx + ex) - ex) in
  exists m2 : Z,
    mx / 2 ^ k <= m2 <= mx / 2 ^ k + 1 /\
    (mx mod 2 ^ k = 0 -> lx = loc_Exact -> m2 = mx / 2 ^ k) /\
    binary_round_aux prec emax sx mx ex lx =
      let k2 := Z.max 0 (fexp prec emax (Zdigits2 m2 + (ex + k)) - (ex + k)) in
      match m2 / 2 ^ k2 with
      | Z0 => S754_zero sx
      | Zpos m =>
          if ex + k + k2 <=? emax - prec then S754_finite sx m (ex + k + k2)
          else S754_infinity sx
      | Zneg _ => S754_nan
      end.
Proof.
  intros Hm k. unfold binary_round_aux.
  pose proof (shr_fexp_spec prec emax mx ex lx Hm) as (Hm1 & He1 & Hi1).
  fold k in Hm1, He1, Hi1.
  destruct (shr_fexp prec emax mx ex lx) as [mrs1 e1]. cbn [fst snd] in *.
  subst e1.
  set (m2 := round_nearest_even (shr_m mrs1) (loc_of_shr_record mrs1)).
  pose proof (round_nearest_even_range (shr_m mrs1) (loc_of_shr_record mrs1))
    as [Hr He]. fold m2 in Hr, He. rewrite Hm1 in Hr, He.
  assert (P : 0 < 2 ^ k) by (apply Z.pow_pos_nonneg; lia).
  assert (H1 : 0 <= mx / 2 ^ k) by (apply Z.div_pos; lia).
  assert (H2 : 0 <= m2) by lia.
  exists m2. split; [exact Hr|]. split.
  - intros Hmod Hlx. apply He. apply loc_of_shr_record_exact.
    rewrite Hi1, Hmod, Hlx. reflexivity.
  - pose proof (shr_fexp_spec prec emax m2 (ex + k) loc_Exact H2)
      as (Hm3 & He3 & _).
    destruct (shr_fexp prec emax m2 (ex + k) loc_Exact) as [mrs3 e3].
    cbn [fst snd] in *. subst e3. rewrite Hm3. cbv zeta. reflexivity.
Qed.

Lemma div_pow2_le (m b k : Z) :
  0 <= k -> m <= b * 2 ^ k -> m / 2 ^ k <= b.
Proof.
  intros Hk H. assert (P : 0 < 2 ^ k) by (apply Z.pow_pos_nonneg; lia).
  apply Z.div_le_upper_bound; lia.
Qed.

Lemma div_pow2_eq (m b k : Z) :
  0 <= k -> m <= b * 2 ^ k -> m / 2 ^ k = b ->
  m = b * 2 ^ k /\ m mod 2 ^ k = 0.
Proof.
  intros Hk H E. assert (P : 0 < 2 ^ k) by (apply Z.pow_pos_nonneg; lia).
  pose proof (Z.div_mod m (2 ^ k) ltac:(lia)) as D.
  pose proof (Z.mod_pos_bound m (2 ^ k) P) as M.
  rewrite E in D. split; nia.
Qed.

(** The result of rounding is one of the two neighbours [m2 * 2^e1] of the
    number, where [e1] is the exponent the format gives it; and rounding
    does not cross a bound [b * 2^e1] that the format represents.  The
    result is a valid float. *)
Lemma binary_round_aux_value (sx : bool) (mx ex : Z) (lx : location) (b : Z) :
  0 <= mx ->
  ex <= fexp Double.prec Double.emax (Zdigits2 mx + ex) ->
  mx < b * 2 ^ (fexp Double.prec Double.emax (Zdigits2 mx + ex) - ex) \/
  (mx = b * 2 ^ (fexp Double.prec Double.emax (Zdigits2 mx + ex) - ex) /\
   lx = loc_Exact) ->
  b * 2 ^ (fexp Double.prec Double.emax (Zdigits2 mx + ex) + places) < 2 ^ (1024 + places) ->
  exists m2 : Z,
    mx / 2 ^ (fexp Double.prec Double.emax (Zdigits2 mx + ex) - ex) <= m2
      <= mx / 2 ^ (fexp Double.prec Double.emax (Zdigits2 mx + ex) - ex) + 1 /\
    m2 <= b /\
    match binary_round_aux Double.prec Double.emax sx mx ex lx with
    | S754_zero s => s = sx /\ m2 = 0
    | S754_finite s m e =>
        s = sx /\ bounded Double.prec Double.emax m e = true /\
        fexp Double.prec Double.emax (Zdigits2 mx + ex) <= e /\
        Zpos m * 2 ^ (e - fexp Double.prec Double.emax (Zdigits2 mx + ex))
          = m2
    | _ => False
    end.
Proof.
  pose proof places_eq as HK.
  intros Hm He Hb Ho.
  destruct (binary_round_aux_unfold Double.prec Double.emax sx mx ex lx Hm)
    as (m2 & Hr & Hx & ->).
  set (t := Zdigits2 mx + ex) in *.
  set (e1 := fexp Double.prec Double.emax t) in *.
  replace (Z.max 0 (e1 - ex)) with (e1 - ex) in * by lia.
  replace (ex + (e1 - ex)) with e1 in * by lia.
  set (k := e1 - ex) in *.
  assert (Hk : 0 <= k) by (unfold k; lia).
  assert (P : 0 < 2 ^ k) by (apply Z.pow_pos_nonneg; lia).
  set (m1 := mx / 2 ^ k) in *.
  assert (H1 : 0 <= m1) by (apply Z.div_pos; lia).
  assert (E1 : e1 = Z.max (t - 53) (-1074)) by reflexivity.
  (* the rounded significand stays below the bound *)
  assert (B2 : m2 <= b).
  { assert (m1 <= b) by (apply div_pow2_le; lia).
    destruct (Z.eq_dec m1 b) as [E|N]; [|lia].
    destruct (div_pow2_eq mx b k Hk ltac:(lia) E) as [Em Emod].
    destruct Hb as [Hb|[_ Hl]]; [lia|].
    rewrite (Hx Emod Hl). lia. }
  exists m2. split; [exact Hr|]. split; [exact B2|].
  cbv zeta.
  destruct (Z.eq_dec m2 0) as [->|N2].
  { rewrite Z.div_0_l; [split; reflexivity|].
    apply Z.pow_nonzero; lia. }
  assert (P2 : 0 < m2) by lia.
  (* the exponent the format gives to the rounded significand *)
  assert (C : (fexp Double.prec Double.emax (Zdigits2 m2 + e1) = e1) \/
              (fexp Double.prec Double.emax (Zdigits2 m2 + e1) = e1 + 1 /\
               m2 = 2 * 2 ^ (Zdigits2 m2 - 2) /\ 1 < Zdigits2 m2)).
  { rewrite !fexp_double.
    destruct (Z.eq_dec m1 0) as [Z1|N1].
    - (* everything was shifted out: the least exponent *)
      assert (m2 = 1) by lia. subst m2. simpl Zdigits2.
      assert (mx < 2 ^ k).
      { unfold m1 in Z1. apply Z.div_small_iff in Z1; lia. }
      pose proof (Zdigits2_le mx k Hk ltac:(lia)). left. unfold t, k in *. lia.
    - assert (P1 : 0 < m1) by lia.
      assert (Hge : 2 ^ k <= mx).
      { destruct (Z_lt_le_dec mx (2 ^ k)) as [L|L]; [|exact L].
        unfold m1 in N1. rewrite Z.div_small in N1; lia. }
      assert (Pm : 0 < mx) by lia.
      pose proof (Zdigits2_ge mx k Hk Hge) as Hd.
      pose proof (Zdigits2_div_pow2 mx k Pm Hk Hd) as D1. fold m1 in D1.
      pose proof (Zdigits2_bounds m1 P1) as [L1 U1].
      pose proof (Zdigits2_pos m1 P1) as Q1.
      destruct (Z.eq_dec m2 m1) as [->|Nm].
      + left. unfold t, k in *. lia.
      + assert (Em : m2 = m1 + 1) by lia.
        destruct (Z_lt_le_dec m2 (2 ^ Zdigits2 m1)) as [L|L].
        * assert (Zdigits2 m2 = Zdigits2 m1)
            by (apply Zdigits2_unique; lia).
          left. unfold t, k in *. lia.
        * assert (E2 : m2 = 2 ^ Zdigits2 m1) by lia.
          assert (D2 : Zdigits2 m2 = Zdigits2 m1 + 1).
          { apply Zdigits2_unique; [lia|].
            replace (Zdigits2 m1 + 1 - 1) with (Zdigits2 m1) by lia.
            rewrite Z.pow_add_r by lia. lia. }
          destruct (Z_le_gt_dec (t + 1 - 53) (-1074)).
          -- left. unfold t, k in *. lia.
          -- right. split; [unfold t, k in *; lia|].
             split; [|lia]. rewrite D2.
             replace (Zdigits2 m1 + 1 - 2) with (Zdigits2 m1 - 1) by lia.
             rewrite <- Z.pow_succ_r by lia. rewrite E2. f_equal. lia. }
  assert (Fin : forall (m : positive) (e : Z),
            fexp Double.prec Double.emax (Zdigits2 (Zpos m) + e) = e ->
            e1 <= e -> Zpos m * 2 ^ (e - e1) = m2 ->
            match (if e <=? Double.emax - Double.prec
                   then S754_finite sx m e else S754_infinity sx) with
            | S754_zero s => s = sx /\ m2 = 0
            | S754_finite s m' e' =>
                s = sx /\ bounded Double.prec Double.emax m' e' = true /\
                e1 <= e' /\ Zpos m' * 2 ^ (e' - e1) = m2
            | _ => False
            end).
  { intros m e Hc Hle Hbd.
    assert (Hov : e <= 971).
    { rewrite fexp_double in Hc.
      destruct (Z_le_gt_dec e (-1074)); [lia|].
      assert (D53 : Zdigits2 (Zpos m) = 53) by lia.
      pose proof (Zdigits2_bounds (Zpos m) ltac:(lia)) as [Lm _].
      rewrite D53 in Lm. change (2 ^ (53 - 1)) with (2 ^ 52) in Lm.
      assert (Pe : 0 < 2 ^ (e - e1)) by (apply Z.pow_pos_nonneg; lia).
      assert (Pf : 0 < 2 ^ (e1 + places)) by (apply Z.pow_pos_nonneg; lia).
      assert (2 ^ 52 * 2 ^ (e - e1) * 2 ^ (e1 + places) < 2 ^ (1024 + places)) by nia.
      rewrite <- !Z.pow_add_r in H by lia.
      apply pow2_lt_inv in H; lia. }
    change (Double.emax - Double.prec) with 971.
    destruct (Z.leb_spec e 971); [|lia].
    repeat split; auto.
    unfold bounded, canonical_mantissa. simpl Zdigits2 in Hc.
    rewrite Hc, Z.eqb_refl. simpl.
    change (Double.emax - Double.prec) with 971. apply Z.leb_le. lia. }
  destruct C as [C|(C & E2 & D2)]; rewrite C.
  - replace (Z.max 0 (e1 - e1)) with 0 by lia.
    rewrite Z.pow_0_r, Z.div_1_r, Z.add_0_r.
    destruct m2 as [|m|m]; try lia.
    apply Fin; [exact C|lia|].
    rewrite Z.sub_diag, Z.pow_0_r. lia.
  - replace (Z.max 0 (e1 + 1 - e1)) with 1 by lia.
    change (2 ^ 1) with 2.
    assert (P3 : 0 < 2 ^ (Zdigits2 m2 - 2)) by (apply Z.pow_pos_nonneg; lia).
    assert (E3 : m2 / 2 = 2 ^ (Zdigits2 m2 - 2)).
    { rewrite E2 at 1. rewrite Z.mul_comm, Z.div_mul; lia. }
    rewrite E3.
    destruct (2 ^ (Zdigits2 m2 - 2)) as [|m|m] eqn:Em; try lia.
    apply Fin; [|lia|].
    + assert (Zdigits2 (Zpos m) = Zdigits2 m2 - 1).
      { apply Zdigits2_unique; [lia|]. rewrite <- Em.
        replace (Zdigits2 m2 - 1 - 1) with (Zdigits2 m2 - 2) by lia.
        replace (Zdigits2 m2 - 1) with (Z.succ (Zdigits2 m2 - 2)) by lia.
        rewrite Z.pow_succ_r by lia. lia. }
      rewrite H. rewrite <- C. f_equal. lia.
    + replace (e1 + 1 - e1) with 1 by lia. change (2 ^ 1) with 2. lia.
Qed.

(** Rounding does not cross a bound that the format represents. *)
Lemma binary_round_aux_le (sx : bool) (mx ex : Z) (lx : location) (b : Z) :
  0 <= mx ->
  ex <= fexp Double.prec Double.emax (Zdigits2 mx + ex) ->
  mx < b * 2 ^ (fexp Double.prec Double.emax (Zdigits2 mx + ex) - ex) \/
  (mx = b * 2 ^ (fexp Double.prec Double.emax (Zdigits2 mx + ex) - ex) /\
   lx = loc_Exact) ->
  b * 2 ^ (fexp Double.prec Double.emax (Zdigits2 mx + ex) + places) < 2 ^ (1024 + places) ->
  match binary_round_aux Double.prec Double.emax sx mx ex lx with
  | S754_zero s => s = sx
  | S754_finite s m e =>
      s = sx /\ bounded Double.prec Double.emax m e = true /\
      fexp Double.prec Double.emax (Zdigits2 mx + ex) <= e /\
      Zpos m * 2 ^ (e - fexp Double.prec Double.emax (Zdigits2 mx + ex)) <= b
  | _ => False
  end.
Proof.
  intros Hm He Hb Ho.
  destruct (binary_round_aux_value sx mx ex lx b Hm He Hb Ho)
    as (m2 & _ & B2 & R).
  destruct (binary_round_aux Double.prec Double.emax sx mx ex lx)
    as [s|s| |s m e]; try contradiction.
  - apply R.
  - destruct R as (? & ? & ? & E). rewrite E. auto.
Qed.

(** ** Sums and quotients of doubles that stay below an integer *)

Lemma in_rangeb_spec (x : double) (B : Z) :
  in_rangeb x B = true <-> in_range x B.
Proof.
  destruct x as [s|s| |s m e]; simpl.
  - destruct s; simpl; split; congruence.
  - split; [discriminate|tauto].
  - split; [discriminate|tauto].
  - rewrite !andb_true_iff, Z.leb_le. destruct s; simpl; intuition congruence.
Qed.

Lemma in_range_mono (x : double) (B B' : Z) :
  B <= B' -> in_range x B -> in_range x B'.
Proof.
  pose proof places_eq as HK.
  intros H. destruct x as [s|s| |s m e]; simpl; auto.
  intros (? & ? & ?). repeat split; auto.
  assert (0 < 2 ^ places) by (apply Z.pow_pos_nonneg; lia). nia.
Qed.

Lemma bounded_exponent (m : positive) (e : Z) :
  bounded Double.prec Double.emax m e = true ->
  e = Z.max (Zpos (digits2_pos m) + e - 53) (-1074) /\ e <= 971.
Proof.
  unfold bounded, canonical_mantissa. rewrite andb_true_iff, Z.eqb_eq, Z.leb_le.
  rewrite fexp_double. change (Double.emax - Double.prec) with 971. lia.
Qed.

Lemma shl_align_spec (p : positive) (e e' : Z) :
  snd (shl_align p e e') = Z.min e e' /\
  Zpos (fst (shl_align p e e')) = Zpos p * 2 ^ (e - Z.min e e').
Proof.
  unfold shl_align. destruct (e' - e) as [|d|d] eqn:E; cbn [fst snd].
  - replace (Z.min e e') with e by lia. rewrite Z.sub_diag. simpl. lia.
  - replace (Z.min e e') with e by lia. rewrite Z.sub_diag. simpl. lia.
  - replace (Z.min e e') with e' by lia. split; [reflexivity|].
    rewrite Pos_iter_xO. f_equal. f_equal. lia.
Qed.

(** A valid significand and exponent are left alone by rounding. *)
Lemma binary_round_aux_exact (sx : bool) (m : positive) (e : Z) :
  bounded Double.prec Double.emax m e = true ->
  binary_round_aux Double.prec Double.emax sx (Zpos m) e loc_Exact =
  S754_finite sx m e.
Proof.
  intros Hb. destruct (bounded_exponent m e Hb) as [He Hmax].
  destruct (binary_round_aux_unfold Double.prec Double.emax sx (Zpos m) e
              loc_Exact ltac:(lia)) as (m2 & Hr & Hx & ->).
  rewrite !fexp_double in *. simpl Zdigits2 in *.
  replace (Z.max 0 (Z.max (Zpos (digits2_pos m) + e - 53) (-1074) - e))
    with 0 in * by lia.
  rewrite Z.pow_0_r, Z.div_1_r in Hr. rewrite Z.pow_0_r, Z.div_1_r in Hx.
  rewrite (Hx (Z.mod_1_r _) eq_refl). cbv zeta. simpl Zdigits2.
  rewrite Z.add_0_r.
  replace (Z.max 0 (Z.max (Zpos (digits2_pos m) + e - 53) (-1074) - e))
    with 0 by lia.
  rewrite Z.pow_0_r, Z.div_1_r, Z.add_0_r.
  change (Double.emax - Double.prec) with 971.
  destruct (Z.leb_spec e 971); [reflexivity|lia].
Qed.

(** [(double) n] for [0 < n < 2^53] is [n] itself. *)
Lemma of_int_pos (n : Z) :
  0 < n < 2 ^ 53 ->
  exists (m : positive) (e : Z),
    Double.of_int n = S754_finite false m e /\
    bounded Double.prec Double.emax m e = true /\
    e <= 0 /\ Zpos m = n * 2 ^ (- e).
Proof.
  intros [Hn Hu]. destruct n as [|p|p]; try lia.
  unfold Double.of_int, binary_normalize, binary_round.
  pose proof (shl_align_spec p 0
    (fexp Double.prec Double.emax (Zpos (digits2_pos p) + 0))) as [Es Em].
  destruct (shl_align p 0 _) as [mz ez]. cbn [fst snd] in *.
  rewrite fexp_double in *.
  pose proof (Zdigits2_bounds (Zpos p) ltac:(lia)) as [L U].
  simpl Zdigits2 in L, U.
  assert (D : Zpos (digits2_pos p) <= 53)
    by (apply (Zdigits2_le (Zpos p) 53); lia).
  assert (Ez : ez = Zpos (digits2_pos p) - 53) by lia.
  assert (Dz : Zpos (digits2_pos mz) = 53).
  { change (Zpos (digits2_pos mz)) with (Zdigits2 (Zpos mz)).
    rewrite Em. rewrite Zdigits2_mul_pow2 by lia. simpl Zdigits2. lia. }
  assert (Hb : bounded Double.prec Double.emax mz ez = true).
  { unfold bounded, canonical_mantissa. rewrite fexp_double, Dz.
    change (Double.emax - Double.prec) with 971.
    apply andb_true_iff. rewrite Z.eqb_eq, Z.leb_le. lia. }
  exists mz, ez. rewrite (binary_round_aux_exact false mz ez Hb).
  repeat split; auto; [lia|]. rewrite Em. f_equal. f_equal. lia.
Qed.

(** Cancelling a power of two in a comparison. *)
Lemma mul_pow2_le_inv (x y k : Z) : 0 <= k -> x * 2 ^ k <= y * 2 ^ k -> x <= y.
Proof.
  intros Hk H. assert (0 < 2 ^ k) by (apply Z.pow_pos_nonneg; lia). nia.
Qed.

Lemma pow2_pos (k : Z) : 0 <= k -> 0 < 2 ^ k.
Proof. intros H. apply Z.pow_pos_nonneg; lia. Qed.

(** Rounding the exact value [M * 2^ez], at most the integer [B], gives a
    double in the range up to [B]; for [B < 2^31] it moves the value by at
    most [2^-22]. *)
Lemma binary_round_spec (M : positive) (ez B : Z) :
  -1074 <= ez -> 0 <= B < 2 ^ 53 ->
  Zpos M * 2 ^ (ez + places) <= B * 2 ^ places ->
  in_range (binary_round Double.prec Double.emax false M ez) B /\
  (B < 2 ^ 31 ->
   Z.abs (scaled (binary_round Double.prec Double.emax false M ez)
          - Zpos M * 2 ^ (ez + places)) <= 2 ^ (places - 22)).
Proof.
  pose proof places_eq as HK.
  intros Hez HB Hle. unfold binary_round.
  set (t := Zpos (digits2_pos M) + ez).
  pose proof (shl_align_spec M ez (fexp Double.prec Double.emax t)) as [Es Em].
  destruct (shl_align M ez _) as [mz e0]. cbn [fst snd] in *.
  rewrite fexp_double in *.
  pose proof (Zdigits2_bounds (Zpos M) ltac:(lia)) as [L U].
  simpl Zdigits2 in L, U. fold t in Es.
  assert (PP : 0 < 2 ^ places) by (apply pow2_pos; lia).
  assert (Pz : 0 < 2 ^ (ez + places)) by (apply pow2_pos; lia).
  (* the value is below [2^p], which bounds its exponent *)
  assert (Ht : forall p, 0 <= p -> B < 2 ^ p -> t <= p).
  { intros p Hp HBp.
    assert (H : 2 ^ (Zpos (digits2_pos M) - 1) * 2 ^ (ez + places)
                < 2 ^ p * 2 ^ places) by nia.
    rewrite <- !Z.pow_add_r in H by lia.
    apply pow2_lt_inv in H; unfold t; lia. }
  assert (Dz : Zdigits2 (Zpos mz) + e0 = t).
  { rewrite Em, Zdigits2_mul_pow2 by lia. simpl Zdigits2. unfold t. lia. }
  clear L U.
  set (e1 := Z.max (t - 53) (-1074)) in *.
  rewrite <- Es in Em.
  assert (He1 : e1 <= 0) by (specialize (Ht 53 ltac:(lia) ltac:(lia));
                             unfold e1; lia).
  assert (He0 : -1074 <= e0 <= e1) by (unfold e1 in *; lia).
  assert (Hmz : Zpos mz * 2 ^ (e0 + places) = Zpos M * 2 ^ (ez + places)).
  { rewrite Em, <- Z.mul_assoc, <- Z.pow_add_r by lia.
    f_equal. f_equal. lia. }
  assert (Eb : 2 ^ (- e1) * 2 ^ (e1 + places) = 2 ^ places).
  { rewrite <- Z.pow_add_r by lia. f_equal. lia. }
  assert (Hmz' : Zpos mz <= B * 2 ^ (- e1) * 2 ^ (e1 - e0)).
  { rewrite <- Z.mul_assoc, <- Z.pow_add_r by lia.
    replace (- e1 + (e1 - e0)) with (- e0) by lia.
    apply (mul_pow2_le_inv _ _ (e0 + places)); [lia|].
    rewrite <- (Z.mul_assoc B), <- Z.pow_add_r by lia.
    replace (- e0 + (e0 + places)) with places by lia. lia. }
  pose proof (binary_round_aux_value false (Zpos mz) e0 loc_Exact
                (B * 2 ^ (- e1)) ltac:(lia)) as R.
  rewrite Dz, fexp_double in R. fold e1 in R.
  specialize (R ltac:(lia)).
  specialize (R ltac:(destruct (Z.eq_dec (Zpos mz)
                         (B * 2 ^ (- e1) * 2 ^ (e1 - e0)));
                      [right; split; [assumption|reflexivity]|left; lia])).
  assert (Ho : B * 2 ^ (- e1) * 2 ^ (e1 + places) < 2 ^ (1024 + places)).
  { rewrite <- Z.mul_assoc, Eb.
    rewrite Z.pow_add_r by lia.
    assert (2 ^ 53 < 2 ^ 1024) by (apply Z.pow_lt_mono_r; lia).
    apply Z.mul_lt_mono_pos_r; lia. }
  specialize (R Ho). destruct R as (m2 & Hr & Hb2 & R).
  set (k := e1 - e0) in *.
  assert (Pk : 0 < 2 ^ k) by (apply pow2_pos; unfold k; lia).
  assert (P0 : 0 < 2 ^ (e0 + places)) by (apply pow2_pos; lia).
  assert (P1 : 0 < 2 ^ (e1 + places)) by (apply pow2_pos; lia).
  assert (E01 : 2 ^ (e1 + places) = 2 ^ k * 2 ^ (e0 + places)).
  { rewrite <- Z.pow_add_r by (unfold k; lia). f_equal. unfold k. lia. }
  assert (Sc : scaled (binary_round_aux Double.prec Double.emax false
                         (Zpos mz) e0 loc_Exact) = m2 * 2 ^ (e1 + places)
               /\ in_range (binary_round_aux Double.prec Double.emax false
                              (Zpos mz) e0 loc_Exact) B).
  { destruct (binary_round_aux Double.prec Double.emax false (Zpos mz) e0
                loc_Exact) as [s|s| |s m e]; try contradiction.
    - destruct R as [-> ->]. split; reflexivity.
    - destruct R as (-> & Hbd & Hge & <-). cbn [scaled cond_Zopp in_range].
      assert (E : Zpos m * 2 ^ (e + places)
                  = Zpos m * 2 ^ (e - e1) * 2 ^ (e1 + places)).
      { rewrite <- Z.mul_assoc, <- Z.pow_add_r by lia. f_equal. f_equal. lia. }
      split; [exact E|]. repeat split; auto.
      rewrite E. rewrite <- Eb. rewrite Z.mul_assoc.
      apply Z.mul_le_mono_nonneg_r; lia. }
  destruct Sc as [Sc Hin]. split; [exact Hin|].
  intros H31. rewrite Sc, <- Hmz.
  assert (He1' : e1 <= -22)
    by (specialize (Ht 31 ltac:(lia) H31); unfold e1; lia).
  assert (Le : 2 ^ (e1 + places) <= 2 ^ (places - 22))
    by (apply Z.pow_le_mono_r; lia).
  pose proof (Z.div_mod (Zpos mz) (2 ^ k) ltac:(lia)) as Dv.
  pose proof (Z.mod_pos_bound (Zpos mz) (2 ^ k) Pk) as Mv.
  set (q := Zpos mz / 2 ^ k) in *. set (r := Zpos mz mod 2 ^ k) in *.
  set (X := 2 ^ (e0 + places)) in *. set (Y := 2 ^ k) in *.
  rewrite E01 in Le |- *. rewrite Dv.
  clear - Hr Mv Le P0 Pk. apply Z.abs_le.
  assert (C : m2 = q \/ m2 = q + 1) by lia.
  assert (0 <= r * X < Y * X) by nia.
  destruct C as [->| ->]; split; nia.
Qed.

(** The sum of two doubles in the ranges up to [Bx] and [By] is in the
    range up to [Bx + By]; below [2^31] it is within [2^-22] of the exact
    sum. *)
Lemma add_spec (x y : double) (Bx By : Z) :
  0 <= Bx -> 0 <= By -> Bx + By < 2 ^ 53 ->
  in_range x Bx -> in_range y By ->
  in_range (Double.add x y) (Bx + By) /\
  (Bx + By < 2 ^ 31 ->
   Z.abs (scaled (Double.add x y) - (scaled x + scaled y))
     <= 2 ^ (places - 22)).
Proof.
  pose proof places_eq as HK.
  intros HBx HBy HB Hx Hy.
  assert (P : 0 < 2 ^ (places - 22)) by (apply Z.pow_pos_nonneg; lia).
  destruct x as [sx|sx| |sx mx ex]; try contradiction;
    destruct y as [sy|sy| |sy my ey]; try contradiction.
  - simpl in Hx, Hy. subst. split; [reflexivity|].
    intros _. cbn [Double.add SFadd scaled Z.add Z.sub Z.opp Z.abs]. lia.
  - simpl in Hx. subst. split.
    + apply (in_range_mono _ By); [lia|exact Hy].
    + intros _. cbn [Double.add SFadd scaled].
      rewrite Z.add_0_l, Z.sub_diag. cbn [Z.abs]. lia.
  - simpl in Hy. subst. split.
    + apply (in_range_mono _ Bx); [lia|exact Hx].
    + intros _. cbn [Double.add SFadd scaled].
      rewrite Z.add_0_r, Z.sub_diag. cbn [Z.abs]. lia.
  - destruct Hx as (-> & Vx & Lx), Hy as (-> & Vy & Ly).
    destruct (bounded_exponent mx ex Vx) as [Ex _].
    destruct (bounded_exponent my ey Vy) as [Ey _].
    unfold Double.add, SFadd. cbn [cond_Zopp scaled].
    pose proof (shl_align_spec mx ex (Z.min ex ey)) as [_ Ax].
    pose proof (shl_align_spec my ey (Z.min ex ey)) as [_ Ay].
    set (ez := Z.min ex ey) in *.
    replace (Z.min ex ez) with ez in Ax by (unfold ez; lia).
    replace (Z.min ey ez) with ez in Ay by (unfold ez; lia).
    rewrite <- Pos2Z.inj_add. cbn [binary_normalize].
    assert (E : Zpos (fst (shl_align mx ex ez) + fst (shl_align my ey ez))
                * 2 ^ (ez + places)
                = Zpos mx * 2 ^ (ex + places) + Zpos my * 2 ^ (ey + places)).
    { rewrite Pos2Z.inj_add, Ax, Ay, Z.mul_add_distr_r.
      rewrite <- !Z.mul_assoc, <- !Z.pow_add_r by (unfold ez; lia).
      replace (ex - ez + (ez + places)) with (ex + places) by lia.
      replace (ey - ez + (ez + places)) with (ey + places) by lia.
      reflexivity. }
    rewrite <- E.
    apply (binary_round_spec _ ez (Bx + By)); [unfold ez; lia|lia|].
    rewrite E. lia.
Qed.

Lemma add_in_range (x y : double) (Bx By : Z) :
  0 <= Bx -> 0 <= By -> Bx + By < 2 ^ 53 ->
  in_range x Bx -> in_range y By ->
  in_range (Double.add x y) (Bx + By).
Proof. intros HBx HBy HB Hx Hy. apply (add_spec x y Bx By); assumption. Qed.

Lemma add_close (x y : double) (Bx By : Z) :
  0 <= Bx -> 0 <= By -> Bx + By < 2 ^ 31 ->
  in_range x Bx -> in_range y By ->
  Z.abs (scaled (Double.add x y) - (scaled x + scaled y)) <= 2 ^ (places - 22).
Proof.
  intros HBx HBy HB Hx Hy.
  assert (H : 2 ^ 31 < 2 ^ 53) by (apply Z.pow_lt_mono_r; lia).
  apply (add_spec x y Bx By); try assumption. lia.
Qed.

Lemma new_location_zero (n : Z) : new_location n 0 = loc_Exact.
Proof.
  unfold new_location, new_location_even, new_location_odd.
  destruct (Z.even n); reflexivity.
Qed.

(** The quotient of a double in the range up to [N] by [(double) N] is in
    the range up to 1, and within [2^-52] of the exact quotient. *)
Lemma div_spec (x : double) (N : Z) :
  0 < N < 2 ^ 53 -> in_range x N ->
  in_range (Double.div x (Double.of_int N)) 1 /\
  Z.abs (scaled (Double.div x (Double.of_int N)) * N - scaled x)
    <= N * 2 ^ (places - 52).
Proof.
  pose proof places_eq as HK.
  intros HN Hx.
  assert (P1022 : 0 < 2 ^ (places - 52)) by (apply Z.pow_pos_nonneg; lia).
  destruct (of_int_pos N HN) as (my & ey & -> & Vy & Hey & Hmy).
  destruct (bounded_exponent my ey Vy) as [Ey _].
  destruct x as [sx|sx| |sx mx ex]; try contradiction.
  { simpl in Hx. subst sx. split; [reflexivity|].
    cbn [Double.div Double.of_int SFdiv scaled].
    rewrite Z.mul_0_l, Z.sub_diag. cbn [Z.abs]. nia. }
  destruct Hx as (-> & Vx & Lx).
  destruct (bounded_exponent mx ex Vx) as [Ex _].
  unfold Double.div, SFdiv, SFdiv_core_binary. cbn [xorb scaled cond_Zopp].
  rewrite fexp_double.
  set (d1 := Zdigits2 (Zpos mx)). set (d2 := Zdigits2 (Zpos my)).
  change (Zpos (digits2_pos mx)) with d1 in Ex.
  change (Zpos (digits2_pos my)) with d2 in Ey.
  pose proof (Zdigits2_bounds (Zpos mx) ltac:(lia)) as [L1 U1]. fold d1 in L1, U1.
  pose proof (Zdigits2_bounds (Zpos my) ltac:(lia)) as [L2 U2]. fold d2 in L2, U2.
  assert (Q1 : 0 < d1) by (apply Zdigits2_pos; lia).
  assert (Q2 : 0 < d2) by (apply Zdigits2_pos; lia).
  assert (Ex0 : -1074 <= ex) by lia. assert (Ey0 : -1074 <= ey) by lia.
  clear Ex Ey.
  set (e' := Z.min (Z.max (d1 + ex - (d2 + ey) - 53) (-1074)) (ex - ey)).
  set (s := ex - ey - e').
  assert (Hs : 0 <= s) by (unfold s, e'; lia).
  set (m' := match s with
             | 0 => Zpos mx
             | Zpos _ => Z.shiftl (Zpos mx) s
             | Zneg _ => 0
             end).
  assert (Em' : m' = Zpos mx * 2 ^ s).
  { unfold m'. destruct s as [|p|p] eqn:E; [simpl; lia| |lia].
    rewrite Z.shiftl_mul_pow2 by lia. reflexivity. }
  assert (Hxy : Zpos mx * 2 ^ (ex + places) <= Zpos my * 2 ^ (ey + places)).
  { rewrite Hmy, <- Z.mul_assoc, <- Z.pow_add_r by lia.
    replace (- ey + (ey + places)) with places by lia. lia. }
  assert (Px : 0 < 2 ^ (ex + places)) by (apply Z.pow_pos_nonneg; lia).
  assert (Py : 0 < 2 ^ (ey + places)) by (apply Z.pow_pos_nonneg; lia).
  assert (Hd : d1 + ex <= d2 + ey).
  { assert (H : 2 ^ (d1 - 1) * 2 ^ (ex + places) < 2 ^ d2 * 2 ^ (ey + places))
      by nia.
    rewrite <- !Z.pow_add_r in H by lia. apply pow2_lt_inv in H; lia. }
  assert (He' : -1074 <= e' <= -53) by (unfold e'; lia).
  assert (Hm' : m' <= Zpos my * 2 ^ (- e')).
  { apply (mul_pow2_le_inv _ _ (e' + ey + (places + places))); [lia|].
    rewrite Em', <- !Z.mul_assoc, <- !Z.pow_add_r by lia.
    replace (s + (e' + ey + (places + places))) with (ex + places + places)
      by (unfold s; lia).
    replace (- e' + (e' + ey + (places + places))) with (ey + places + places)
      by lia.
    rewrite (Z.pow_add_r 2 (ex + places) places),
      (Z.pow_add_r 2 (ey + places) places) by lia.
    rewrite !Z.mul_assoc.
    apply Z.mul_le_mono_nonneg_r; [apply Z.pow_nonneg; lia|exact Hxy]. }
  pose proof (Z_div_mod m' (Zpos my) eq_refl) as D.
  destruct (Z.div_eucl m' (Zpos my)) as [q r]. destruct D as [D Hr].
  assert (Pm' : 0 < m').
  { rewrite Em'. apply Z.mul_pos_pos; [lia|]. apply Z.pow_pos_nonneg; lia. }
  assert (Hq0 : 0 <= q) by (clear - D Hr Pm'; nia).
  assert (Pe' : 0 < 2 ^ (- e')) by (apply Z.pow_pos_nonneg; lia).
  assert (Hq : q <= 2 ^ (- e')) by (clear - D Hr Hm' Pe'; nia).
  assert (Dq : d1 + s - d2 <= Zdigits2 q).
  { pose proof (Zdigits2_nonneg q).
    destruct (Z_le_gt_dec (d1 + s - d2) 0); [lia|].
    assert (d1 + s - d2 - 1 < Zdigits2 q); [|lia].
    apply Zdigits2_ge; [lia|].
    destruct (Z_le_gt_dec (2 ^ (d1 + s - d2 - 1)) q) as [G|G]; [exact G|].
    exfalso.
    assert (P : 0 < 2 ^ (d1 + s - d2 - 1)) by (apply Z.pow_pos_nonneg; lia).
    assert (Hlt : m' < 2 ^ (d1 + s - d2 - 1) * Zpos my)
      by (clear - G D Hr P; nia).
    assert (Hge : 2 ^ (d1 + s - d2 - 1) * 2 ^ d2 <= m').
    { rewrite <- Z.pow_add_r by lia.
      replace (d1 + s - d2 - 1 + d2) with (d1 - 1 + s) by lia.
      rewrite Z.pow_add_r by lia. rewrite Em'.
      apply Z.mul_le_mono_nonneg_r; [apply Z.pow_nonneg; lia|exact L1]. }
    clear - Hlt Hge U2 P. nia. }
  assert (Dq' : Zdigits2 q + e' <= 1).
  { assert (Zdigits2 q <= - e' + 1); [|lia].
    destruct (Z.eq_dec q (2 ^ (- e'))) as [->|Nq].
    - rewrite (Zdigits2_unique (2 ^ (- e')) (- e' + 1)); [lia|lia|].
      replace (- e' + 1 - 1) with (- e') by lia.
      rewrite Z.pow_add_r by lia. lia.
    - assert (Zdigits2 q <= - e'); [|lia].
      apply Zdigits2_le; lia. }
  set (e1 := fexp Double.prec Double.emax (Zdigits2 q + e')).
  assert (E1 : e1 = Z.max (Zdigits2 q + e' - 53) (-1074)) by reflexivity.
  assert (He1 : e' <= e1 <= -52)
    by (clear - E1 Dq Dq'; unfold e', s in *; lia).
  clear E1 Dq Dq' Hd L1 U1 L2 U2 Q1 Q2.
  pose proof (binary_round_aux_value false q e' (new_location (Zpos my) r)
                (2 ^ (- e1)) Hq0) as R.
  fold e1 in R.
  assert (Eb : 2 ^ (- e1) * 2 ^ (e1 - e') = 2 ^ (- e')).
  { rewrite <- Z.pow_add_r by lia. f_equal. lia. }
  rewrite Eb in R.
  specialize (R ltac:(lia)).
  assert (Hyp2 : q < 2 ^ (- e') \/
                 (q = 2 ^ (- e') /\ new_location (Zpos my) r = loc_Exact)).
  { destruct (Z.eq_dec q (2 ^ (- e'))) as [Eq|Nq]; [right|left; lia].
    split; [exact Eq|].
    assert (r = 0) by (clear - Eq D Hr Hm'; subst q; lia).
    subst r. apply new_location_zero. }
  specialize (R Hyp2). clear Hyp2.
  assert (Ho : 2 ^ (- e1) * 2 ^ (e1 + places) < 2 ^ (1024 + places)).
  { rewrite <- Z.pow_add_r by lia.
    replace (- e1 + (e1 + places)) with places by lia.
    apply Z.pow_lt_mono_r; lia. }
  specialize (R Ho). destruct R as (m2 & Hr2 & Hb2 & R).
  set (k := e1 - e') in *.
  assert (Hk : 0 <= k) by (unfold k; lia).
  assert (Pk : 0 < 2 ^ k) by (apply Z.pow_pos_nonneg; lia).
  assert (Sc : scaled (binary_round_aux Double.prec Double.emax false q e'
                         (new_location (Zpos my) r))
               = m2 * 2 ^ (e1 + places) /\
               in_range (binary_round_aux Double.prec Double.emax false q e'
                           (new_location (Zpos my) r)) 1).
  { assert (P1 : 0 < 2 ^ (e1 + places)) by (apply Z.pow_pos_nonneg; lia).
    assert (Eo : 2 ^ (- e1) * 2 ^ (e1 + places) = 1 * 2 ^ places).
    { rewrite <- Z.pow_add_r by lia. rewrite Z.mul_1_l. f_equal. lia. }
    destruct (binary_round_aux Double.prec Double.emax false q e'
                (new_location (Zpos my) r)) as [s0|s0| |s0 m e];
      try contradiction.
    - destruct R as [-> ->]. split; reflexivity.
    - destruct R as (-> & Hb & Hge & <-). cbn [scaled cond_Zopp in_range].
      assert (E : Zpos m * 2 ^ (e + places)
                  = Zpos m * 2 ^ (e - e1) * 2 ^ (e1 + places)).
      { rewrite <- Z.mul_assoc, <- Z.pow_add_r by lia.
        f_equal. f_equal. lia. }
      split; [exact E|]. repeat split; auto.
      rewrite E, <- Eo. apply Z.mul_le_mono_nonneg_r; lia. }
  destruct Sc as [Sc Hin]. split; [exact Hin|]. rewrite Sc.
  (* the neighbours of the quotient, at the exponent of the format *)
  pose proof (Z.div_mod q (2 ^ k) ltac:(lia)) as Dv.
  pose proof (Z.mod_pos_bound q (2 ^ k) Pk) as Mv.
  set (m1 := q / 2 ^ k) in *.
  set (A := 2 ^ k * Zpos my).
  assert (PA : 0 < A) by (unfold A; lia).
  assert (Lo : m1 * A <= m').
  { assert (m1 * 2 ^ k <= q) by lia.
    assert (m1 * 2 ^ k * Zpos my <= q * Zpos my)
      by (apply Z.mul_le_mono_nonneg_r; lia).
    unfold A. lia. }
  assert (Hi : m' < (m1 + 1) * A).
  { assert (q + 1 <= (m1 + 1) * 2 ^ k) by lia.
    assert ((q + 1) * Zpos my <= (m1 + 1) * 2 ^ k * Zpos my)
      by (apply Z.mul_le_mono_nonneg_r; lia).
    unfold A. lia. }
  assert (Dm : - A <= m2 * A - m' <= A).
  { clear - Lo Hi Hr2 PA. fold m1 in Hr2.
    assert (C : m2 = m1 \/ m2 = m1 + 1) by lia.
    destruct C as [->| ->]; lia. }
  (* both sides in units of [2^(-1074 + ey)] *)
  set (F := 2 ^ (e' + places)).
  assert (PF : 0 < F) by (apply Z.pow_pos_nonneg; lia).
  assert (Pn : 0 < 2 ^ (- ey)) by (apply Z.pow_pos_nonneg; lia).
  assert (E1' : 2 ^ (e1 + places) = 2 ^ k * F).
  { unfold F. rewrite <- Z.pow_add_r by lia. f_equal. unfold k. lia. }
  assert (Ex' : Zpos mx * 2 ^ (ex + places) * 2 ^ (- ey) = m' * F).
  { unfold F. rewrite Em', <- !Z.mul_assoc, <- !Z.pow_add_r by lia.
    f_equal. f_equal. unfold s. lia. }
  assert (Le : 2 ^ (e1 + places) <= 2 ^ (places - 52))
    by (apply Z.pow_le_mono_r; lia).
  assert (G : (m2 * 2 ^ (e1 + places) * N - Zpos mx * 2 ^ (ex + places))
              * 2 ^ (- ey) = (m2 * A - m') * F).
  { rewrite Z.mul_sub_distr_r, Ex', E1'. unfold A. rewrite Hmy. ring. }
  assert (GA : N * 2 ^ (e1 + places) * 2 ^ (- ey) = A * F).
  { rewrite E1'. unfold A. rewrite Hmy. ring. }
  assert (G1 : - (A * F) <= (m2 * A - m') * F <= A * F).
  { clear - Dm PF. split.
    - replace (- (A * F)) with (- A * F) by ring.
      apply Z.mul_le_mono_nonneg_r; lia.
    - apply Z.mul_le_mono_nonneg_r; lia. }
  assert (G2 : N * 2 ^ (e1 + places) <= N * 2 ^ (places - 52))
    by (apply Z.mul_le_mono_nonneg_l; lia).
  rewrite <- G, <- GA in G1.
  apply Z.abs_le. split.
  - apply (mul_pow2_le_inv _ _ (- ey)); [lia|].
    eapply Z.le_trans; [|apply G1].
    replace (- (N * 2 ^ (places - 52)) * 2 ^ (- ey))
      with (- (N * 2 ^ (places - 52) * 2 ^ (- ey))) by ring.
    apply Z.opp_le_mono. rewrite !Z.opp_involutive.
    apply Z.mul_le_mono_nonneg_r; lia.
  - apply (mul_pow2_le_inv _ _ (- ey)); [lia|].
    eapply Z.le_trans; [apply G1|].
    apply Z.mul_le_mono_nonneg_r; lia.
Qed.

Lemma div_in_range (x : double) (N : Z) :
  0 < N < 2 ^ 53 -> in_range x N ->
  in_range (Double.div x (Double.of_int N)) 1.
Proof. intros HN Hx. apply (div_spec x N HN Hx). Qed.

Lemma div_close (x : double) (N : Z) :
  0 < N < 2 ^ 53 -> in_range x N ->
  Z.abs (scaled (Double.div x (Double.of_int N)) * N - scaled x)
    <= N * 2 ^ (places - 52).
Proof. intros HN Hx. apply (div_spec x N HN Hx). Qed.
(** ** The brightness of a surface *)

Lemma channel_range (b : byte) : 0 <= channel b <= 255.
Proof.
  unfold channel. pose proof (Byte.to_N_bounded b). lia.
Qed.

Lemma pixel_term_term_of (p : Pixel) :
  pixel_term p = term_of (channel (red p) + channel (green p) + channel (blue p)).
Proof. reflexivity. Qed.

(** Each of the 766 possible terms is a valid double between 0 and 1. *)
Lemma term_of_in_range (k : Z) : 0 <= k <= 765 -> in_range (term_of k) 1.
Proof.
  intros Hk.
  assert (H : forallb (fun n => in_rangeb (term_of (Z.of_nat n)) 1)
                (seq 0 766) = true) by (vm_compute; reflexivity).
  rewrite forallb_forall in H.
  specialize (H (Z.to_nat k)). rewrite Z2Nat.id in H by lia.
  apply in_rangeb_spec, H, in_seq. lia.
Qed.

Lemma pixel_term_in_range (p : Pixel) : in_range (pixel_term p) 1.
Proof.
  rewrite pixel_term_term_of. apply term_of_in_range.
  pose proof (channel_range (red p)). pose proof (channel_range (green p)).
  pose proof (channel_range (blue p)). lia.
Qed.

Lemma pixel_loop_in_range (s : Surface8u) (y : Z) (n : nat) :
  forall (x : Z) (acc : double) (j : Z),
    0 <= j -> j + Z.of_nat n < 2 ^ 53 -> in_range acc j ->
    in_range (pixel_loop s y n x acc) (j + Z.of_nat n).
Proof.
  induction n as [|n IH]; intros x acc j Hj Hn Ha.
  - simpl. rewrite Z.add_0_r. exact Ha.
  - cbn [pixel_loop].
    replace (j + Z.of_nat (S n)) with (j + 1 + Z.of_nat n) by lia.
    apply IH; [lia|lia|].
    apply add_in_range; [lia|lia|lia|exact Ha|apply pixel_term_in_range].
Qed.

Lemma line_loop_in_range (s : Surface8u) (n : nat) :
  forall (y : Z) (acc : double) (j : Z),
    0 <= j ->
    j + Z.of_nat n * Z.of_nat (Z.to_nat (getWidth s)) < 2 ^ 53 ->
    in_range acc j ->
    in_range (line_loop s n y acc)
      (j + Z.of_nat n * Z.of_nat (Z.to_nat (getWidth s))).
Proof.
  induction n as [|n IH]; intros y acc j Hj Hn Ha.
  - simpl. rewrite Z.add_0_r. exact Ha.
  - cbn [line_loop].
    set (w := Z.of_nat (Z.to_nat (getWidth s))) in *.
    assert (0 <= w) by (unfold w; lia).
    replace (j + Z.of_nat (S n) * w) with (j + w + Z.of_nat n * w) by lia.
    apply IH; [lia|lia|].
    apply pixel_loop_in_range; [lia|nia|exact Ha].
Qed.

Lemma pixel_loop_fold (s : Surface8u) (y : Z) (n : nat) :
  forall (x : Z) (acc : double),
    pixel_loop s y n x acc =
    fold_left Double.add
      (map pixel_term
         (map (fun i => getPixel s (x + Z.of_nat i) y) (seq 0 n)))
      acc.
Proof.
  induction n as [|n IH]; intros x acc.
  - reflexivity.
  - cbn [pixel_loop]. rewrite IH.
    change (seq 0 (S n)) with (0%nat :: seq 1 n). cbn [map fold_left].
    change (Z.of_nat 0) with 0. rewrite Z.add_0_r. f_equal. f_equal.
    rewrite <- seq_shift, map_map. apply map_ext. intros i.
    f_equal. lia.
Qed.

Lemma line_loop_fold (s : Surface8u) (n : nat) :
  forall (y : Z) (acc : double),
    line_loop s n y acc =
    fold_left Double.add
      (map pixel_term
         (flat_map
            (fun j => map (fun i => getPixel s (Z.of_nat i) (y + Z.of_nat j))
                        (seq 0 (Z.to_nat (getWidth s))))
            (seq 0 n)))
      acc.
Proof.
  induction n as [|n IH]; intros y acc.
  - reflexivity.
  - cbn [line_loop]. rewrite IH, pixel_loop_fold.
    change (seq 0 (S n)) with (0%nat :: seq 1 n). cbn [flat_map].
    rewrite map_app, fold_left_app.
    change (Z.of_nat 0) with 0. rewrite Z.add_0_r. f_equal. f_equal.
    rewrite <- seq_shift, !flat_map_concat_map, map_map.
    f_equal. apply map_ext. intros j.
    apply map_ext. intros i. f_equal. lia.
Qed.

Lemma pixels_of_length (s : Surface8u) :
  0 <= getWidth s -> 0 <= getHeight s ->
  Z.of_nat (List.length (pixels_of s)) = getWidth s * getHeight s.
Proof.
  intros Hw Hh. unfold pixels_of.
  assert (L : forall n st,
    List.length
      (flat_map
         (fun y => map (fun x => getPixel s (Z.of_nat x) (Z.of_nat y))
                     (seq 0 (Z.to_nat (getWidth s))))
         (seq st n)) = (n * Z.to_nat (getWidth s))%nat).
  { induction n as [|n IH]; intros st.
    - reflexivity.
    - cbn [seq flat_map]. rewrite length_app, length_map, length_seq, IH.
      reflexivity. }
  rewrite L. lia.
Qed.

Lemma surface_brightness_as_mean (s : Surface8u) :
  0 <= getWidth s -> 0 <= getHeight s ->
  surface_brightness s = mean_brightness (pixels_of s).
Proof.
  intros Hw Hh. unfold surface_brightness, mean_brightness.
  rewrite pixels_of_length by assumption.
  rewrite line_loop_fold. reflexivity.
Qed.

Lemma in_range_one_leb (x : double) :
  in_range x 1 ->
  Double.leb Double.zero x = true /\ Double.leb x Double.one = true.
Proof.
  pose proof places_eq as HK.
  destruct x as [s|s| |s m e]; try contradiction; cbn [in_range].
  - intros ->. split; reflexivity.
  - intros (-> & Hb & Hle). split; [reflexivity|].
    destruct (bounded_exponent m e Hb) as [He _].
    pose proof (Zdigits2_bounds (Zpos m) ltac:(lia)) as [L U].
    simpl Zdigits2 in L, U.
    assert (P : 0 < 2 ^ (e + places)) by (apply Z.pow_pos_nonneg; lia).
    assert (Hd : Zpos (digits2_pos m) + e <= 1).
    { assert (H : 2 ^ (Zpos (digits2_pos m) - 1) * 2 ^ (e + places)
                  < 2 ^ 1 * 2 ^ places) by (change (2 ^ 1) with 2; nia).
      rewrite <- !Z.pow_add_r in H by lia. apply pow2_lt_inv in H; lia. }
    unfold Double.leb, SFleb, Double.one, SFcompare.
    destruct (Z.compare_spec e (-52)) as [E|E|E]; [|reflexivity|lia].
    subst e. assert (D : Zpos (digits2_pos m) = 53) by lia.
    rewrite D in L. change (2 ^ (53 - 1)) with 4503599627370496 in L.
    assert (Zpos m <= 4503599627370496).
    { apply (mul_pow2_le_inv _ _ (-52 + places)); [lia|].
      change 4503599627370496 with (2 ^ 52).
      rewrite <- Z.pow_add_r by lia.
      replace (52 + (-52 + places)) with places by lia. lia. }
    assert (Em : m = 4503599627370496%positive) by lia.
    subst m. reflexivity.
Qed.

Lemma surface_brightness_in_range (s : Surface8u) :
  0 < getWidth s -> 0 < getHeight s -> getWidth s * getHeight s < 2 ^ 31 ->
  in_range (surface_brightness s) 1.
Proof.
  intros Hw Hh Ha. unfold surface_brightness.
  apply div_in_range.
  - split; [nia|]. change (2 ^ 53) with (2 ^ 31 * 4194304). lia.
  - pose proof (line_loop_in_range s (Z.to_nat (getHeight s)) 0 Double.zero 0)
      as H.
    rewrite !Z2Nat.id, Z.add_0_l in H by lia.
    rewrite (Z.mul_comm (getWidth s)). apply H; [lia| |reflexivity].
    change (2 ^ 53) with (2 ^ 31 * 4194304). lia.
Qed.

Lemma intensity_rgb (p q : Pixel) :
  red p = red q -> green p = green q -> blue p = blue q ->
  intensity p = intensity q.
Proof. unfold intensity. intros -> -> ->. reflexivity. Qed.

(** ** [predict] *)

Lemma predict_first_frame (e : double) (total : Z) :
  0 < total < 2 ^ 31 ->
  predict e 0 total =
  Double.mul (Double.div e Double.zero) Double.one.
Proof.
  intros Ht. unfold predict.
  destruct (of_int_pos total) as (m & ex & -> & _).
  { split; [lia|]. change (2 ^ 53) with (2 ^ 31 * 4194304). lia. }
  reflexivity.
Qed.

(** C9, as the program has it.  [predict] evaluates [(e / r) * (1 - r)]
    with [r = (double) index / (double) total] in double arithmetic.  For
    [index = 0] and [total > 0] the ratio is 0 and the result is plus
    infinity when the elapsed time is above 0, and NaN when it is 0. *)
Theorem predict_spec :
  (forall (e : double) (index total : Z),
     predict e index total =
     Double.mul
       (Double.div e (Double.div (Double.of_int index) (Double.of_int total)))
       (Double.sub (Double.of_int 1)
          (Double.div (Double.of_int index) (Double.of_int total)))) /\
  (forall (e : double) (total : Z),
     0 < total < 2 ^ 31 -> Double.ltb Double.zero e = true ->
     predict e 0 total = Double.pinf) /\
  (forall total : Z,
     0 < total < 2 ^ 31 -> predict Double.zero 0 total = Double.nan).
Proof.
  split; [reflexivity|]. split.
  - intros e total Ht He. rewrite (predict_first_frame e total Ht).
    destruct e as [s|s| |s m ex]; try destruct s; try discriminate;
      reflexivity.
  - intros total Ht. rewrite (predict_first_frame _ total Ht). reflexivity.
Qed.

Lemma predict_spec_witness :
  predict (decimal 3 2) 0 10 = Double.pinf /\
  predict Double.zero 0 10 = Double.nan.
Proof.
  destruct predict_spec as (_ & Hinf & Hnan). split.
  - apply Hinf; [split; reflexivity|reflexivity].
  - apply Hnan. split; reflexivity.
Defined.

(** With no time elapsed the prediction for the first frame is not plus
    infinity: [0.0 / 0.0] is NaN. *)
Lemma predict_zero_elapsed :
  Double.leb Double.zero Double.zero = true /\
  predict Double.zero 0 10 = Double.nan /\
  predict Double.zero 0 10 <> Double.pinf.
Proof.
  split; [reflexivity|]. split; [reflexivity|]. vm_compute. discriminate.
Qed.

(** The order of the operations shows: for one second elapsed at frame 1
    of 3 the program's [(e / r) * (1 - r)] is 2, whereas [e * (1 - r) / r]
    is the next double above 2. *)
Lemma predict_association :
  let r := Double.div (Double.of_int 1) (Double.of_int 3) in
  predict Double.one 1 3 = Double.of_int 2 /\
  Double.div (Double.mul Double.one (Double.sub Double.one r)) r
    = S754_finite false 4503599627370497 (-51).
Proof. split; vm_compute; reflexivity. Qed.

(** ** The text of the sidecar *)

Ltac digit_cases d :=
  let H := fresh in
  assert (H : d = 0 \/ d = 1 \/ d = 2 \/ d = 3 \/ d = 4 \/
              d = 5 \/ d = 6 \/ d = 7 \/ d = 8 \/ d = 9) by lia;
  repeat (destruct H as [H|H]; [rewrite H|]); [..|rewrite H].

Lemma digit_char_is_digit (d : Z) :
  0 <= d <= 9 ->
  Text.is_digit (Text.digit_char d) = true /\
  Text.digit_val (Text.digit_char d) = d /\
  Text.is_space (Text.digit_char d) = false.
Proof. intros Hd. digit_cases d; repeat split. Qed.

Lemma scan_digits_digit (d : Z) (s : string) (acc : Z) (count : nat) :
  0 <= d <= 9 ->
  Text.scan_digits (String (Text.digit_char d) s) acc count =
  Text.scan_digits s (10 * acc + d) (S count).
Proof.
  intros Hd. destruct (digit_char_is_digit d Hd) as (H1 & H2 & _).
  cbn [Text.scan_digits]. rewrite H1, H2. reflexivity.
Qed.

Lemma scan_digits_end (s : string) (acc : Z) (count : nat) :
  ends_number s -> Text.scan_digits s acc count = (acc, count, s).
Proof.
  destruct s as [|c s]; simpl; intros H; [reflexivity|].
  rewrite H. reflexivity.
Qed.

Lemma mod10_range (n : Z) : 0 <= n mod 10 <= 9.
Proof. pose proof (Z.mod_pos_bound n 10). lia. Qed.

(** Scanning what [print_digits] has printed continues the number. *)
Lemma scan_print_digits (fuel : nat) :
  forall (n : Z) (tail : string),
    0 <= n < 2 ^ Z.of_nat fuel -> (0 < fuel)%nat ->
    exists d : nat,
      (0 < d)%nat /\
      forall (acc : Z) (count : nat),
        Text.scan_digits (Text.print_digits fuel n tail) acc count =
        Text.scan_digits tail (acc * 10 ^ Z.of_nat d + n) (count + d).
Proof.
  induction fuel as [|fuel IH]; intros n tail Hn Hf; [lia|].
  cbn [Text.print_digits].
  destruct (Z.ltb_spec n 10) as [L|L].
  - exists 1%nat. split; [lia|]. intros acc count.
    rewrite Z.mod_small by lia. rewrite scan_digits_digit by lia.
    f_equal; [|lia]. change (10 ^ Z.of_nat 1) with 10. lia.
  - assert (Hfuel : (0 < fuel)%nat).
    { destruct fuel; [|lia]. simpl in Hn. lia. }
    destruct (IH (n / 10)
                (String (Text.digit_char (n mod 10)) tail)) as (d & Hd & E).
    { rewrite Nat2Z.inj_succ, Z.pow_succ_r in Hn by lia.
      split; [apply Z.div_pos; lia|].
      apply Z.div_lt_upper_bound; lia. }
    { exact Hfuel. }
    exists (S d). split; [lia|]. intros acc count.
    rewrite E, scan_digits_digit by apply mod10_range.
    f_equal; [|lia].
    rewrite Nat2Z.inj_succ, Z.pow_succ_r by lia.
    pose proof (Z.div_mod n 10 ltac:(lia)). lia.
Qed.

Lemma print_nat_fuel (n : Z) :
  0 <= n -> 0 <= n < 2 ^ Z.of_nat (S (Z.to_nat (Z.log2 n))).
Proof.
  intros Hn. split; [exact Hn|].
  rewrite Nat2Z.inj_succ, Z2Nat.id by apply Z.log2_nonneg.
  destruct (Z.eq_dec n 0) as [->|N]; [reflexivity|].
  apply Z.log2_spec. lia.
Qed.

Lemma scan_print_nat (n : Z) (tail : string) :
  0 <= n ->
  exists d : nat,
    (0 < d)%nat /\
    forall (acc : Z) (count : nat),
      Text.scan_digits (Text.print_nat n tail) acc count =
      Text.scan_digits tail (acc * 10 ^ Z.of_nat d + n) (count + d).
Proof.
  intros Hn. apply scan_print_digits; [apply print_nat_fuel, Hn|lia].
Qed.

(** What is printed for a number starts with a digit. *)
Lemma print_digits_head (fuel : nat) :
  forall (n : Z) (tail : string),
    (0 < fuel)%nat ->
    exists (d : Z) (rest : string),
      0 <= d <= 9 /\
      Text.print_digits fuel n tail = String (Text.digit_char d) rest.
Proof.
  induction fuel as [|fuel IH]; intros n tail Hf; [lia|].
  cbn [Text.print_digits]. destruct (n <? 10).
  - exists (n mod 10), tail. split; [apply mod10_range|reflexivity].
  - destruct fuel as [|fuel].
    + exists (n mod 10), tail. split; [apply mod10_range|reflexivity].
    + apply IH. lia.
Qed.

Lemma print_nat_head (n : Z) (tail : string) :
  exists (d : Z) (rest : string),
    0 <= d <= 9 /\ Text.print_nat n tail = String (Text.digit_char d) rest.
Proof. apply print_digits_head. lia. Qed.

Lemma scan_sign_digit (d : Z) (rest : string) :
  0 <= d <= 9 ->
  Text.scan_sign (String (Text.digit_char d) rest) =
  (false, String (Text.digit_char d) rest).
Proof. intros Hd. digit_cases d; reflexivity. Qed.

(** ["%d"] reads back what ["%d"] has printed. *)
Lemma scan_d_print_d (n : Z) (tail : string) :
  ends_number tail -> Text.scan_d (Text.print_d n tail) = Some (n, tail).
Proof.
  intros Ht. unfold Text.scan_d, Text.print_d.
  destruct (Z.ltb_spec n 0) as [L|L].
  - cbn [Text.scan_sign].
    destruct (scan_print_nat (- n) tail ltac:(lia)) as (d & Hd & E).
    rewrite E, scan_digits_end by exact Ht.
    destruct (0 + d)%nat eqn:Ed; [lia|]. f_equal. f_equal. lia.
  - destruct (print_nat_head n tail) as (c & rest & Hc & Eh).
    rewrite Eh, scan_sign_digit by exact Hc. rewrite <- Eh.
    destruct (scan_print_nat n tail L) as (d & Hd & E).
    rewrite E, scan_digits_end by exact Ht.
    destruct (0 + d)%nat eqn:Ed; [lia|]. f_equal.
Qed.

(** The six digits of the fraction, read after the integer part. *)
Lemma scan_six_digits (f ip : Z) (tail : string) :
  0 <= f < 1000000 -> ends_number tail ->
  Text.scan_digits
    (String (Text.digit_char (f / 100000 mod 10))
    (String (Text.digit_char (f / 10000 mod 10))
    (String (Text.digit_char (f / 1000 mod 10))
    (String (Text.digit_char (f / 100 mod 10))
    (String (Text.digit_char (f / 10 mod 10))
    (String (Text.digit_char (f mod 10)) tail)))))) ip O =
  (ip * 1000000 + f, 6%nat, tail).
Proof.
  intros Hf Ht.
  rewrite !scan_digits_digit by apply mod10_range.
  rewrite scan_digits_end by exact Ht.
  f_equal. f_equal.
  replace (f / 100) with (f / 10 / 10)
    by (rewrite !Z.div_div by lia; reflexivity).
  replace (f / 1000) with (f / 10 / 10 / 10)
    by (rewrite !Z.div_div by lia; reflexivity).
  replace (f / 10000) with (f / 10 / 10 / 10 / 10)
    by (rewrite !Z.div_div by lia; reflexivity).
  replace (f / 100000) with (f / 10 / 10 / 10 / 10 / 10)
    by (rewrite !Z.div_div by lia; reflexivity).
  set (q1 := f / 10). set (q2 := q1 / 10). set (q3 := q2 / 10).
  set (q4 := q3 / 10). set (q5 := q4 / 10).
  pose proof (Z.div_mod f 10 ltac:(lia)) as E0.
  pose proof (Z.div_mod q1 10 ltac:(lia)) as E1.
  pose proof (Z.div_mod q2 10 ltac:(lia)) as E2.
  pose proof (Z.div_mod q3 10 ltac:(lia)) as E3.
  pose proof (Z.div_mod q4 10 ltac:(lia)) as E4.
  pose proof (Z.div_mod q5 10 ltac:(lia)) as E5.
  pose proof (mod10_range f). pose proof (mod10_range q1).
  pose proof (mod10_range q2). pose proof (mod10_range q3).
  pose proof (mod10_range q4). pose proof (mod10_range q5).
  fold q1 in E0. fold q2 in E1. fold q3 in E2. fold q4 in E3. fold q5 in E4.
  assert (0 <= q5 / 10).
  { apply Z.div_pos; [|lia]. unfold q5, q4, q3, q2, q1.
    repeat (apply Z.div_pos; [|lia]). lia. }
  lia.
Qed.

Lemma millionths_nonneg (m : positive) (e : Z) : 0 <= Text.millionths m e.
Proof.
  unfold Text.millionths. destruct (Z.leb_spec 0 e).
  - apply Z.mul_nonneg_nonneg; [|lia].
    apply Z.mul_nonneg_nonneg; [lia|]. apply Z.pow_nonneg. lia.
  - assert (P : 0 < 2 ^ (- e)) by (apply Z.pow_pos_nonneg; lia).
    assert (Q : 0 <= Zpos m * 1000000 / 2 ^ (- e)) by (apply Z.div_pos; lia).
    destruct (_ ?= _); [destruct (Z.even _)| |]; lia.
Qed.

(** ["%f"] reads back the numeral that ["%f"] has printed for [n]
    millionths. *)
Lemma scan_f_print_fixed (n : Z) (tail : string) :
  0 <= n -> ends_number tail ->
  Text.scan_f (Text.print_fixed n tail) =
    Some (Single.of_decimal false (Z.to_N n) 6, tail) /\
  Text.scan_f (String "-" (Text.print_fixed n tail)) =
    Some (Single.of_decimal true (Z.to_N n) 6, tail).
Proof.
  intros Hn Ht.
  assert (Hq : 0 <= n / 1000000) by (apply Z.div_pos; lia).
  assert (Hr : 0 <= n mod 1000000 < 1000000) by (apply Z.mod_pos_bound; lia).
  assert (Main : forall neg : bool,
    (let '(ip, ni, s2) :=
       Text.scan_digits (Text.print_fixed n tail) 0 O in
     match s2 with
     | String "." s3 =>
         let '(d, nf, s4) := Text.scan_digits s3 ip O in
         match ni, nf with
         | O, O => None
         | _, _ => Some (Single.of_decimal neg (Z.to_N d) nf, s4)
         end
     | _ =>
         match ni with
         | O => None
         | S _ => Some (Single.of_decimal neg (Z.to_N ip) O, s2)
         end
     end) = Some (Single.of_decimal neg (Z.to_N n) 6, tail)).
  { intros neg. unfold Text.print_fixed.
    destruct (scan_print_nat (n / 1000000)
      (String "."
        (String (Text.digit_char (n mod 1000000 / 100000 mod 10))
        (String (Text.digit_char (n mod 1000000 / 10000 mod 10))
        (String (Text.digit_char (n mod 1000000 / 1000 mod 10))
        (String (Text.digit_char (n mod 1000000 / 100 mod 10))
        (String (Text.digit_char (n mod 1000000 / 10 mod 10))
        (String (Text.digit_char (n mod 1000000 mod 10)) tail)))))))
      Hq) as (d & Hd & E).
    rewrite E, scan_digits_end by reflexivity.
    rewrite scan_six_digits by assumption.
    replace ((0 * 10 ^ Z.of_nat d + n / 1000000) * 1000000 + n mod 1000000)
      with n by (pose proof (Z.div_mod n 1000000 ltac:(lia)); lia).
    destruct (0 + d)%nat; reflexivity. }
  destruct (print_nat_head (n / 1000000)
      (String "."
        (String (Text.digit_char (n mod 1000000 / 100000 mod 10))
        (String (Text.digit_char (n mod 1000000 / 10000 mod 10))
        (String (Text.digit_char (n mod 1000000 / 1000 mod 10))
        (String (Text.digit_char (n mod 1000000 / 100 mod 10))
        (String (Text.digit_char (n mod 1000000 / 10 mod 10))
        (String (Text.digit_char (n mod 1000000 mod 10)) tail))))))))
    as (c & rest & Hc & Eh).
  assert (Eh' : Text.print_fixed n tail = String (Text.digit_char c) rest)
    by exact Eh.
  split.
  - specialize (Main false). unfold Text.scan_f.
    rewrite Eh' in Main |- *. rewrite scan_sign_digit by exact Hc.
    revert Main. digit_cases c; intros Main; exact Main.
  - specialize (Main true). unfold Text.scan_f. cbn [Text.scan_sign].
    rewrite Eh' in Main |- *.
    revert Main. digit_cases c; intros Main; exact Main.
Qed.

(** ["%f"] into a [float] reads back what ["%f"] has printed for a
    double: the value of [reread], before it is widened again. *)
Lemma scan_f_print_f (x : double) (tail : string) :
  ends_number tail ->
  exists f : spec_float,
    Text.scan_f (Text.print_f x tail) = Some (f, tail) /\
    Single.to_double f = reread x.
Proof.
  intros Ht. destruct x as [s|s| |s m e]; unfold Text.print_f, reread.
  - destruct (scan_f_print_fixed 0 tail ltac:(lia) Ht) as [Hp Hm].
    destruct s; cbn [Text.print_sign]; eexists; split; eauto.
  - destruct s; eexists; split; reflexivity.
  - eexists; split; reflexivity.
  - destruct (scan_f_print_fixed (Text.millionths m e) tail
                (millionths_nonneg m e) Ht) as [Hp Hm].
    destruct s; cbn [Text.print_sign]; eexists; split; eauto.
Qed.

Lemma print_f_head (x : double) (tail : string) :
  exists (c : ascii) (rest : string),
    Text.print_f x tail = String c rest /\ Text.is_space c = false.
Proof.
  assert (F : forall n, exists c rest,
            Text.print_fixed n tail = String c rest /\
            Text.is_space c = false).
  { intros n. unfold Text.print_fixed.
    destruct (print_nat_head (n / 1000000)
      (String "."
        (String (Text.digit_char (n mod 1000000 / 100000 mod 10))
        (String (Text.digit_char (n mod 1000000 / 10000 mod 10))
        (String (Text.digit_char (n mod 1000000 / 1000 mod 10))
        (String (Text.digit_char (n mod 1000000 / 100 mod 10))
        (String (Text.digit_char (n mod 1000000 / 10 mod 10))
        (String (Text.digit_char (n mod 1000000 mod 10)) tail))))))))
      as (c & rest & Hc & Eh).
    exists (Text.digit_char c), rest. split; [exact Eh|].
    apply digit_char_is_digit, Hc. }
  destruct x as [s|s| |s m e]; unfold Text.print_f.
  - destruct s; cbn [Text.print_sign]; [do 2 eexists; split; reflexivity|].
    apply F.
  - destruct s; do 2 eexists; split; reflexivity.
  - do 2 eexists; split; reflexivity.
  - destruct s; cbn [Text.print_sign]; [do 2 eexists; split; reflexivity|].
    apply F.
Qed.

Lemma print_d_head (n : Z) (tail : string) :
  exists (c : ascii) (rest : string),
    Text.print_d n tail = String c rest /\ Text.is_space c = false.
Proof.
  unfold Text.print_d. destruct (n <? 0).
  - do 2 eexists; split; reflexivity.
  - destruct (print_nat_head n tail) as (c & rest & Hc & Eh).
    exists (Text.digit_char c), rest. split; [exact Eh|].
    apply digit_char_is_digit, Hc.
Qed.

Lemma skip_space_head (c : ascii) (rest : string) :
  Text.is_space c = false ->
  Text.skip_space (String c rest) = String c rest.
Proof. intros H. cbn [Text.skip_space]. rewrite H. reflexivity. Qed.

(** One call of [fscanf] on a line that [fprintf] has written. *)
Lemma fscanf_print_record (r : FrameData) (tail : string) :
  exists f : spec_float,
    Text.fscanf_d_f (print_record r tail) =
      Text.Scanned (mIndex r) f (String "010" tail) /\
    Single.to_double f = reread (mBrightness r).
Proof.
  unfold print_record, Text.fscanf_d_f.
  destruct (print_d_head (mIndex r)
              (String "," (Text.print_f (mBrightness r) (String "010" tail))))
    as (c & rest & Eh & Hc).
  destruct (scan_f_print_f (mBrightness r) (String "010" tail) eq_refl)
    as (f & Ef & Er).
  exists f. split; [|exact Er].
  rewrite Eh, skip_space_head by exact Hc. rewrite <- Eh.
  rewrite scan_d_print_d by reflexivity.
  destruct (print_f_head (mBrightness r) (String "010" tail))
    as (c' & rest' & Eh' & Hc').
  rewrite Eh', skip_space_head by exact Hc'. rewrite <- Eh', Ef.
  reflexivity.
Qed.

Lemma fscanf_newline (s : string) :
  Text.fscanf_d_f (String "010" s) = Text.fscanf_d_f s.
Proof. reflexivity. Qed.

Lemma load_loop_newline (fuel : nat) (s : string) (data : list FrameData) :
  load_loop fuel (String "010" s) data = load_loop fuel s data.
Proof. destruct fuel; [reflexivity|]. cbn [load_loop]. rewrite fscanf_newline. reflexivity. Qed.

(** The loop of [loadBrightnessFile] on the text of a table, given enough
    fuel: one record per line, in the order of the lines. *)
Lemma load_loop_print_table (t : list FrameData) :
  forall (fuel : nat) (data : list FrameData),
    (List.length t < fuel)%nat ->
    load_loop fuel (print_table t) data =
    Some (data ++ map reread_record t).
Proof.
  induction t as [|r t IH]; intros fuel data Hf.
  - destruct fuel; [simpl in Hf; lia|]. simpl. rewrite app_nil_r. reflexivity.
  - destruct fuel as [|fuel]; [simpl in Hf; lia|].
    cbn [load_loop print_table fold_right].
    destruct (fscanf_print_record r (fold_right print_record EmptyString t))
      as (f & E & Er).
    rewrite E, load_loop_newline.
    fold (print_table t). rewrite IH by (simpl in Hf; lia).
    rewrite <- app_assoc. f_equal. f_equal. cbn [map app]. f_equal.
    unfold reread_record. rewrite Er. reflexivity.
Qed.

Lemma print_digits_length (fuel : nat) :
  forall (n : Z) (tail : string),
    (String.length tail <= String.length (Text.print_digits fuel n tail))%nat.
Proof.
  induction fuel as [|fuel IH]; intros n tail; cbn [Text.print_digits].
  - lia.
  - destruct (n <? 10).
    + simpl. lia.
    + eapply Nat.le_trans; [|apply IH]. simpl. lia.
Qed.

Lemma print_d_length (n : Z) (tail : string) :
  (String.length tail <= String.length (Text.print_d n tail))%nat.
Proof.
  unfold Text.print_d, Text.print_nat. destruct (n <? 0).
  - cbn [String.length].
    pose proof (print_digits_length (S (Z.to_nat (Z.log2 (- n)))) (- n) tail).
    lia.
  - apply print_digits_length.
Qed.

Lemma print_f_length (x : double) (tail : string) :
  (String.length tail <= String.length (Text.print_f x tail))%nat.
Proof.
  assert (F : forall n,
            (String.length tail
             <= String.length (Text.print_fixed n tail))%nat).
  { intros n. unfold Text.print_fixed, Text.print_nat.
    eapply Nat.le_trans; [|apply print_digits_length].
    cbn [String.length]. lia. }
  destruct x as [s|s| |s m e]; unfold Text.print_f, Text.print_sign.
  - destruct s; cbn [String.length]; [|apply F].
    pose proof (F 0). lia.
  - destruct s; simpl; lia.
  - simpl. lia.
  - destruct s; cbn [String.length]; [|apply F].
    pose proof (F (Text.millionths m e)). lia.
Qed.

Lemma print_record_length (r : FrameData) (tail : string) :
  (S (String.length tail) <= String.length (print_record r tail))%nat.
Proof.
  unfold print_record.
  eapply Nat.le_trans; [|apply print_d_length]. cbn [String.length].
  pose proof (print_f_length (mBrightness r) (String "010" tail)) as H.
  cbn [String.length] in H. lia.
Qed.

Lemma print_table_length (t : list FrameData) :
  (List.length t <= String.length (print_table t))%nat.
Proof.
  induction t as [|r t IH]; simpl; [lia|].
  pose proof (print_record_length r (print_table t)). unfold print_table in *.
  lia.
Qed.

(** C6, as the program has it.  [loadBrightnessFile] on the sidecar that
    [sortMovie] has written for a table appends the records of that table
    in the written order and with the written indices; each brightness
    comes back as its numeral of six decimals read into a [float]. *)
Theorem sidecar_round_trip (a a0 : LuminOrderApp) :
  offsets_txt a0 = offsets_txt (snd (sortMovie a)) ->
  loadBrightnessFile a0 =
    Some (with_mFrameData
            (mFrameData a0 ++ map reread_record (mFrameData (snd (sortMovie a))))
            a0) /\
  map mIndex (map reread_record (mFrameData (snd (sortMovie a)))) =
    map mIndex (mFrameData (snd (sortMovie a))).
Proof.
  intros H. split.
  - unfold loadBrightnessFile. rewrite H, sortMovie_eq. cbn [snd offsets_txt
      with_offsets_txt mFrameData with_mFrameIndex with_mSorted with_mFrameData].
    rewrite load_loop_print_table; [reflexivity|].
    pose proof (print_table_length
                  (std_sort FrameBrightnessSort (mFrameData a))). lia.
  - rewrite map_map. reflexivity.
Qed.

Lemma sidecar_round_trip_witness :
  option_map mFrameData
    (loadBrightnessFile
       (setup None
          (offsets_txt
             (snd (sortMovie (with_mFrameData sample_table
                                (setup None None None)))))
          None)) =
  Some (map reread_record
          (mFrameData
             (snd (sortMovie (with_mFrameData sample_table
                                (setup None None None)))))).
Proof.
  destruct (sidecar_round_trip
              (with_mFrameData sample_table (setup None None None))
              (setup None
                 (offsets_txt
                    (snd (sortMovie (with_mFrameData sample_table
                                       (setup None None None)))))
                 None) eq_refl) as [H _].
  rewrite H. reflexivity.
Defined.

(** The round trip does not keep the sort order.  The two records of
    [boundary_table] are written in the order 5, 3, the first in the
    bucket 0.02; read back, its brightness 0.025000 is in the bucket 0.03
    like the other's, and a re-sort puts index 3 first. *)
Lemma sidecar_round_trip_reorders :
  let a := snd (sortMovie (with_mFrameData boundary_table
                             (setup None None None))) in
  let loaded := loadBrightnessFile (setup None (offsets_txt a) None) in
  map mIndex (mFrameData a) = [5; 3] /\
  option_map
    (fun l => map mIndex (std_sort FrameBrightnessSort (mFrameData l)))
    loaded = Some [3; 5] /\
  option_map
    (fun l => map mIndex (std_sort FrameBrightnessSort (mFrameData l)))
    loaded <> Some (map mIndex (mFrameData a)).
Proof.
  vm_compute. repeat split; discriminate.
Qed.

(** ** How far the computed brightness is from the exact mean *)

Lemma term_of_close (k : Z) :
  0 <= k <= 765 ->
  Z.abs (scaled (term_of k) * 765 - k * 2 ^ places) <= 765 * 2 ^ (places - 53).
Proof.
  intros Hk.
  assert (H : forallb (fun n => term_closeb (Z.of_nat n)) (seq 0 766) = true)
    by (vm_compute; reflexivity).
  rewrite forallb_forall in H.
  specialize (H (Z.to_nat k)). rewrite Z2Nat.id in H by lia.
  apply Z.leb_le. apply H, in_seq. lia.
Qed.

Lemma channel_sum_range (p : Pixel) : 0 <= channel_sum p <= 765.
Proof.
  unfold channel_sum.
  pose proof (channel_range (red p)). pose proof (channel_range (green p)).
  pose proof (channel_range (blue p)). lia.
Qed.

Lemma term_total_close (ps : list Pixel) :
  Z.abs (term_total ps * 765 - channel_total ps * 2 ^ places)
    <= Z.of_nat (List.length ps) * (765 * 2 ^ (places - 53)).
Proof.
  induction ps as [|p ps IH].
  - simpl. lia.
  - cbn [term_total channel_total fold_right List.length].
    fold (term_total ps). fold (channel_total ps).
    pose proof (term_of_close (channel_sum p) (channel_sum_range p)) as H.
    rewrite pixel_term_term_of. fold (channel_sum p).
    rewrite Nat2Z.inj_succ.
    set (c := 765 * 2 ^ (places - 53)) in *. set (P := 2 ^ places) in *.
    set (x := scaled (term_of (channel_sum p))) in *.
    apply Z.abs_le. apply Z.abs_le in H, IH. lia.
Qed.

(** The sum the loops compute, against the exact sum of its terms: every
    addition is off by at most [2^-22]. *)
Lemma fold_add_close (ps : list Pixel) :
  forall (acc : double) (j : Z),
    0 <= j -> j + Z.of_nat (List.length ps) < 2 ^ 31 -> in_range acc j ->
    in_range (fold_left Double.add (map pixel_term ps) acc)
      (j + Z.of_nat (List.length ps)) /\
    Z.abs (scaled (fold_left Double.add (map pixel_term ps) acc)
           - (scaled acc + term_total ps))
      <= Z.of_nat (List.length ps) * 2 ^ (places - 22).
Proof.
  induction ps as [|p ps IH]; intros acc j Hj Hn Ha.
  - cbn [map fold_left List.length term_total fold_right].
    rewrite !Z.add_0_r, Z.sub_diag. split; [exact Ha|simpl; lia].
  - cbn [map fold_left List.length term_total fold_right].
    cbn [List.length] in Hn.
    fold (term_total ps). rewrite Nat2Z.inj_succ in *.
    assert (H31 : 2 ^ 31 < 2 ^ 53) by (apply Z.pow_lt_mono_r; lia).
    pose proof (add_in_range acc (pixel_term p) j 1 Hj ltac:(lia) ltac:(lia)
                  Ha (pixel_term_in_range p)) as Hr.
    pose proof (add_close acc (pixel_term p) j 1 Hj ltac:(lia) ltac:(lia)
                  Ha (pixel_term_in_range p)) as Hc.
    destruct (IH (Double.add acc (pixel_term p)) (j + 1) ltac:(lia)
                ltac:(lia) Hr) as [Ir Ic].
    split.
    + replace (j + Z.succ (Z.of_nat (List.length ps)))
        with (j + 1 + Z.of_nat (List.length ps)) by lia.
      exact Ir.
    + set (P := 2 ^ (places - 22)) in *.
      apply Z.abs_le. apply Z.abs_le in Hc, Ic. lia.
Qed.

Lemma surface_brightness_close (s : Surface8u) :
  0 < getWidth s -> 0 < getHeight s -> getWidth s * getHeight s < 2 ^ 31 ->
  Z.abs (scaled (surface_brightness s) * (765 * (getWidth s * getHeight s))
         - channel_total (pixels_of s) * 2 ^ places)
    <= 765 * (getWidth s * getHeight s) * 2 ^ (places - 21).
Proof.
  pose proof places_eq as HK.
  intros Hw Hh Ha.
  pose proof (pixels_of_length s ltac:(lia) ltac:(lia)) as Hl.
  set (N := getWidth s * getHeight s) in *.
  assert (HN : 0 < N) by (unfold N; nia).
  unfold surface_brightness. rewrite line_loop_fold. fold N.
  change (flat_map _ _) with (pixels_of s).
  destruct (fold_add_close (pixels_of s) Double.zero 0 ltac:(lia)
              ltac:(lia) eq_refl) as [Hr Hc].
  rewrite Hl, Z.add_0_l in Hr. rewrite Hl in Hc. cbn [scaled] in Hc.
  rewrite Z.add_0_l in Hc.
  set (acc := fold_left Double.add (map pixel_term (pixels_of s)) Double.zero)
    in *.
  assert (H53 : N < 2 ^ 53).
  { assert (2 ^ 31 < 2 ^ 53) by (apply Z.pow_lt_mono_r; lia). lia. }
  pose proof (div_close acc N ltac:(lia) Hr) as Hd.
  pose proof (term_total_close (pixels_of s)) as Ht. rewrite Hl in Ht.
  set (b := scaled (Double.div acc (Double.of_int N))) in *.
  set (T := term_total (pixels_of s)) in *.
  set (S := channel_total (pixels_of s)) in *.
  set (P := 2 ^ (places - 53)) in *.
  replace (places - 52) with (1 + (places - 53)) in Hd by lia.
  replace (places - 22) with (31 + (places - 53)) in Hc by lia.
  replace (places - 21) with (32 + (places - 53)) by lia.
  rewrite Z.pow_add_r in Hd, Hc |- * by lia. fold P in Hd, Hc |- *.
  change (2 ^ 1) with 2 in Hd. change (2 ^ 31) with 2147483648 in Hc.
  change (2 ^ 32) with 4294967296.
  assert (PP : 0 < P) by (apply Z.pow_pos_nonneg; lia).
  apply Z.abs_le. apply Z.abs_le in Hd, Hc, Ht.
  assert (0 <= N * P) by nia.
  set (NP := N * P) in *.
  replace (N * (2 * P)) with (2 * NP) in Hd by (unfold NP; ring).
  replace (N * (2147483648 * P)) with (2147483648 * NP) in Hc
    by (unfold NP; ring).
  replace (N * (765 * P)) with (765 * NP) in Ht by (unfold NP; ring).
  replace (765 * N * (4294967296 * P)) with (3285649981440 * NP)
    by (unfold NP; ring).
  replace (b * (765 * N)) with (765 * (b * N)) by ring.
  lia.
Qed.

(** C4.  For a surface of at least one pixel (whose pixel count fits an
    [int]) the brightness that [processNextFrame] computes is the mean of
    [(R + G + B) / (3 * 255)] over the pixels in scan order, in double
    arithmetic; it differs from the exact mean, the sum of all channels
    divided by 765 times the number of pixels, by at most [2^-21]; a
    surface with the same red, green and blue channels has the same
    brightness whatever its alpha channel; and the brightness is a double
    between 0 and 1. *)
Theorem surface_brightness_mean (s : Surface8u) :
  0 < getWidth s -> 0 < getHeight s -> getWidth s * getHeight s < 2 ^ 31 ->
  surface_brightness s = mean_brightness (pixels_of s) /\
  Z.abs (scaled (surface_brightness s) * (765 * (getWidth s * getHeight s))
         - channel_total (pixels_of s) * 2 ^ places)
    <= 765 * (getWidth s * getHeight s) * 2 ^ (places - 21) /\
  (forall s' : Surface8u,
     getWidth s' = getWidth s -> getHeight s' = getHeight s ->
     (forall x y,
        red (getPixel s' x y) = red (getPixel s x y) /\
        green (getPixel s' x y) = green (getPixel s x y) /\
        blue (getPixel s' x y) = blue (getPixel s x y)) ->
     surface_brightness s' = surface_brightness s) /\
  Double.leb Double.zero (surface_brightness s) = true /\
  Double.leb (surface_brightness s) Double.one = true.
Proof.
  intros Hw Hh Ha. split; [apply surface_brightness_as_mean; lia|].
  split; [apply surface_brightness_close; assumption|]. split.
  - intros s' Ew Eh Ergb.
    rewrite (surface_brightness_as_mean s), (surface_brightness_as_mean s')
      by lia.
    unfold mean_brightness.
    assert (E : map intensity (pixels_of s') = map intensity (pixels_of s)).
    { unfold pixels_of. rewrite Ew, Eh.
      rewrite !flat_map_concat_map, !concat_map, !map_map. f_equal.
      apply map_ext. intros y. rewrite !map_map. apply map_ext. intros x.
      destruct (Ergb (Z.of_nat x) (Z.of_nat y)) as (R & G & B).
      apply intensity_rgb; assumption. }
    rewrite E. f_equal. f_equal.
    rewrite <- (length_map intensity (pixels_of s')), E, length_map.
    reflexivity.
  - apply in_range_one_leb, surface_brightness_in_range; assumption.
Qed.

Lemma surface_brightness_mean_witness :
  surface_brightness (uniform 4 3 x80) =
    mean_brightness (pixels_of (uniform 4 3 x80)) /\
  Double.leb Double.zero (surface_brightness (uniform 4 3 x80)) = true /\
  Double.leb (surface_brightness (uniform 4 3 x80)) Double.one = true /\
  surface_brightness
    (mkSurface 4 3 (fun _ _ => mkPixel x80 x80 x80 x00)) =
  surface_brightness (uniform 4 3 x80).
Proof.
  destruct (surface_brightness_mean (uniform 4 3 x80))
    as (Hm & _ & Ha & H0 & H1); try reflexivity.
  split; [exact Hm|]. split; [exact H0|]. split; [exact H1|].
  apply Ha; try reflexivity. intros x y. repeat split.
Defined.
(** * Further properties of the member functions *)

(** ** Playback: [gotoNextFrame] *)

Lemma gotoNextFrame_step (a : LuminOrderApp) (r : FrameData) (s : Surface8u) :
  0 <= mFrameIndex a ->
  nth_error (mFrameData a) (Z.to_nat (mFrameIndex a)) = Some r ->
  frameAt (mMovie a) (mIndex r) = Some s ->
  gotoNextFrame a =
  (inr tt,
   with_mFrameIndex (mFrameIndex a + 1)
     (with_mFrameSurface (Some s)
        (with_mMovie (mkMovie (movieFrames (mMovie a)) (mIndex r)) a))).
Proof.
  intros H0 Hn Hf.
  assert (Hl : mFrameIndex a < Z.of_nat (List.length (mFrameData a))).
  { assert (Z.to_nat (mFrameIndex a) < List.length (mFrameData a))%nat
      by (apply nth_error_Some; rewrite Hn; discriminate).
    lia. }
  unfold gotoNextFrame, bind at 1, gets at 1. unfold bind at 1, gets at 1.
  replace (0 <=? mFrameIndex a) with true by (symmetry; apply Z.leb_le; lia).
  replace (mFrameIndex a <? Z.of_nat (List.length (mFrameData a))) with true
    by (symmetry; apply Z.ltb_lt; lia).
  cbn [andb]. rewrite Hn.
  unfold bind at 1, movie_seekToFrame at 1, modify at 1.
  unfold bind at 1, movie_getSurface at 1, bind at 1, gets at 1.
  cbn [mMovie with_mMovie moviePosition].
  unfold frameAt in Hf |- *. cbn [movieFrames]. rewrite Hf.
  reflexivity.
Qed.

Lemma gotoNextFrame_outside (a : LuminOrderApp) :
  mFrameIndex a < 0 \/
  Z.of_nat (List.length (mFrameData a)) <= mFrameIndex a ->
  gotoNextFrame a = (inr tt, a).
Proof.
  intros H. unfold gotoNextFrame, bind at 1, gets at 1.
  unfold bind at 1, gets at 1.
  destruct (Z.leb_spec 0 (mFrameIndex a)) as [H0|H0]; [|reflexivity].
  destruct (Z.ltb_spec (mFrameIndex a)
              (Z.of_nat (List.length (mFrameData a)))) as [H1|H1];
    [lia|reflexivity].
Qed.

(** The loop behind [calls], from any value of its counter. *)
Lemma playback_loop (k : nat) :
  forall (a : LuminOrderApp) (i : nat) (j : Z),
    mFrameIndex a = Z.of_nat i ->
    (i + k <= List.length (mFrameData a))%nat ->
    (forall r, In r (mFrameData a) -> frameAt (mMovie a) (mIndex r) <> None) ->
    exists a',
      for_loop k j (fun _ => gotoNextFrame) a = (inr tt, a') /\
      mFrameIndex a' = Z.of_nat (i + k) /\
      mFrameData a' = mFrameData a /\
      movieFrames (mMovie a') = movieFrames (mMovie a) /\
      mSorted a' = mSorted a /\ mSaved a' = mSaved a /\
      offsets_txt a' = offsets_txt a /\ output_mov a' = output_mov a /\
      forall r, (0 < k)%nat ->
        nth_error (mFrameData a) (i + k - 1) = Some r ->
        mFrameSurface a' = frameAt (mMovie a) (mIndex r) /\
        moviePosition (mMovie a') = mIndex r.
Proof.
  induction k as [|k IH]; intros a i j Hi Hk Hf.
  - exists a. rewrite Nat.add_0_r. repeat split; auto; lia.
  - destruct (nth_error (mFrameData a) i) as [r|] eqn:Hn.
    2:{ apply nth_error_None in Hn. lia. }
    destruct (frameAt (mMovie a) (mIndex r)) as [s|] eqn:F.
    2:{ exfalso. apply (Hf r); [eapply nth_error_In; exact Hn|exact F]. }
    set (a1 := with_mFrameIndex (mFrameIndex a + 1)
                 (with_mFrameSurface (Some s)
                    (with_mMovie (mkMovie (movieFrames (mMovie a)) (mIndex r))
                       a))).
    assert (E1 : gotoNextFrame a = (inr tt, a1)).
    { apply gotoNextFrame_step; [lia| |exact F].
      rewrite Hi, Nat2Z.id. exact Hn. }
    destruct (IH a1 (S i) (j + 1)) as (a' & E & I' & D' & M' & S1 & S2 & O1 & O2 & L').
    { unfold a1. cbn [mFrameIndex with_mFrameIndex]. lia. }
    { change (mFrameData a1) with (mFrameData a). lia. }
    { intros r' Hr'. change (mFrameData a1) with (mFrameData a) in Hr'.
      rewrite (frameAt_frames (mMovie a) (mMovie a1)) by reflexivity.
      apply Hf, Hr'. }
    exists a'. split.
    { cbn [for_loop]. unfold bind at 1. rewrite E1. exact E. }
    split; [rewrite I'; f_equal; lia|].
    split; [exact D'|]. split; [exact M'|].
    split; [exact S1|]. split; [exact S2|]. split; [exact O1|].
    split; [exact O2|].
    intros r' _ Hr'. destruct k as [|k].
    + (* the last call was this one *)
      replace (i + 1 - 1)%nat with i in Hr' by lia.
      rewrite Hn in Hr'. injection Hr' as <-.
      cbn [for_loop] in E. injection E as <-.
      split; [exact (eq_sym F)|reflexivity].
    + destruct (L' r' ltac:(lia)) as [L1 L2].
      { change (mFrameData a1) with (mFrameData a).
        replace (S i + S k - 1)%nat with (i + S (S k) - 1)%nat by lia.
        exact Hr'. }
      split; [|exact L2].
      rewrite L1. apply frameAt_frames. reflexivity.
Qed.

(** X1.  Playback follows the table: from [mFrameIndex = 0] (where
    [sortMovie] leaves it) and with every record naming a frame that the
    decoder delivers, call number [k + 1] of [gotoNextFrame] shows the frame
    of record [k] of the table and leaves [mFrameIndex = k + 1]; the table,
    the flags and the files stay as they are. *)
Theorem gotoNextFrame_playback (a : LuminOrderApp) (k : nat) (r : FrameData) :
  mFrameIndex a = 0 ->
  (forall r, In r (mFrameData a) -> frameAt (mMovie a) (mIndex r) <> None) ->
  nth_error (mFrameData a) k = Some r ->
  exists a',
    calls (S k) gotoNextFrame a = (inr tt, a') /\
    mFrameSurface a' = frameAt (mMovie a) (mIndex r) /\
    moviePosition (mMovie a') = mIndex r /\
    mFrameIndex a' = Z.of_nat k + 1 /\
    mFrameData a' = mFrameData a /\
    mSorted a' = mSorted a /\ mSaved a' = mSaved a /\
    offsets_txt a' = offsets_txt a /\ output_mov a' = output_mov a.
Proof.
  intros H0 Hf Hn.
  assert (Hk : (k < List.length (mFrameData a))%nat)
    by (apply nth_error_Some; rewrite Hn; discriminate).
  destruct (playback_loop (S k) a 0 0 H0 ltac:(lia) Hf)
    as (a' & E & I' & D' & _ & S1 & S2 & O1 & O2 & L').
  destruct (L' r ltac:(lia)) as [L1 L2].
  { replace (0 + S k - 1)%nat with k by lia. exact Hn. }
  exists a'. unfold calls. repeat split; auto. rewrite I'. lia.
Qed.

Lemma gotoNextFrame_playback_witness :
  let a := with_mMovie (mkMovie sample_movie 0)
             (snd (sortMovie
                     (with_mFrameData
                        (analysed (mkMovie sample_movie 0) 0 0 3)
                        (setup None None None)))) in
  exists a',
    calls 2 gotoNextFrame a = (inr tt, a') /\
    mFrameSurface a' = Some (uniform 4 3 x80) /\
    mFrameIndex a' = 2.
Proof.
  intros a.
  destruct (gotoNextFrame_playback a 1 (mkFrameData 2 (brightness_at (mkMovie sample_movie 0) 2)))
    as (a' & E & S & _ & I & _).
  - reflexivity.
  - intros r Hr. vm_compute in Hr.
    destruct Hr as [<-|[<-|[<-|[]]]]; vm_compute; discriminate.
  - vm_compute. reflexivity.
  - exists a'. split; [exact E|]. split; [exact S|exact I].
Defined.

(** X2.  Playback stops at the end of the table: with [mFrameIndex] at or
    beyond the number of records (or negative) [gotoNextFrame] changes
    nothing, however often it is called; it never wraps around to the first
    record. *)
Theorem gotoNextFrame_past_end (a : LuminOrderApp) (n : nat) :
  mFrameIndex a < 0 \/
  Z.of_nat (List.length (mFrameData a)) <= mFrameIndex a ->
  calls n gotoNextFrame a = (inr tt, a).
Proof.
  intros H. unfold calls. generalize 0 as j.
  induction n as [|n IH]; intros j; [reflexivity|].
  cbn [for_loop]. unfold bind at 1.
  rewrite (gotoNextFrame_outside a H). apply IH.
Qed.

Lemma gotoNextFrame_past_end_witness :
  let a := with_mFrameIndex 4
             (with_mFrameData sample_table (setup None None None)) in
  calls 5 gotoNextFrame a = (inr tt, a).
Proof.
  intros a. apply (gotoNextFrame_past_end a 5).
  right. vm_compute. discriminate.
Defined.

Lemma gotoNextFrame_throws (a : LuminOrderApp) (r : FrameData) :
  0 <= mFrameIndex a ->
  nth_error (mFrameData a) (Z.to_nat (mFrameIndex a)) = Some r ->
  frameAt (mMovie a) (mIndex r) = None ->
  gotoNextFrame a =
  (inl (DecodeFailed (mIndex r)),
   with_mMovie (mkMovie (movieFrames (mMovie a)) (mIndex r)) a).
Proof.
  intros H0 Hn Hf.
  assert (Hl : mFrameIndex a < Z.of_nat (List.length (mFrameData a))).
  { assert (Z.to_nat (mFrameIndex a) < List.length (mFrameData a))%nat
      by (apply nth_error_Some; rewrite Hn; discriminate).
    lia. }
  unfold gotoNextFrame, bind at 1, gets at 1. unfold bind at 1, gets at 1.
  replace (0 <=? mFrameIndex a) with true by (symmetry; apply Z.leb_le; lia).
  replace (mFrameIndex a <? Z.of_nat (List.length (mFrameData a))) with true
    by (symmetry; apply Z.ltb_lt; lia).
  cbn [andb]. rewrite Hn.
  unfold bind at 1, movie_seekToFrame at 1, modify at 1.
  unfold bind at 1, movie_getSurface at 1, bind at 1, gets at 1.
  cbn [mMovie with_mMovie moviePosition].
  unfold frameAt in Hf |- *. cbn [movieFrames]. rewrite Hf.
  reflexivity.
Qed.

(** X3.  When the decoder cannot deliver the frame that the current record
    names, [gotoNextFrame] throws after the seek: the decoder stands at that
    frame, but [mFrameIndex] is not advanced and the surface shown is still
    the previous one. *)
Theorem gotoNextFrame_decode_failure (a : LuminOrderApp) (r : FrameData) :
  0 <= mFrameIndex a ->
  nth_error (mFrameData a) (Z.to_nat (mFrameIndex a)) = Some r ->
  frameAt (mMovie a) (mIndex r) = None ->
  fst (gotoNextFrame a) = inl (DecodeFailed (mIndex r)) /\
  mFrameIndex (snd (gotoNextFrame a)) = mFrameIndex a /\
  mFrameSurface (snd (gotoNextFrame a)) = mFrameSurface a /\
  mFrameData (snd (gotoNextFrame a)) = mFrameData a /\
  moviePosition (mMovie (snd (gotoNextFrame a))) = mIndex r.
Proof.
  intros H0 Hn Hf. rewrite (gotoNextFrame_throws a r H0 Hn Hf).
  repeat split.
Qed.

Lemma gotoNextFrame_decode_failure_witness :
  let a := with_mMovie (mkMovie failing_movie 0)
             (with_mFrameData [mkFrameData 1 Double.zero]
                (setup None None None)) in
  fst (gotoNextFrame a) = inl (DecodeFailed 1) /\
  mFrameIndex (snd (gotoNextFrame a)) = 0.
Proof.
  intros a.
  destruct (gotoNextFrame_decode_failure a (mkFrameData 1 Double.zero))
    as (E & I & _).
  - vm_compute. discriminate.
  - reflexivity.
  - reflexivity.
  - split; [exact E|exact I].
Defined.

(** ** Pass 2 on its own: [saveMovie] *)

(** X4.  [saveMovie] writes nothing before [sortMovie] has run: in a
    state with [mSorted] false it returns with the state as it was.  Since
    [loadBrightnessFile] does not set [mSorted], a table that was only read
    from a sidecar cannot be exported. *)
Theorem saveMovie_needs_sortMovie (a : LuminOrderApp) :
  mSorted a = false ->
  saveMovie a = (inr tt, a) /\
  forall a1, loadBrightnessFile a = Some a1 -> saveMovie a1 = (inr tt, a1).
Proof.
  intros Hs.
  assert (H : forall b, mSorted b = false -> saveMovie b = (inr tt, b)).
  { intros b Hb. unfold saveMovie, bind, gets. rewrite Hb. reflexivity. }
  split; [apply H, Hs|].
  intros a1 Hl. apply H. unfold loadBrightnessFile in Hl.
  destruct (offsets_txt a) as [s|]; [|discriminate].
  destruct (load_loop _ s (mFrameData a)) as [data|]; [|discriminate].
  injection Hl as <-. exact Hs.
Qed.

Lemma saveMovie_needs_sortMovie_witness :
  let a := setup (Some sample_movie) (Some (print_table sample_table)) None in
  option_map (fun a1 => output_mov (snd (saveMovie a1)))
    (loadBrightnessFile a) = Some None.
Proof.
  intros a.
  destruct (saveMovie_needs_sortMovie a eq_refl) as [_ H].
  destruct (loadBrightnessFile a) as [a1|] eqn:E; [|vm_compute in E; discriminate].
  cbn [option_map]. rewrite (H a1 eq_refl).
  unfold loadBrightnessFile in E.
  destruct (offsets_txt a) as [s|]; [|discriminate].
  destruct (load_loop _ s (mFrameData a)) as [data|]; [|discriminate].
  injection E as <-. reflexivity.
Defined.

(** X5.  [saveMovie] on a sorted table empties [output.mov] and then
    writes one frame per record, in table order, until a record names a
    frame that the decoder does not deliver: there it throws, with the
    frames of the records before it written, [mSaved] not set, and the
    table and the sidecar as they were. *)
Theorem saveMovie_undecodable (a : LuminOrderApp) (t1 t2 : list FrameData)
    (r : FrameData) :
  mSorted a = true ->
  mFrameData a = t1 ++ r :: t2 ->
  (forall r', In r' t1 -> frameAt (mMovie a) (mIndex r') <> None) ->
  frameAt (mMovie a) (mIndex r) = None ->
  fst (saveMovie a) = inl (DecodeFailed (mIndex r)) /\
  output_mov (snd (saveMovie a)) = Some (fetched (mMovie a) t1) /\
  Forall2 (fun r' s => frameAt (mMovie a) (mIndex r') = Some s) t1
    (fetched (mMovie a) t1) /\
  mSaved (snd (saveMovie a)) = mSaved a /\
  mFrameData (snd (saveMovie a)) = mFrameData a /\
  offsets_txt (snd (saveMovie a)) = offsets_txt a.
Proof.
  intros Hs Ht H1 Hr.
  destruct (saveMovie_throws a t1 t2 r Hs Ht H1 Hr)
    as (a' & E & O & S1 & _ & D & F & _).
  rewrite E. cbn [fst snd]. split; [reflexivity|]. split; [exact O|].
  split; [apply fetched_Forall2, H1|]. repeat split; assumption.
Qed.

Lemma saveMovie_undecodable_witness :
  let a := with_mSorted true
             (with_mFrameData
                [mkFrameData 2 Double.zero; mkFrameData 7 Double.zero;
                 mkFrameData 0 Double.zero]
                (with_mMovie (mkMovie sample_movie 0)
                   (setup None None (Some [uniform 4 3 xff])))) in
  fst (saveMovie a) = inl (DecodeFailed 7) /\
  output_mov (snd (saveMovie a)) = Some [uniform 4 3 x80] /\
  mSaved (snd (saveMovie a)) = false.
Proof.
  intros a.
  destruct (saveMovie_undecodable a [mkFrameData 2 Double.zero]
              [mkFrameData 0 Double.zero] (mkFrameData 7 Double.zero))
    as (E & O & _ & S & _).
  - reflexivity.
  - reflexivity.
  - intros r' [<-|[]]. vm_compute. discriminate.
  - reflexivity.
  - split; [exact E|]. split; [exact O|exact S].
Defined.

(** ** The whole run: [loadMovieFile] *)

(** X6.  A movie file that cannot be opened: the exception of the
    constructor is caught, the movie that was loaded before is dropped, and
    nothing else changes - the table, the flags, the sidecar and the output
    are as they were, and no exception leaves [loadMovieFile]. *)
Theorem loadMovieFile_open_failure (start_frame : Z) (a : LuminOrderApp) :
  movie_file a = None ->
  loadMovieFile start_frame a = (inr tt, with_mMovie noMovie a).
Proof.
  intros H. unfold loadMovieFile, try_catch, bind at 1.
  unfold movie_open at 1, bind at 1, gets at 1. rewrite H.
  reflexivity.
Qed.

Lemma loadMovieFile_open_failure_witness :
  let a := with_mMovie (mkMovie sample_movie 2)
             (with_mFrameData sample_table
                (setup None (Some "0,0.5"%string) None)) in
  loadMovieFile START_FRAME a = (inr tt, with_mMovie noMovie a).
Proof.
  intros a. apply (loadMovieFile_open_failure START_FRAME a). reflexivity.
Defined.

(** What a run leaves behind when every frame of the movie can be
    decoded. *)
Lemma loadMovieFile_decodable (start_frame : Z) (a : LuminOrderApp)
    (frames : list (option Surface8u)) :
  movie_file a = Some frames ->
  0 <= start_frame ->
  (forall i, start_frame <= i < Z.of_nat (List.length frames) ->
             frameAt (mkMovie frames 0) i <> None) ->
  exists a2,
    let t := std_sort FrameBrightnessSort
               (mFrameData a ++
                analysed (mkMovie frames 0) start_frame start_frame
                  (Z.to_nat (Z.of_nat (List.length frames) - start_frame))) in
    loadMovieFile start_frame a =
      match saveMovie a2 with
      | (inl _, a3) => (inr tt, with_mMovie noMovie a3)
      | (inr _, a3) => (inr tt, a3)
      end /\
    mFrameData a2 = t /\ mSorted a2 = true /\
    offsets_txt a2 = Some (print_table t) /\
    movieFrames (mMovie a2) = frames /\
    mSaved a2 = mSaved a /\ output_mov a2 = output_mov a.
Proof.
  intros Hfile Hs Hok.
  rewrite (loadMovieFile_unfold start_frame a frames Hfile).
  set (a1 := with_mMovie (mkMovie frames 0) a).
  destruct (processAllFrames_spec start_frame a1)
    as (k & r & a2 & E & D & Fk & S1 & R).
  rewrite E.
  change (getNumFrames (mMovie a1)) with (Z.of_nat (List.length frames)) in R.
  change (mMovie a1) with (mkMovie frames 0) in *.
  change (mFrameData a1) with (mFrameData a) in D.
  destruct R as [[-> ->]|(-> & Hk & Hn)].
  2:{ exfalso. apply (Hok (start_frame + Z.of_nat k)); [lia|exact Hn]. }
  exists (snd (sortMovie a2)). cbn zeta. split; [reflexivity|].
  rewrite sortMovie_eq. cbn [snd].
  destruct S1 as (S1 & S2 & S3 & S4 & S5 & S6).
  cbn [mFrameData mSorted offsets_txt mMovie mSaved output_mov
         with_offsets_txt with_mFrameIndex with_mSorted with_mFrameData].
  rewrite D. repeat split; assumption.
Qed.

(** X7.  [loadMovieFile] never clears the table.  On a movie whose frames
    can all be decoded the table afterwards holds the records that were
    there before together with one new record per frame, and the sidecar
    is rewritten from all of them.  The export then succeeds if the old
    records, too, name frames of the new movie, with one output frame per
    record, old ones included; otherwise [saveMovie] throws, the movie is
    reset and [mSaved] stays as it was. *)
Theorem loadMovieFile_keeps_table (start_frame : Z) (a : LuminOrderApp)
    (frames : list (option Surface8u)) :
  movie_file a = Some frames ->
  0 <= start_frame <= Z.of_nat (List.length frames) ->
  (forall i, start_frame <= i < Z.of_nat (List.length frames) ->
             frameAt (mkMovie frames 0) i <> None) ->
  let a' := snd (loadMovieFile start_frame a) in
  Permutation
    (mFrameData a ++
     analysed (mkMovie frames 0) start_frame start_frame
       (Z.to_nat (Z.of_nat (List.length frames) - start_frame)))
    (mFrameData a') /\
  Z.of_nat (List.length (mFrameData a')) =
    Z.of_nat (List.length (mFrameData a)) +
    (Z.of_nat (List.length frames) - start_frame) /\
  mSorted a' = true /\
  offsets_txt a' = Some (print_table (mFrameData a')) /\
  ((forall r, In r (mFrameData a) ->
              frameAt (mkMovie frames 0) (mIndex r) <> None) ->
   mSaved a' = true /\
   exists written,
     output_mov a' = Some written /\
     Forall2 (fun r s => frameAt (mkMovie frames 0) (mIndex r) = Some s)
       (mFrameData a') written) /\
  ((exists r, In r (mFrameData a) /\
              frameAt (mkMovie frames 0) (mIndex r) = None) ->
   mSaved a' = mSaved a /\ mMovie a' = noMovie).
Proof.
  intros Hfile Hs Hok a'.
  destruct (loadMovieFile_decodable start_frame a frames Hfile
              (proj1 Hs) Hok)
    as (a2 & E & D & S & O & M & V & W).
  cbn zeta in E, D, O.
  set (t := std_sort FrameBrightnessSort
              (mFrameData a ++
               analysed (mkMovie frames 0) start_frame start_frame
                 (Z.to_nat (Z.of_nat (List.length frames) - start_frame))))
    in *.
  assert (Hp : Permutation
                 (mFrameData a ++
                  analysed (mkMovie frames 0) start_frame start_frame
                    (Z.to_nat (Z.of_nat (List.length frames) - start_frame)))
                 t) by apply std_sort_perm.
  assert (Hnew : forall r,
            In r (analysed (mkMovie frames 0) start_frame start_frame
                    (Z.to_nat (Z.of_nat (List.length frames) - start_frame))) ->
            frameAt (mkMovie frames 0) (mIndex r) <> None).
  { intros r Hr. apply analysed_In in Hr. destruct Hr as (j & Hj & ->).
    apply Hok. lia. }
  assert (Hm : forall i, frameAt (mMovie a2) i = frameAt (mkMovie frames 0) i)
    by (intros i; apply frameAt_frames; exact M).
  assert (Hlen : Z.of_nat (List.length t) =
                 Z.of_nat (List.length (mFrameData a)) +
                 (Z.of_nat (List.length frames) - start_frame)).
  { rewrite <- (Permutation_length Hp), length_app, analysed_length. lia. }
  destruct (first_undecodable (mMovie a2) t)
    as [Hall|(t1 & r & t2 & Et & H1 & Hr)].
  - (* every record can be fetched *)
    rewrite <- D in Hall.
    destruct (saveMovie_spec a2 S Hall) as (a3 & E3 & O3 & S3 & D3 & F3).
    assert (Ea : a' = a3) by (unfold a'; rewrite E, E3; reflexivity).
    assert (S3' : mSorted a3 = true).
    { destruct (pass2_loop (mFrameData a2) (with_output_mov (Some []) a2) []
                  eq_refl Hall) as (a4 & E4 & _ & _ & _ & S4 & _).
      unfold saveMovie, bind at 1, gets at 1 in E3. rewrite S in E3.
      cbn [negb] in E3.
      unfold bind at 1, modify at 1 in E3. unfold bind at 1, gets at 1 in E3.
      unfold bind at 1 in E3.
      change (mFrameData (with_output_mov (Some []) a2)) with (mFrameData a2)
        in E3.
      rewrite E4 in E3. injection E3 as <-.
      cbn [mSorted with_mSaved]. rewrite S4. exact S. }
    rewrite Ea, D3, S3, F3, D, O.
    split; [exact Hp|]. split; [exact Hlen|].
    split; [assumption|]. split; [reflexivity|]. split.
    + intros _. split; [reflexivity|].
      exists (fetched (mMovie a2) (mFrameData a2)). split; [exact O3|].
      rewrite D in *. eapply Forall2_impl; [|apply fetched_Forall2, Hall].
      intros r s Hrs. rewrite <- Hm. exact Hrs.
    + intros (r & Hr & Hn). exfalso.
      apply (Hall r); [|rewrite Hm; exact Hn].
      rewrite D. apply (Permutation_in _ Hp), in_or_app. left. exact Hr.
  - (* the export stops at the first record that cannot be fetched *)
    destruct (saveMovie_throws a2 t1 t2 r S (eq_trans D Et) H1 Hr)
      as (a3 & E3 & O3 & S3 & S3' & D3 & F3 & _).
    assert (Ea : a' = with_mMovie noMovie a3)
      by (unfold a'; rewrite E, E3; reflexivity).
    rewrite Ea.
    cbn [mFrameData mSorted offsets_txt mSaved mMovie with_mMovie].
    rewrite D3, S3', S3, F3, D, O, S, V.
    split; [exact Hp|]. split; [exact Hlen|].
    split; [reflexivity|]. split; [reflexivity|]. split.
    + intros Hold. exfalso.
      assert (Hin : In r t)
        by (rewrite Et; apply in_or_app; right; left; reflexivity).
      apply (Permutation_in _ (Permutation_sym Hp)) in Hin.
      apply in_app_or in Hin. rewrite Hm in Hr.
      destruct Hin as [H|H]; [apply (Hold r H Hr)|apply (Hnew r H Hr)].
    + intros _. split; reflexivity.
Qed.

Lemma loadMovieFile_keeps_table_witness :
  let a1 := snd (loadMovieFile START_FRAME
                   (setup (Some sample_movie) None None)) in
  let a2 := snd (loadMovieFile START_FRAME a1) in
  Z.of_nat (List.length (mFrameData a2)) = 3 + (3 - START_FRAME) /\
  mSaved a2 = true /\
  offsets_txt a2 = Some (print_table (mFrameData a2)).
Proof.
  intros a1 a2.
  destruct (loadMovieFile_keeps_table START_FRAME a1 sample_movie)
    as (_ & L & _ & O & Hs & _).
  - reflexivity.
  - vm_compute. split; discriminate.
  - intros i Hi.
    assert (H : i = 0 \/ i = 1 \/ i = 2)
      by (unfold START_FRAME in Hi; cbn in Hi; lia).
    destruct H as [->|[->| ->]]; vm_compute; discriminate.
  - destruct Hs as (S & _).
    + intros r Hr. vm_compute in Hr.
      destruct Hr as [<-|[<-|[<-|[]]]]; vm_compute; discriminate.
    + split; [exact L|]. split; [exact S|exact O].
Defined.

(** X8.  From a freshly set-up application the export completes
    ([mSaved] becomes true) exactly when the decoder delivers every frame
    of the movie from [START_FRAME] on. *)
Theorem loadMovieFile_saved_iff (start_frame : Z)
    (frames : list (option Surface8u)) (offsets : option string)
    (output : option (list Surface8u)) :
  0 <= start_frame <= Z.of_nat (List.length frames) ->
  (mSaved (snd (loadMovieFile start_frame
                  (setup (Some frames) offsets output))) = true <->
   forall i, start_frame <= i < Z.of_nat (List.length frames) ->
             frameAt (mkMovie frames 0) i <> None).
Proof.
  intros Hs. set (a := setup (Some frames) offsets output). split.
  - intros Hsaved.
    rewrite (loadMovieFile_unfold start_frame a frames eq_refl) in Hsaved.
    set (a1 := with_mMovie (mkMovie frames 0) a) in *.
    pose proof (proj1 (processAllFrames_completes start_frame a1 (proj1 Hs)))
      as Hc.
    destruct (processAllFrames_spec start_frame a1)
      as (k & r & a2 & E & _ & _ & S1 & R).
    rewrite E in Hsaved, Hc. cbn [fst] in Hc.
    destruct R as [[-> _]|(-> & _ & _)].
    + apply Hc. reflexivity.
    + exfalso. cbn [snd] in Hsaved.
      destruct S1 as (_ & _ & S1 & _).
      change (mSaved a2 = true) in Hsaved. rewrite S1 in Hsaved.
      discriminate.
  - intros Hok.
    destruct (loadMovieFile_decodable start_frame a frames eq_refl
                (proj1 Hs) Hok)
      as (a2 & E & D & S & O & M & V & W).
    cbn zeta in D. change (mFrameData a) with (@nil FrameData) in D.
    cbn [app] in D.
    assert (Hall : forall r, In r (mFrameData a2) ->
                     frameAt (mMovie a2) (mIndex r) <> None).
    { intros r Hr. rewrite D in Hr.
      apply (Permutation_in _ (Permutation_sym (std_sort_perm _ _))) in Hr.
      apply analysed_In in Hr. destruct Hr as (j & Hj & ->).
      rewrite (frameAt_frames (mkMovie frames 0) (mMovie a2)) by exact M.
      apply Hok. lia. }
    destruct (saveMovie_spec a2 S Hall) as (a3 & E3 & _ & S3 & _).
    rewrite E, E3. exact S3.
Qed.

Lemma loadMovieFile_saved_iff_witness :
  mSaved (snd (loadMovieFile START_FRAME
                 (setup (Some failing_movie) None None))) = true <->
  forall i, START_FRAME <= i < 3 -> frameAt (mkMovie failing_movie 0) i <> None.
Proof.
  apply (loadMovieFile_saved_iff START_FRAME failing_movie None None).
  vm_compute. split; discriminate.
Defined.

(** ** [sortMovie] again *)

(** X9.  Sorting is idempotent: on a table of numbers with distinct
    indices a second [sortMovie] leaves the table, the sidecar, the flags
    and [mFrameIndex] exactly as the first one has left them. *)
Theorem sortMovie_idempotent (a : LuminOrderApp) :
  Forall not_nan (mFrameData a) ->
  NoDup (map mIndex (mFrameData a)) ->
  sortMovie (snd (sortMovie a)) = sortMovie a.
Proof.
  intros Hn Hd. rewrite !sortMovie_eq. cbn [snd].
  cbn [mFrameData with_offsets_txt with_mFrameIndex with_mSorted
         with_mFrameData].
  set (t := std_sort FrameBrightnessSort (mFrameData a)).
  assert (Hp : Permutation (mFrameData a) t) by apply std_sort_perm.
  assert (E : std_sort FrameBrightnessSort t = t).
  { symmetry. apply sorted_table_unique.
    - eapply Permutation_Forall; [exact Hp|exact Hn].
    - eapply Permutation_NoDup; [apply Permutation_map, Hp|exact Hd].
    - apply std_sort_perm.
    - apply std_sort_Sorted, FrameBrightnessSort_asym.
    - apply std_sort_Sorted, FrameBrightnessSort_asym. }
  rewrite E. reflexivity.
Qed.

Lemma sortMovie_idempotent_witness :
  let a := with_mFrameData sample_table (setup None None None) in
  sortMovie (snd (sortMovie a)) = sortMovie a.
Proof.
  intros a. apply (sortMovie_idempotent a).
  - exact sample_table_not_nan.
  - exact sample_table_NoDup.
Defined.

(** ** The comparator on a brightness that is not a number *)

Lemma rounded_nan : rounded Double.nan = Double.nan.
Proof. reflexivity. Qed.

(** X10.  A record whose brightness is NaN (a frame without pixels gives
    one) is ordered neither before nor after any record: both rounded
    values differ in the sense of [!=] and neither is less, so the
    comparator answers false both ways.  Such a record is "equivalent" to
    records that the comparator does tell apart, which is not a strict weak
    ordering. *)
Theorem FrameBrightnessSort_nan (n : FrameData) :
  Double.is_nan (mBrightness n) = true ->
  (forall r, FrameBrightnessSort n r = false /\
             FrameBrightnessSort r n = false) /\
  (forall a b, FrameBrightnessSort a b = true ->
     FrameBrightnessSort a n = false /\ FrameBrightnessSort n a = false /\
     FrameBrightnessSort n b = false /\ FrameBrightnessSort b n = false).
Proof.
  intros Hn.
  assert (H : forall r, FrameBrightnessSort n r = false /\
                        FrameBrightnessSort r n = false).
  { intros r. unfold FrameBrightnessSort.
    destruct (mBrightness n); try discriminate.
    change (rounded S754_nan) with S754_nan.
    unfold Double.neb, Double.eqb, Double.ltb, SFeqb, SFltb.
    split; [reflexivity|].
    destruct (rounded (mBrightness r)) as [s|s| |s m e]; try reflexivity;
      destruct s; reflexivity. }
  split; [exact H|]. intros a b _.
  destruct (H a) as [H1 H2]. destruct (H b) as [H3 H4]. auto.
Qed.

Lemma FrameBrightnessSort_nan_witness :
  let n := mkFrameData 1 (surface_brightness (uniform 0 0 x00)) in
  let a := mkFrameData 0 (decimal 48 100) in
  let b := mkFrameData 2 (decimal 52 100) in
  FrameBrightnessSort a b = true /\
  FrameBrightnessSort a n = false /\ FrameBrightnessSort n a = false /\
  FrameBrightnessSort n b = false /\ FrameBrightnessSort b n = false.
Proof.
  intros n a b.
  destruct (FrameBrightnessSort_nan n eq_refl) as [_ H].
  split; [vm_compute; reflexivity|].
  apply (H a b). vm_compute. reflexivity.
Defined.

(** ** Frames of one colour *)

Lemma fold_add_zero (l : list double) :
  Forall (fun x => x = Double.zero) l ->
  fold_left Double.add l Double.zero = Double.zero.
Proof.
  induction l as [|x l IH]; intros H; [reflexivity|].
  inversion H as [|? ? Hx Hl]; subst. cbn [fold_left].
  change (Double.add Double.zero Double.zero) with Double.zero.
  apply IH, Hl.
Qed.

(** X11.  A black frame has the brightness [+0.0] exactly, whatever its
    size (at least one pixel, the pixel count within an [int]): every term
    of the sum is [0 / 765 = 0], no rounding occurs. *)
Theorem black_frame_brightness (s : Surface8u) :
  0 < getWidth s -> 0 < getHeight s -> getWidth s * getHeight s < 2 ^ 31 ->
  (forall x y, 0 <= x < getWidth s -> 0 <= y < getHeight s ->
               channel (red (getPixel s x y)) = 0 /\
               channel (green (getPixel s x y)) = 0 /\
               channel (blue (getPixel s x y)) = 0) ->
  surface_brightness s = Double.zero.
Proof.
  intros Hw Hh Ha Hblack.
  unfold surface_brightness. rewrite line_loop_fold.
  rewrite fold_add_zero.
  - assert (HN : 0 < getWidth s * getHeight s < 2 ^ 53).
    { split; [nia|].
      assert (2 ^ 31 < 2 ^ 53) by (apply Z.pow_lt_mono_r; lia). lia. }
    destruct (of_int_pos _ HN) as (m & e & -> & _). reflexivity.
  - apply Forall_forall. intros x Hx. apply in_map_iff in Hx.
    destruct Hx as (p & <- & Hp). apply in_flat_map in Hp.
    destruct Hp as (j & Hj & Hp). apply in_map_iff in Hp.
    destruct Hp as (i & <- & Hi). apply in_seq in Hi, Hj.
    destruct (Hblack (Z.of_nat i) (0 + Z.of_nat j)) as (R & G & B);
      [lia|lia|].
    unfold pixel_term. rewrite R, G, B. reflexivity.
Qed.

Lemma black_frame_brightness_witness :
  surface_brightness (uniform 640 480 x00) = Double.zero.
Proof.
  apply black_frame_brightness; try reflexivity.
  intros x y _ _. repeat split.
Defined.

(** ** The sidecar as a text *)

Lemma count_char_app (c : ascii) (s1 s2 : string) :
  count_char c (s1 ++ s2) = (count_char c s1 + count_char c s2)%nat.
Proof.
  induction s1 as [|c1 s1 IH]; [reflexivity|].
  cbn [append count_char]. rewrite IH. lia.
Qed.

(** A separator: the line feed or the comma. *)
Lemma separator_not_digit (c : ascii) (d : Z) :
  c = "010"%char \/ c = ","%char -> 0 <= d <= 9 ->
  Ascii.eqb c (Text.digit_char d) = false.
Proof.
  intros Hc Hd.
  assert (d = 0 \/ d = 1 \/ d = 2 \/ d = 3 \/ d = 4 \/ d = 5 \/ d = 6 \/
          d = 7 \/ d = 8 \/ d = 9) as H by lia.
  destruct Hc as [-> | ->];
    repeat (destruct H as [->|H]; [reflexivity|]); subst; reflexivity.
Qed.

Lemma count_print_digits (c : ascii) (fuel : nat) :
  c = "010"%char \/ c = ","%char ->
  forall (n : Z) (tail : string),
    count_char c (Text.print_digits fuel n tail) = count_char c tail.
Proof.
  intros Hc. induction fuel as [|fuel IH]; intros n tail; [reflexivity|].
  cbn [Text.print_digits].
  assert (E : count_char c (String (Text.digit_char (n mod 10)) tail)
              = count_char c tail).
  { cbn [count_char].
    rewrite (separator_not_digit c _ Hc (mod10_range n)). reflexivity. }
  destruct (n <? 10); [exact E|]. rewrite IH. exact E.
Qed.

Lemma count_print_d (c : ascii) (n : Z) (tail : string) :
  c = "010"%char \/ c = ","%char ->
  count_char c (Text.print_d n tail) = count_char c tail.
Proof.
  intros Hc. unfold Text.print_d, Text.print_nat.
  destruct (n <? 0).
  - cbn [count_char]. rewrite count_print_digits by exact Hc.
    destruct Hc as [-> | ->]; reflexivity.
  - apply count_print_digits, Hc.
Qed.

Lemma count_print_fixed (c : ascii) (n : Z) (tail : string) :
  c = "010"%char \/ c = ","%char ->
  count_char c (Text.print_fixed n tail) = count_char c tail.
Proof.
  intros Hc. unfold Text.print_fixed, Text.print_nat.
  rewrite count_print_digits by exact Hc.
  cbn [count_char].
  rewrite !(separator_not_digit c _ Hc (mod10_range _)).
  destruct Hc as [-> | ->]; reflexivity.
Qed.

Lemma count_print_f (c : ascii) (x : double) (tail : string) :
  c = "010"%char \/ c = ","%char ->
  count_char c (Text.print_f x tail) = count_char c tail.
Proof.
  intros Hc. unfold Text.print_f, Text.print_sign.
  destruct x as [s|s| |s m e].
  - destruct s; cbn [count_char]; rewrite count_print_fixed by exact Hc;
      destruct Hc as [-> | ->]; reflexivity.
  - destruct s; destruct Hc as [-> | ->]; reflexivity.
  - destruct Hc as [-> | ->]; reflexivity.
  - destruct s; cbn [count_char]; rewrite count_print_fixed by exact Hc;
      destruct Hc as [-> | ->]; reflexivity.
Qed.

Lemma count_print_table (t : list FrameData) :
  count_char "010" (print_table t) = List.length t /\
  count_char "," (print_table t) = List.length t.
Proof.
  induction t as [|r t [IH1 IH2]]; [split; reflexivity|].
  cbn [print_table fold_right List.length]. fold (print_table t).
  unfold print_record. split.
  - rewrite count_print_d by (left; reflexivity). cbn [count_char].
    rewrite count_print_f by (left; reflexivity). cbn [count_char].
    rewrite IH1. reflexivity.
  - rewrite count_print_d by (right; reflexivity). cbn [count_char].
    rewrite count_print_f by (right; reflexivity). cbn [count_char].
    rewrite IH2. reflexivity.
Qed.

(** X12.  The sidecar that [sortMovie] writes has one line per record of
    the table: as many line feeds, and as many commas, as there are
    records - whatever the indices and brightnesses are, infinities and NaN
    included. *)
Theorem sortMovie_sidecar_lines (a : LuminOrderApp) :
  exists text : string,
    offsets_txt (snd (sortMovie a)) = Some text /\
    count_char "010" text = List.length (mFrameData a) /\
    count_char "," text = List.length (mFrameData a).
Proof.
  rewrite sortMovie_eq. cbn [snd offsets_txt with_offsets_txt].
  eexists. split; [reflexivity|].
  rewrite (Permutation_length (std_sort_perm FrameBrightnessSort (mFrameData a))).
  apply count_print_table.
Qed.

(** ** [loadBrightnessFile] on texts that [sortMovie] does not write *)

Lemma skip_space_not_space (s : string) (c : ascii) (rest : string) :
  Text.skip_space s = String c rest -> Text.is_space c = false.
Proof.
  induction s as [|c0 s IH]; [discriminate|].
  cbn [Text.skip_space]. destruct (Text.is_space c0) eqn:E0; [exact IH|].
  intros H. injection H as -> ->. exact E0.
Qed.

Lemma skip_space_idem (s : string) :
  Text.skip_space (Text.skip_space s) = Text.skip_space s.
Proof.
  destruct (Text.skip_space s) as [|c rest] eqn:E; [reflexivity|].
  cbn [Text.skip_space]. rewrite (skip_space_not_space s c rest E).
  reflexivity.
Qed.

Lemma scan_d_starts_integer (c : ascii) (s : string) (r : Z * string) :
  Text.scan_d (String c s) = Some r -> starts_integer c = true.
Proof.
  destruct (starts_integer c) eqn:E; [reflexivity|]. intros H. exfalso.
  destruct c as [[] [] [] [] [] [] [] []]; try discriminate E;
    cbn in H; discriminate H.
Qed.

(** The turn-by-turn loop agrees with [load_loop] wherever that one
    returns: it ends after as many turns as there are records, with the
    same table, whatever the two variables held at the start. *)
Lemma loop_turn_scanned (s : string) (data : list FrameData) (o o1 : Z)
    (b b1 : spec_float) (rest : string) :
  Text.fscanf_d_f s = Text.Scanned o1 b1 rest ->
  loop_turn (mkLoader s o b data) =
  Next (mkLoader rest o1 b1 (push_back o1 b1 data)).
Proof.
  intros E. unfold loop_turn. cbn [unread loaded offset brightness].
  assert (E' : Text.fscanf_d_f (Text.skip_space s) = Text.Scanned o1 b1 rest)
    by (unfold Text.fscanf_d_f in E |- *; rewrite skip_space_idem; exact E).
  unfold Text.fscanf_d_f in E.
  destruct (Text.skip_space s) as [|c s1]; [discriminate|].
  destruct (Text.scan_d (String c s1)) as [r|] eqn:Ed; [|discriminate].
  rewrite (scan_d_starts_integer c s1 r Ed), E'. reflexivity.
Qed.

Lemma loop_turn_eof (s : string) (data : list FrameData) (o : Z)
    (b : spec_float) :
  Text.fscanf_d_f s = Text.ScanEOF ->
  loop_turn (mkLoader s o b data) = Ended data.
Proof.
  intros E. unfold loop_turn. cbn [unread loaded].
  unfold Text.fscanf_d_f in E.
  destruct (Text.skip_space s) as [|c s1]; [reflexivity|]. exfalso.
  destruct (Text.scan_d (String c s1)) as [[o2 [|c2 s2]]|]; try discriminate.
  destruct (Ascii.eqb_spec c2 ","%char) as [->|Hc].
  - destruct (Text.scan_f (Text.skip_space s2)) as [[? ?]|]; discriminate.
  - destruct c2 as [[] [] [] [] [] [] [] []]; try discriminate.
    apply Hc. reflexivity.
Qed.

Lemma loop_turns_load_loop (fuel : nat) :
  forall (s : string) (data t : list FrameData) (o : Z) (b : spec_float),
    load_loop fuel s data = Some t ->
    exists n : nat,
      loop_turns (S n) (mkLoader s o b data) = Ended t /\
      List.length t = (List.length data + n)%nat.
Proof.
  induction fuel as [|fuel IH]; intros s data t o b H; [discriminate|].
  cbn [load_loop] in H.
  destruct (Text.fscanf_d_f s) as [| |o1 b1 rest] eqn:E; [|discriminate|].
  - injection H as <-. exists O. split; [|lia].
    cbn [loop_turns]. rewrite (loop_turn_eof s data o b E). reflexivity.
  - destruct (IH rest _ t o1 b1 H) as (n & En & Ln).
    exists (S n). split.
    + change (loop_turns (S (S n)) (mkLoader s o b data))
        with (match loop_turn (mkLoader s o b data) with
              | Next l' => loop_turns (S n) l'
              | t0 => t0
              end).
      rewrite (loop_turn_scanned s data o o1 b b1 rest E). exact En.
    + rewrite Ln. rewrite length_app. cbn [List.length]. lia.
Qed.

(** X13.  A character that cannot begin an integer stops the reader for
    good.  When the unread text, after white space, starts with a character
    that is neither a digit nor a sign, [fscanf] returns 0 - not [EOF] -
    and leaves the character unread; the loop body still runs.  So every
    further turn appends one more record, made of the values that [offset]
    and [brightness] held before, and the loop never ends: after any number
    [n] of turns it is still running, with [n] more records in the
    table. *)
Theorem loadBrightnessFile_never_ends (l : Loader) (c : ascii)
    (rest : string) (n : nat) :
  Text.skip_space (unread l) = String c rest ->
  starts_integer c = false ->
  loop_turns (S n) l =
  Next (mkLoader (String c rest) (offset l) (brightness l)
          (loaded l ++
           repeat (mkFrameData (offset l) (Single.to_double (brightness l)))
             (S n))).
Proof.
  intros Hs Hc.
  assert (Ess : Text.skip_space (String c rest) = String c rest)
    by (rewrite <- Hs; apply skip_space_idem).
  assert (Step : forall o b t s,
            Text.skip_space s = String c rest ->
            loop_turn (mkLoader s o b t) =
            Next (mkLoader (String c rest) o b (push_back o b t))).
  { intros o b t s E. unfold loop_turn. cbn [unread loaded offset brightness].
    rewrite E, Hc. reflexivity. }
  destruct l as [s o b t]. cbn [unread offset brightness loaded] in *.
  cbn [loop_turns]. rewrite (Step o b t s Hs). clear Hs s.
  revert t. induction n as [|n IH]; intros t.
  - reflexivity.
  - cbn [loop_turns]. rewrite (Step o b _ _ Ess).
    change (match Next (mkLoader (String c rest) o b
                          (push_back o b (push_back o b t))) with
            | Next l' => loop_turns n l'
            | t0 => t0
            end)
      with (loop_turns n (mkLoader (String c rest) o b
                            (push_back o b (push_back o b t)))).
    destruct n as [|n].
    + cbn [loop_turns repeat]. unfold push_back.
      rewrite <- app_assoc. reflexivity.
    + specialize (IH (push_back o b t)).
      cbn [loop_turns] in IH. rewrite (Step o b _ _ Ess) in IH.
      cbn [loop_turns]. rewrite (Step o b _ _ Ess).
      rewrite IH. unfold push_back. rewrite <- app_assoc. reflexivity.
Qed.


Lemma loadBrightnessFile_never_ends_witness :
  let l := mkLoader (String "010" "# sorted") 0
             (Single.of_decimal false 500000 6)
             [mkFrameData 0 (decimal 1 2)] in
  loop_turn (mkLoader ("0,0.500000" ++ String "010" "# sorted") 7 S754_nan [])
    = Next l /\
  loop_turns 3 l =
  Next (mkLoader "# sorted" 0 (Single.of_decimal false 500000 6)
          [mkFrameData 0 (decimal 1 2); mkFrameData 0 (decimal 1 2);
           mkFrameData 0 (decimal 1 2); mkFrameData 0 (decimal 1 2)]).
Proof.
  intros l. split; [vm_compute; reflexivity|].
  rewrite (loadBrightnessFile_never_ends l "#" " sorted" 2);
    [|reflexivity|reflexivity].
  vm_compute. reflexivity.
Defined.

(** X14.  A sidecar that holds nothing but white space (or nothing at
    all) has no record: [loadBrightnessFile] returns with the table and
    everything else as they were. *)
Theorem loadBrightnessFile_blank (a : LuminOrderApp) (s : string) :
  offsets_txt a = Some s ->
  Text.skip_space s = EmptyString ->
  loadBrightnessFile a = Some a.
Proof.
  intros Hs He. unfold loadBrightnessFile. rewrite Hs.
  cbn [load_loop]. unfold Text.fscanf_d_f. rewrite He.
  destruct a. reflexivity.
Qed.

Lemma loadBrightnessFile_blank_witness :
  let a := with_mFrameData sample_table
             (setup None (Some (String "010" (String " " EmptyString))) None) in
  loadBrightnessFile a = Some a.
Proof.
  intros a.
  apply (loadBrightnessFile_blank a (String "010" (String " " EmptyString)));
    reflexivity.
Defined.

(** * The bucket of a brightness *)

(** The facts marked [linear], and nothing else, handed to [lia]:
    products of powers in the context cost it much time. *)
Ltac lin :=
  match goal with
  | H : linear _ |- _ => clear - H; unfold linear in H; lia
  end.

(** ** Quotients by a double that is not an integer

    [div_spec] above divides by [(double) N].  The comparator divides by
    [ROUND_TO]; the same argument, for a divisor [my * 2^ey] with
    [ey <= 0] and a quotient of up to [B <= 2^dB]: the quotient stays in
    the range up to [B] and is within [2^(dB - 52)] of the exact one. *)
Lemma div_bounded (x : double) (my : positive) (ey B dB K : Z) :
  bounded Double.prec Double.emax my ey = true -> ey <= 0 ->
  0 < B <= 2 ^ dB -> 0 <= dB <= 52 ->
  in_range x K ->
  scaled x <= B * (Zpos my * 2 ^ (ey + places)) ->
  in_range (Double.div x (S754_finite false my ey)) B /\
  Z.abs (scaled (Double.div x (S754_finite false my ey))
           * (Zpos my * 2 ^ (ey + places))
         - scaled x * 2 ^ places)
    <= Zpos my * 2 ^ (ey + places) * 2 ^ (places + dB - 52).
Proof.
  intros Vy Hey HB HdB Hx Lx.
  destruct (bounded_exponent my ey Vy) as [Ey _].
  assert (Ey0 : -1074 <= ey) by lia.
  destruct x as [sx|sx| |sx mx ex]; try contradiction.
  { simpl in Hx. subst sx. split; [reflexivity|].
    cbn [Double.div SFdiv scaled xorb].
    rewrite !Z.mul_0_l, Z.sub_diag. cbn [Z.abs].
    apply Z.mul_nonneg_nonneg; [apply Z.mul_nonneg_nonneg|];
      try apply Z.pow_nonneg; lia. }
  destruct Hx as (-> & Vx & _). cbn [scaled cond_Zopp] in Lx.
  destruct (bounded_exponent mx ex Vx) as [Ex _].
  unfold Double.div, SFdiv, SFdiv_core_binary. cbn [xorb scaled cond_Zopp].
  rewrite fexp_double.
  set (d1 := Zdigits2 (Zpos mx)). set (d2 := Zdigits2 (Zpos my)).
  change (Zpos (digits2_pos mx)) with d1 in Ex.
  change (Zpos (digits2_pos my)) with d2 in Ey.
  pose proof (Zdigits2_bounds (Zpos mx) ltac:(lia)) as [L1 U1].
  fold d1 in L1, U1.
  pose proof (Zdigits2_bounds (Zpos my) ltac:(lia)) as [L2 U2].
  fold d2 in L2, U2.
  assert (Q1 : 0 < d1) by (apply Zdigits2_pos; lia).
  assert (Q2 : 0 < d2) by (apply Zdigits2_pos; lia).
  assert (Lin : linear (places = 1074 /\ -1074 <= ey <= 0 /\ -1074 <= ex /\
                0 <= dB <= 52 /\ 0 < d1 /\ 0 < d2))
    by (pose proof places_eq; unfold linear;
        clear - H Hey Ey0 Ex HdB Q1 Q2; lia).
  clear Ex Ey Q1 Q2 Ey0 Hey.
  assert (Px : 0 < 2 ^ (ex + places)) by (apply pow2_pos; lin).
  assert (Py : 0 < 2 ^ (ey + places)) by (apply pow2_pos; lin).
  assert (PdB : 0 < 2 ^ dB) by (apply pow2_pos; lin).
  assert (Pd2 : 0 < 2 ^ d2) by (apply pow2_pos; lin).
  assert (Hd : d1 + ex <= d2 + ey + dB).
  { assert (H : 2 ^ (d1 - 1) * 2 ^ (ex + places)
                < 2 ^ dB * (2 ^ d2 * 2 ^ (ey + places))).
    { eapply Z.le_lt_trans;
        [apply Z.mul_le_mono_nonneg_r; [clear - Px; lia|exact L1]|].
      eapply Z.le_lt_trans; [exact Lx|].
      eapply Z.le_lt_trans;
        [apply Z.mul_le_mono_nonneg_r;
           [apply Z.mul_nonneg_nonneg; clear - Py; lia|apply HB]|].
      apply Z.mul_lt_mono_pos_l; [exact PdB|].
      apply Z.mul_lt_mono_pos_r; [exact Py|exact U2]. }
    rewrite <- !Z.pow_add_r in H by lin.
    apply pow2_lt_inv in H; [clear - H; lia|lin|lin]. }
  set (e' := Z.min (Z.max (d1 + ex - (d2 + ey) - 53) (-1074)) (ex - ey)).
  set (s := ex - ey - e').
  assert (Lin' : linear (places = 1074 /\ -1074 <= ey <= 0 /\ -1074 <= ex /\
                 0 <= dB <= 52 /\ 0 < d1 /\ 0 < d2 /\
                 0 <= s /\ -1074 <= e' <= dB - 53 /\ s = ex - ey - e'))
    by (clear - Lin Hd; unfold linear in *; unfold s, e'; lia).
  clear Lin. rename Lin' into Lin.
  set (m' := match s with
             | 0 => Zpos mx
             | Zpos _ => Z.shiftl (Zpos mx) s
             | Zneg _ => 0
             end).
  assert (Em' : m' = Zpos mx * 2 ^ s).
  { unfold m'. destruct s as [|p|p] eqn:E; [simpl; lia| |lin].
    rewrite Z.shiftl_mul_pow2 by lia. reflexivity. }
  assert (Pe' : 0 < 2 ^ (- e')) by (apply pow2_pos; lin).
  assert (Hm' : m' <= B * 2 ^ (- e') * Zpos my).
  { apply (mul_pow2_le_inv _ _ (e' + ey + (places + places))); [lin|].
    assert (El : m' * 2 ^ (e' + ey + (places + places))
                 = Zpos mx * 2 ^ (ex + places) * 2 ^ places).
    { rewrite Em', <- !Z.mul_assoc, <- !Z.pow_add_r by lin.
      f_equal. f_equal. lin. }
    assert (Ew : 2 ^ (- e') * 2 ^ (e' + ey + (places + places))
                 = 2 ^ (ey + places) * 2 ^ places).
    { rewrite <- !Z.pow_add_r by lin. f_equal. lin. }
    assert (Er : B * 2 ^ (- e') * Zpos my * 2 ^ (e' + ey + (places + places))
                 = B * (Zpos my * 2 ^ (ey + places)) * 2 ^ places).
    { transitivity (B * Zpos my
                    * (2 ^ (- e') * 2 ^ (e' + ey + (places + places))));
        [ring|rewrite Ew; ring]. }
    rewrite El, Er.
    apply Z.mul_le_mono_nonneg_r; [apply Z.pow_nonneg; lia|exact Lx]. }
  pose proof (Z_div_mod m' (Zpos my) eq_refl) as D.
  destruct (Z.div_eucl m' (Zpos my)) as [q r]. destruct D as [D Hr].
  assert (Pm' : 0 < m').
  { rewrite Em'. apply Z.mul_pos_pos; [lia|]. apply pow2_pos; lin. }
  assert (Hq0 : 0 <= q) by (clear - D Hr Pm'; nia).
  set (BE := B * 2 ^ (- e')) in *.
  assert (PBE : 0 < BE)
    by (unfold BE; apply Z.mul_pos_pos; [apply HB|exact Pe']).
  assert (Hq : q <= BE) by (clear - D Hr Hm' PBE; nia).
  assert (Dq : d1 + s - d2 <= Zdigits2 q).
  { pose proof (Zdigits2_nonneg q) as Hn.
    destruct (Z_le_gt_dec (d1 + s - d2) 0) as [G0|G0];
      [clear - G0 Hn; lia|].
    assert (d1 + s - d2 - 1 < Zdigits2 q) as Hlt0; [|clear - Hlt0; lia].
    apply Zdigits2_ge; [clear - G0; lia|].
    destruct (Z_le_gt_dec (2 ^ (d1 + s - d2 - 1)) q) as [G|G]; [exact G|].
    exfalso.
    assert (P : 0 < 2 ^ (d1 + s - d2 - 1))
      by (apply pow2_pos; clear - G0; lia).
    assert (Hlt : m' < 2 ^ (d1 + s - d2 - 1) * Zpos my)
      by (clear - G D Hr P; nia).
    assert (Hge : 2 ^ (d1 + s - d2 - 1) * 2 ^ d2 <= m').
    { rewrite <- Z.pow_add_r by (clear - G0 Lin; unfold linear in Lin; lia).
      replace (d1 + s - d2 - 1 + d2) with (d1 - 1 + s) by (clear; lia).
      rewrite Z.pow_add_r by lin. rewrite Em'.
      apply Z.mul_le_mono_nonneg_r; [apply Z.pow_nonneg; lia|exact L1]. }
    clear - Hlt Hge U2 P. nia. }
  assert (HBE : BE <= 2 ^ (dB - e')).
  { unfold BE. replace (dB - e') with (dB + - e') by (clear; lia).
    rewrite Z.pow_add_r by lin.
    apply Z.mul_le_mono_nonneg_r; [clear - Pe'; lia|apply HB]. }
  assert (Dq' : Zdigits2 q + e' <= dB + 1).
  { assert (Zdigits2 q <= dB - e' + 1) as Hle; [|clear - Hle; lia].
    destruct (Z.eq_dec q (2 ^ (dB - e'))) as [->|Nq].
    - rewrite (Zdigits2_unique (2 ^ (dB - e')) (dB - e' + 1));
        [clear; lia|lin|].
      replace (dB - e' + 1 - 1) with (dB - e') by (clear; lia).
      rewrite Z.pow_add_r by lin.
      assert (0 < 2 ^ (dB - e')) by (apply pow2_pos; lin).
      clear - H. lia.
    - assert (Zdigits2 q <= dB - e') as Hle; [|clear - Hle; lia].
      apply Zdigits2_le; [lin|]. clear - Hq0 Hq HBE Nq. lia. }
  set (e1 := fexp Double.prec Double.emax (Zdigits2 q + e')).
  assert (E1 : e1 = Z.max (Zdigits2 q + e' - 53) (-1074)) by reflexivity.
  set (k := e1 - e').
  assert (Lin' : linear (places = 1074 /\ -1074 <= ey <= 0 /\ -1074 <= ex /\
                 0 <= dB <= 52 /\ 0 <= s /\ -1074 <= e' <= dB - 53 /\
                 s = ex - ey - e' /\ e' <= e1 <= dB - 52 /\ k = e1 - e' /\
                 0 <= k)).
  { assert (He1 : e' <= e1 <= dB - 52)
      by (clear - E1 Dq Dq' Lin; unfold linear in Lin;
          unfold e', s in *; lia).
    clear - Lin He1. unfold linear in *. unfold k. lia. }
  clear Lin. rename Lin' into Lin.
  clear E1 Dq Dq' Hd L1 U1 L2 U2 HBE.
  pose proof (binary_round_aux_value false q e' (new_location (Zpos my) r)
                (B * 2 ^ (- e1)) Hq0) as R.
  fold e1 in R. fold k in R.
  assert (Eb : B * 2 ^ (- e1) * 2 ^ k = BE).
  { unfold BE. rewrite <- Z.mul_assoc, <- Z.pow_add_r by lin.
    f_equal. f_equal. lin. }
  rewrite Eb in R. clear Eb.
  specialize (R ltac:(lin)).
  assert (Hyp2 : q < BE \/
                 (q = BE /\ new_location (Zpos my) r = loc_Exact)).
  { destruct (Z.eq_dec q BE) as [Eq|Nq]; [right|left; clear - Hq Nq; lia].
    split; [exact Eq|].
    assert (r = 0) by (clear - Eq D Hr Hm'; subst q; lia).
    subst r. apply new_location_zero. }
  specialize (R Hyp2). clear Hyp2.
  assert (Eo : B * 2 ^ (- e1) * 2 ^ (e1 + places) = B * 2 ^ places).
  { rewrite <- Z.mul_assoc, <- Z.pow_add_r by lin. f_equal. f_equal. lin. }
  assert (Ho : B * 2 ^ (- e1) * 2 ^ (e1 + places) < 2 ^ (1024 + places)).
  { rewrite Eo.
    assert (H1 : 2 ^ dB < 2 ^ 1024) by (apply Z.pow_lt_mono_r; lin).
    assert (PP : 0 < 2 ^ places) by (apply pow2_pos; lin).
    rewrite Z.pow_add_r by lin.
    apply Z.mul_lt_mono_pos_r; [exact PP|].
    eapply Z.le_lt_trans; [apply HB|exact H1]. }
  specialize (R Ho). clear Ho. destruct R as (m2 & Hr2 & Hb2 & R).
  assert (Pk : 0 < 2 ^ k) by (apply pow2_pos; lin).
  assert (P1 : 0 < 2 ^ (e1 + places)) by (apply pow2_pos; lin).
  assert (Sc : scaled (binary_round_aux Double.prec Double.emax false q e'
                         (new_location (Zpos my) r))
               = m2 * 2 ^ (e1 + places) /\
               in_range (binary_round_aux Double.prec Double.emax false q e'
                           (new_location (Zpos my) r)) B).
  { destruct (binary_round_aux Double.prec Double.emax false q e'
                (new_location (Zpos my) r)) as [s0|s0| |s0 m e];
      try contradiction.
    - destruct R as [-> ->]. split; reflexivity.
    - destruct R as (-> & Hb & Hge & <-). cbn [scaled cond_Zopp in_range].
      assert (E : Zpos m * 2 ^ (e + places)
                  = Zpos m * 2 ^ (e - e1) * 2 ^ (e1 + places)).
      { rewrite <- Z.mul_assoc, <- Z.pow_add_r by (clear - Hge Lin; unfold linear in Lin; lia).
        f_equal. f_equal. clear; lia. }
      split; [exact E|]. repeat split; auto.
      rewrite E, <- Eo.
      apply Z.mul_le_mono_nonneg_r; [clear - P1; lia|exact Hb2]. }
  clear Eo.
  destruct Sc as [Sc Hin]. split; [exact Hin|]. rewrite Sc.
  clear Sc Hin R.
  (* the neighbours of the quotient, at the exponent of the format *)
  assert (Dm : - (2 ^ k * Zpos my) <= m2 * (2 ^ k * Zpos my) - m'
               <= 2 ^ k * Zpos my).
  { pose proof (Z.div_mod q (2 ^ k) ltac:(clear - Pk; lia)) as Dv.
    pose proof (Z.mod_pos_bound q (2 ^ k) Pk) as Mv.
    set (m1 := q / 2 ^ k) in *. set (rk := q mod 2 ^ k) in *.
    set (T := 2 ^ k) in *.
    clear - Dv Mv Hr2 D Hr Pk.
    assert (C : m2 = m1 \/ m2 = m1 + 1) by lia.
    assert (L : m1 * T * Zpos my <= m') by nia.
    assert (U : m' < (m1 + 1) * T * Zpos my) by nia.
    destruct C as [->| ->]; split; nia. }
  set (A := 2 ^ k * Zpos my) in *.
  assert (PA : 0 < A) by (unfold A; apply Z.mul_pos_pos; [exact Pk|lia]).
  clear D Hr Hm' Hq Hq0 Hr2 Hb2 PBE.
  (* both sides in units of [2^(e' + ey - 2 * 1074)] *)
  set (F := 2 ^ (e' + places) * 2 ^ (ey + places)).
  assert (PF : 0 < F)
    by (unfold F; apply Z.mul_pos_pos; [apply pow2_pos; lin|exact Py]).
  assert (E1' : 2 ^ (e1 + places) = 2 ^ k * 2 ^ (e' + places)).
  { rewrite <- Z.pow_add_r by lin. f_equal. lin. }
  assert (Gx : Zpos mx * 2 ^ (ex + places) * 2 ^ places = m' * F).
  { unfold F. rewrite Em', <- !Z.mul_assoc, <- !Z.pow_add_r by lin.
    f_equal. f_equal. lin. }
  assert (Gq : m2 * 2 ^ (e1 + places) * (Zpos my * 2 ^ (ey + places))
               = m2 * A * F).
  { rewrite E1'. unfold A, F. ring. }
  assert (Gb : Zpos my * 2 ^ (ey + places) * 2 ^ (e1 + places) = A * F).
  { rewrite E1'. unfold A, F. ring. }
  assert (Le : 2 ^ (e1 + places) <= 2 ^ (places + dB - 52))
    by (apply Z.pow_le_mono_r; lin).
  rewrite Gq, Gx.
  replace (m2 * A * F - m' * F) with ((m2 * A - m') * F) by ring.
  eapply Z.le_trans;
    [|apply Z.mul_le_mono_nonneg_l; [|exact Le];
      apply Z.mul_nonneg_nonneg; [lia|clear - Py; lia]].
  rewrite Gb.
  set (dm := m2 * A - m') in *.
  clear - Dm PF PA. apply Z.abs_le. split.
  - replace (- (A * F)) with (- A * F) by ring.
    apply Z.mul_le_mono_nonneg_r; lia.
  - apply Z.mul_le_mono_nonneg_r; lia.
Qed.

(** ** The order of doubles and the order of their values *)

Lemma canonical_lt (m1 m2 : positive) (e1 e2 : Z) :
  bounded Double.prec Double.emax m1 e1 = true ->
  bounded Double.prec Double.emax m2 e2 = true ->
  e1 < e2 ->
  Zpos m1 * 2 ^ (e1 + places) < Zpos m2 * 2 ^ (e2 + places).
Proof.
  intros V1 V2 He.
  destruct (bounded_exponent m1 e1 V1) as [E1 _].
  destruct (bounded_exponent m2 e2 V2) as [E2 _].
  pose proof (digits2_pos_bounds m1) as [_ U1].
  pose proof (digits2_pos_bounds m2) as [L2 _].
  set (d1 := Zpos (digits2_pos m1)) in *.
  set (d2 := Zpos (digits2_pos m2)) in *.
  assert (Lin : linear (places = 1074 /\ -1074 <= e1 /\ e1 < e2 /\
                        d2 = 53 /\ 0 < d1 <= 53))
    by (pose proof places_eq; unfold linear, d1, d2 in *; lia).
  clear E1 E2 He.
  assert (P1 : 0 < 2 ^ (e1 + places)) by (apply pow2_pos; lin).
  assert (P2 : 0 < 2 ^ (e2 + places)) by (apply pow2_pos; lin).
  assert (H1 : Zpos m1 * 2 ^ (e1 + places) < 2 ^ 53 * 2 ^ (e1 + places)).
  { apply Z.mul_lt_mono_pos_r; [exact P1|].
    eapply Z.lt_le_trans; [exact U1|]. apply Z.pow_le_mono_r; lin. }
  assert (H2 : 2 ^ 52 * 2 ^ (e2 + places) <= Zpos m2 * 2 ^ (e2 + places)).
  { apply Z.mul_le_mono_nonneg_r; [clear - P2; lia|].
    replace 52 with (d2 - 1) by lin. exact L2. }
  assert (H3 : 2 ^ 53 * 2 ^ (e1 + places) <= 2 ^ 52 * 2 ^ (e2 + places)).
  { rewrite <- !Z.pow_add_r by lin. apply Z.pow_le_mono_r; lin. }
  clear - H1 H2 H3. lia.
Qed.

(** On doubles that are valid and not negative, [SFcompare] compares the
    values. *)
Lemma compare_scaled (a b : double) (Ba Bb : Z) :
  in_range a Ba -> in_range b Bb ->
  SFcompare a b = Some (scaled a ?= scaled b).
Proof.
  intros Ha Hb.
  destruct a as [sa|sa| |sa ma ea]; try contradiction;
    destruct b as [sb|sb| |sb mb eb]; try contradiction.
  - reflexivity.
  - destruct Hb as (-> & Vb & _). cbn [SFcompare scaled cond_Zopp].
    destruct (bounded_exponent mb eb Vb) as [Eb _].
    assert (0 < 2 ^ (eb + places))
      by (apply pow2_pos; pose proof places_eq; lia).
    symmetry. f_equal. apply Z.compare_lt_iff. lia.
  - destruct Ha as (-> & Va & _). cbn [SFcompare scaled cond_Zopp].
    destruct (bounded_exponent ma ea Va) as [Ea _].
    assert (0 < 2 ^ (ea + places))
      by (apply pow2_pos; pose proof places_eq; lia).
    symmetry. f_equal. apply Z.compare_gt_iff. lia.
  - destruct Ha as (-> & Va & _), Hb as (-> & Vb & _).
    cbn [SFcompare scaled cond_Zopp]. f_equal. symmetry.
    destruct (Z.compare_spec ea eb) as [E|E|E].
    + subst eb. destruct (bounded_exponent ma ea Va) as [Ea _].
      assert (P : 0 < 2 ^ (ea + places))
        by (apply pow2_pos; pose proof places_eq; lia).
      rewrite Pos.compare_cont_spec. cbn [Pos.switch_Eq].
      destruct (Pos.compare_spec ma mb) as [Em|Em|Em].
      * subst mb. apply Z.compare_refl.
      * apply Z.compare_lt_iff, Z.mul_lt_mono_pos_r; [exact P|lia].
      * apply Z.compare_gt_iff, Z.mul_lt_mono_pos_r; [exact P|lia].
    + apply Z.compare_lt_iff, canonical_lt; assumption.
    + apply Z.compare_gt_iff, canonical_lt; assumption.
Qed.

(** ** [round] on small doubles *)

(** On a valid double between 0 and [B < 2^52] [round] gives the double
    of an integer [q <= B] that is within one half of the argument. *)
Lemma round_of_int (t : double) (B : Z) :
  in_range t B -> 0 <= B < 2 ^ 52 ->
  exists q : Z,
    0 <= q <= B /\ Double.round t = Double.of_int q /\
    Z.abs (q * 2 ^ places - scaled t) <= 2 ^ (places - 1).
Proof.
  intros Ht HB.
  assert (PP : 0 < 2 ^ (places - 1))
    by (apply pow2_pos; pose proof places_eq; lia).
  destruct t as [s|s| |s m e]; try contradiction.
  { simpl in Ht. subst s. exists 0. split; [lia|]. split; [reflexivity|].
    cbn [scaled]. rewrite Z.mul_0_l, Z.sub_0_r. cbn [Z.abs]. lia. }
  destruct Ht as (-> & V & Hle).
  destruct (bounded_exponent m e V) as [E _].
  pose proof (digits2_pos_bounds m) as [L U].
  set (d := Zpos (digits2_pos m)) in *.
  assert (P0 : 0 < 2 ^ places) by (apply pow2_pos; pose proof places_eq; lia).
  (* the exponent is negative: the value is below [2^52] *)
  assert (He : e < 0).
  { destruct (Z_lt_ge_dec e 0) as [G|G]; [exact G|exfalso].
    assert (Ed : d = 53) by lia.
    assert (H52 : 2 ^ 52 <= Zpos m)
      by (replace 52 with (d - 1) by lia; exact L).
    assert (H1 : 2 ^ 52 * 2 ^ places <= Zpos m * 2 ^ (e + places)).
    { rewrite (Z.pow_add_r 2 e places) by (pose proof places_eq; lia).
      assert (1 <= 2 ^ e) by (apply Z.lt_pred_le, pow2_pos; lia).
      eapply Z.le_trans;
        [apply Z.mul_le_mono_nonneg_r; [clear - P0; lia|exact H52]|].
      rewrite Z.mul_assoc.
      apply Z.mul_le_mono_nonneg_r; [clear - P0; lia|].
      set (X := 2 ^ e) in *. clear - H. nia. }
    assert (H2 : B * 2 ^ places < 2 ^ 52 * 2 ^ places)
      by (apply Z.mul_lt_mono_pos_r; [exact P0|apply HB]).
    clear - H1 H2 Hle. lia. }
  assert (Lin : linear (places = 1074 /\ -1074 <= e < 0))
    by (pose proof places_eq; unfold linear; clear - H E He; lia).
  clear E L U.
  set (n := - e). assert (Hn : 0 < n) by (unfold n; lia).
  set (q := (Zpos m + 2 ^ (n - 1)) / 2 ^ n).
  assert (Pn : 0 < 2 ^ n) by (apply pow2_pos; lia).
  assert (Pn1 : 0 < 2 ^ (n - 1)) by (apply pow2_pos; lia).
  assert (En : 2 ^ n = 2 * 2 ^ (n - 1)).
  { replace n with (1 + (n - 1)) at 1 by lia.
    rewrite Z.pow_add_r by lia. reflexivity. }
  pose proof (Z.div_mod (Zpos m + 2 ^ (n - 1)) (2 ^ n) ltac:(lia)) as Dv.
  pose proof (Z.mod_pos_bound (Zpos m + 2 ^ (n - 1)) (2 ^ n) Pn) as Mv.
  fold q in Dv.
  assert (Hq0 : 0 <= q) by (apply Z.div_pos; lia).
  (* [q] is within [2^(n-1)] of [m], in units of [2^-n] *)
  assert (Hc : - 2 ^ (n - 1) <= q * 2 ^ n - Zpos m <= 2 ^ (n - 1)).
  { set (rr := (Zpos m + 2 ^ (n - 1)) mod 2 ^ n) in *.
    set (T := 2 ^ n) in *. set (T1 := 2 ^ (n - 1)) in *.
    clear - Dv Mv En. lia. }
  assert (Ep : 2 ^ places = 2 ^ n * 2 ^ (e + places)).
  { rewrite <- Z.pow_add_r by (unfold n; lin). f_equal. unfold n. lia. }
  assert (Ep1 : 2 ^ (places - 1) = 2 ^ (n - 1) * 2 ^ (e + places)).
  { rewrite <- Z.pow_add_r by (unfold n; lin). f_equal. unfold n. lia. }
  assert (Pe : 0 < 2 ^ (e + places)) by (apply pow2_pos; lin).
  assert (HqB : q <= B).
  { destruct (Z_le_gt_dec q B) as [G|G]; [exact G|exfalso].
    assert (H1 : (B + 1) * 2 ^ n <= q * 2 ^ n)
      by (apply Z.mul_le_mono_nonneg_r; lia).
    assert (H2 : Zpos m * 2 ^ (e + places) <= B * 2 ^ n * 2 ^ (e + places))
      by (rewrite <- Z.mul_assoc, <- Ep; exact Hle).
    assert (H3 : Zpos m <= B * 2 ^ n).
    { set (T := 2 ^ n) in *. set (W := 2 ^ (e + places)) in *.
      clear - H2 Pe. nia. }
    set (T := 2 ^ n) in *. set (T1 := 2 ^ (n - 1)) in *.
    clear - H1 H3 Hc En Pn1. lia. }
  exists q. split; [lia|]. split.
  - unfold Double.round.
    replace (0 <=? e) with false by (symmetry; apply Z.leb_gt; lia).
    fold n. fold q. unfold Double.of_int.
    destruct q as [|p|p]; [reflexivity|reflexivity|lia].
  - cbn [scaled cond_Zopp]. rewrite Ep, Ep1.
    replace (q * (2 ^ n * 2 ^ (e + places)) - Zpos m * 2 ^ (e + places))
      with ((q * 2 ^ n - Zpos m) * 2 ^ (e + places)) by ring.
    set (dq := q * 2 ^ n - Zpos m) in *. set (T1 := 2 ^ (n - 1)) in *.
    set (W := 2 ^ (e + places)) in *.
    clear - Hc Pe. apply Z.abs_le. split.
    + replace (- (T1 * W)) with (- T1 * W) by ring.
      apply Z.mul_le_mono_nonneg_r; lia.
    + apply Z.mul_le_mono_nonneg_r; lia.
Qed.

(** ** How far a bucket is from the brightness *)

Lemma bucket_value_close (k : Z) :
  0 <= k <= 100 ->
  in_range (bucket_value k) 1 /\
  Z.abs (scaled (bucket_value k) - k * scaled ROUND_TO) <= 2 ^ (places - 52).
Proof.
  intros Hk.
  assert (H : forallb (fun n => bucket_closeb (Z.of_nat n)) (seq 0 101) = true)
    by (vm_compute; reflexivity).
  rewrite forallb_forall in H.
  specialize (H (Z.to_nat k)). rewrite Z2Nat.id in H by lia.
  unfold bucket_closeb in H.
  apply andb_true_iff in H; [|apply in_seq; lia].
  destruct H as [H1 H2]. split.
  - apply in_rangeb_spec, H1.
  - apply Z.leb_le, H2.
Qed.

Lemma in_range_scaled (x : double) (B : Z) :
  0 <= B -> in_range x B -> 0 <= scaled x <= B * 2 ^ places.
Proof.
  intros HB. assert (0 < 2 ^ places) by (apply pow2_pos; pose proof places_eq; lia).
  destruct x as [s|s| |s m e]; try contradiction; cbn [in_range scaled].
  - intros _. split; [lia|]. apply Z.mul_nonneg_nonneg; lia.
  - intros (-> & Hb & Hle). cbn [cond_Zopp]. split; [|exact Hle].
    apply Z.mul_nonneg_nonneg; [lia|]. apply Z.pow_nonneg. lia.
Qed.

(** The rounded brightness that the comparator looks at is a valid double
    between 0 and 1, and within half of [ROUND_TO], and [2^-50], of the
    brightness. *)
Lemma rounded_close (x : double) :
  in_range x 1 ->
  in_range (rounded x) 1 /\
  2 * Z.abs (scaled (rounded x) - scaled x)
    <= scaled ROUND_TO + 2 ^ (places - 49).
Proof.
  intros Hx.
  pose proof (in_range_scaled x 1 ltac:(lia) Hx) as [Sx0 Sx1].
  rewrite Z.mul_1_l in Sx1.
  assert (Lin : linear (places = 1074))
    by (unfold linear; apply places_eq).
  set (v := 2 ^ (places - 59)).
  assert (Pv : 0 < v) by (apply pow2_pos; lin).
  assert (Eu : 2 ^ places = 576460752303423488 * v).
  { change 576460752303423488 with (2 ^ 59). unfold v.
    rewrite <- Z.pow_add_r by lin. f_equal; lin. }
  assert (ER : scaled ROUND_TO = 5764607523034235 * v).
  { unfold ROUND_TO, v. cbn [scaled cond_Zopp]. f_equal; f_equal; lin. }
  destruct (div_bounded x 5764607523034235 (-59) 100 7 1)
    as [Ht F1]; [reflexivity|lia|cbn; lia|lia|exact Hx| |].
  { change (2 ^ (-59 + places)) with (2 ^ (-59 + places)).
    replace (-59 + places) with (places - 59) by lin. fold v.
    rewrite Eu in Sx1. clear - Sx1 Pv. lia. }
  fold ROUND_TO in Ht, F1.
  set (t := Double.div x ROUND_TO) in *.
  destruct (round_of_int t 100 Ht ltac:(cbn; lia)) as (q & Hq & Er & F2).
  destruct (bucket_value_close q Hq) as [Hb F3].
  assert (Eb : rounded x = bucket_value q).
  { unfold rounded, bucket_value. fold t. rewrite Er. reflexivity. }
  rewrite Eb. split; [exact Hb|].
  (* the three steps, in units of [v = 2^(-1074 + 59)] *)
  replace (-59 + places) with (places - 59) in F1 by lin. fold v in F1.
  replace (places + 7 - 52) with (14 + (places - 59)) in F1 by lin.
  rewrite (Z.pow_add_r 2 14) in F1 by lin. fold v in F1.
  replace (places - 1) with (58 + (places - 59)) in F2 by lin.
  rewrite (Z.pow_add_r 2 58) in F2 by lin. fold v in F2.
  replace (places - 52) with (7 + (places - 59)) in F3 by lin.
  rewrite (Z.pow_add_r 2 7) in F3 by lin. fold v in F3.
  replace (places - 49) with (10 + (places - 59)) by lin.
  rewrite (Z.pow_add_r 2 10) by lin. fold v.
  rewrite ER in *. rewrite Eu in F1, F2.
  change (2 ^ 14) with 16384 in F1. change (2 ^ 58) with 288230376151711744 in F2.
  change (2 ^ 7) with 128 in F3. change (2 ^ 10) with 1024.
  set (a := scaled (bucket_value q)) in *. set (b := scaled x) in *.
  set (c := scaled t) in *.
  clear - F1 F2 F3 Pv.
  (* the first step, freed of the common factor [v] *)
  assert (G1 : Z.abs (c * 5764607523034235 - b * 576460752303423488)
               <= 5764607523034235 * 16384 * v).
  { apply Z.abs_le in F1. apply Z.abs_le. split.
    - apply (Z.mul_le_mono_pos_r _ _ v Pv).
      eapply Z.le_trans; [|eapply Z.le_trans; [apply (proj1 F1)|]];
        [apply Z.eq_le_incl; ring|apply Z.eq_le_incl; ring].
    - apply (Z.mul_le_mono_pos_r _ _ v Pv).
      eapply Z.le_trans; [|eapply Z.le_trans; [apply (proj2 F1)|]];
        [apply Z.eq_le_incl; ring|apply Z.eq_le_incl; ring]. }
  clear F1. set (w := q * v) in *.
  replace (q * (576460752303423488 * v)) with (576460752303423488 * w) in F2
    by (unfold w; ring).
  replace (q * (5764607523034235 * v)) with (5764607523034235 * w) in F3
    by (unfold w; ring).
  clearbody a b c w. clear q.
  apply Z.abs_le in G1, F2, F3.
  destruct (Z.abs_spec (a - b)) as [[_ ->]|[_ ->]]; lia.
Qed.

(** X15.  For a brightness between 0 and 1 (what [processNextFrame]
    records for a frame with pixels) the value
    [round(x / ROUND_TO) * ROUND_TO] that the comparator looks at is again
    a valid double between 0 and 1, and it differs from the brightness by at
    most half of [ROUND_TO] plus [2^-50]: the three roundings of the
    expression cost less than [2^-50]. *)
Theorem rounded_brightness_close (x : double) :
  in_range x 1 ->
  in_range (rounded x) 1 /\
  Double.leb Double.zero (rounded x) = true /\
  Double.leb (rounded x) Double.one = true /\
  2 * Z.abs (scaled (rounded x) - scaled x)
    <= scaled ROUND_TO + 2 ^ (places - 49).
Proof.
  intros Hx. destruct (rounded_close x Hx) as [Hr Hc].
  destruct (in_range_one_leb (rounded x) Hr) as [H0 H1].
  repeat split; assumption.
Qed.

Lemma rounded_brightness_close_witness :
  in_range (rounded (decimal 76499 3060000)) 1 /\
  2 * Z.abs (scaled (rounded (decimal 76499 3060000))
             - scaled (decimal 76499 3060000))
    <= scaled ROUND_TO + 2 ^ (places - 49).
Proof.
  destruct (rounded_brightness_close (decimal 76499 3060000))
    as (H1 & _ & _ & H2).
  - apply in_rangeb_spec. vm_compute. reflexivity.
  - split; [exact H1|exact H2].
Defined.

(** The comparator on records whose brightness is between 0 and 1, by the
    values of the two rounded brightnesses. *)
Lemma FrameBrightnessSort_values (a b : FrameData) :
  in_range (mBrightness a) 1 -> in_range (mBrightness b) 1 ->
  FrameBrightnessSort a b =
  if scaled (rounded (mBrightness a)) =? scaled (rounded (mBrightness b))
  then mIndex a <? mIndex b
  else scaled (rounded (mBrightness a)) <? scaled (rounded (mBrightness b)).
Proof.
  intros Ha Hb.
  destruct (rounded_close _ Ha) as [Ra _].
  destruct (rounded_close _ Hb) as [Rb _].
  unfold FrameBrightnessSort, Double.neb, Double.eqb, Double.ltb,
    SFeqb, SFltb.
  rewrite (compare_scaled _ _ 1 1 Ra Rb).
  destruct (Z.compare_spec (scaled (rounded (mBrightness a)))
              (scaled (rounded (mBrightness b)))) as [E|E|E]; cbn [negb].
  - rewrite E, Z.eqb_refl. reflexivity.
  - replace (_ =? _) with false by (symmetry; apply Z.eqb_neq; lia).
    symmetry. apply Z.ltb_lt. exact E.
  - replace (_ =? _) with false by (symmetry; apply Z.eqb_neq; lia).
    symmetry. apply Z.ltb_ge. lia.
Qed.

(** X16.  The comparator follows the brightness up to one bucket width.
    For two records with brightness between 0 and 1: a record the
    comparator puts first is brighter than the other by at most
    [ROUND_TO + 2^-49]; and a record that is darker than the other by more
    than that is put first, whatever the two indices are. *)
Theorem FrameBrightnessSort_brightness (a b : FrameData) :
  in_range (mBrightness a) 1 -> in_range (mBrightness b) 1 ->
  (FrameBrightnessSort a b = true ->
   scaled (mBrightness a)
     <= scaled (mBrightness b) + scaled ROUND_TO + 2 ^ (places - 49)) /\
  (scaled (mBrightness a) + scaled ROUND_TO + 2 ^ (places - 49)
     < scaled (mBrightness b) ->
   FrameBrightnessSort a b = true /\ FrameBrightnessSort b a = false).
Proof.
  intros Ha Hb.
  destruct (rounded_close _ Ha) as [_ Ca].
  destruct (rounded_close _ Hb) as [_ Cb].
  rewrite (FrameBrightnessSort_values a b Ha Hb),
    (FrameBrightnessSort_values b a Hb Ha).
  set (xa := scaled (mBrightness a)) in *.
  set (xb := scaled (mBrightness b)) in *.
  set (ra := scaled (rounded (mBrightness a))) in *.
  set (rb := scaled (rounded (mBrightness b))) in *.
  set (w := scaled ROUND_TO) in *. set (d := 2 ^ (places - 49)) in *.
  clearbody xa xb ra rb w d.
  split.
  - intros H.
    assert (ra <= rb).
    { destruct (Z.eqb_spec ra rb) as [E|E]; [lia|].
      apply Z.ltb_lt in H. lia. }
    lia.
  - intros H.
    assert (ra < rb) by lia.
    destruct (Z.eqb_spec ra rb) as [E|E]; [lia|].
    destruct (Z.eqb_spec rb ra) as [E'|E']; [lia|].
    split; [apply Z.ltb_lt|apply Z.ltb_ge]; lia.
Qed.

Lemma FrameBrightnessSort_brightness_witness :
  let a := mkFrameData 9 (decimal 48 100) in
  let b := mkFrameData 1 (decimal 52 100) in
  FrameBrightnessSort a b = true /\ FrameBrightnessSort b a = false.
Proof.
  intros a b.
  destruct (FrameBrightnessSort_brightness a b) as [_ H].
  - apply in_rangeb_spec. vm_compute. reflexivity.
  - apply in_rangeb_spec. vm_compute. reflexivity.
  - apply H. vm_compute. reflexivity.
Defined.

(** ** The sorted table and the output, by brightness *)

Lemma StronglySorted_nth_rel {A} (R : A -> A -> Prop) (l : list A) :
  StronglySorted R l ->
  forall (i j : nat) (x y : A),
    (i < j)%nat -> nth_error l i = Some x -> nth_error l j = Some y ->
    R x y.
Proof.
  induction 1 as [|z l Hs IH Hf]; intros i j x y Hij Hi Hj.
  - destruct i; discriminate.
  - destruct j as [|j]; [lia|]. cbn [nth_error] in Hj.
    destruct i as [|i].
    + cbn [nth_error] in Hi. injection Hi as ->.
      rewrite Forall_forall in Hf. apply Hf.
      eapply nth_error_In. exact Hj.
    + cbn [nth_error] in Hi. apply (IH i j); [lia|exact Hi|exact Hj].
Qed.

(** In a table without inversions between neighbours, whose brightnesses
    are between 0 and 1, the rounded brightness never decreases. *)
Lemma sorted_rounded (l : list FrameData) :
  Sorted (not_after FrameBrightnessSort) l ->
  Forall (fun r => in_range (mBrightness r) 1) l ->
  StronglySorted
    (fun x y => scaled (rounded (mBrightness x))
                <= scaled (rounded (mBrightness y))) l.
Proof.
  induction 1 as [|x l Hs IH Hd]; intros Hf; [constructor|].
  inversion Hf as [|? ? Hx Hl]; subst.
  specialize (IH Hl). constructor; [exact IH|].
  destruct Hd as [|y l Hxy]; [constructor|].
  inversion Hl as [|? ? Hy Hl']; subst.
  assert (Exy : scaled (rounded (mBrightness x))
                <= scaled (rounded (mBrightness y))).
  { unfold not_after in Hxy.
    rewrite (FrameBrightnessSort_values y x Hy Hx) in Hxy.
    destruct (Z.eqb_spec (scaled (rounded (mBrightness y)))
                (scaled (rounded (mBrightness x)))) as [E|E]; [lia|].
    apply Z.ltb_ge in Hxy. exact Hxy. }
  constructor; [exact Exy|].
  inversion IH as [|? ? _ Hall]; subst.
  eapply Forall_impl; [|exact Hall].
  cbn beta. intros z Hz. lia.
Qed.

Lemma sorted_brightness (l : list FrameData) :
  Sorted (not_after FrameBrightnessSort) l ->
  Forall (fun r => in_range (mBrightness r) 1) l ->
  forall (i j : nat) (x y : FrameData),
    (i < j)%nat -> nth_error l i = Some x -> nth_error l j = Some y ->
    scaled (mBrightness x)
      <= scaled (mBrightness y) + scaled ROUND_TO + 2 ^ (places - 49).
Proof.
  intros Hs Hf i j x y Hij Hi Hj.
  pose proof (StronglySorted_nth_rel _ l (sorted_rounded l Hs Hf)
                i j x y Hij Hi Hj) as H.
  cbn beta in H.
  rewrite Forall_forall in Hf.
  destruct (rounded_close _ (Hf x (nth_error_In _ _ Hi))) as [_ Cx].
  destruct (rounded_close _ (Hf y (nth_error_In _ _ Hj))) as [_ Cy].
  set (xa := scaled (mBrightness x)) in *.
  set (xb := scaled (mBrightness y)) in *.
  set (ra := scaled (rounded (mBrightness x))) in *.
  set (rb := scaled (rounded (mBrightness y))) in *.
  set (w := scaled ROUND_TO) in *. set (d := 2 ^ (places - 49)) in *.
  clearbody xa xb ra rb w d. clear - H Cx Cy. lia.
Qed.

(** X17.  After [sortMovie] the table is in order of brightness up to one
    bucket width: if every brightness is between 0 and 1, a record is
    brighter than any record after it by at most [ROUND_TO + 2^-49]. *)
Theorem sortMovie_brightness_order (a : LuminOrderApp) :
  Forall (fun r => in_range (mBrightness r) 1) (mFrameData a) ->
  forall (i j : nat) (x y : FrameData),
    (i < j)%nat ->
    nth_error (mFrameData (snd (sortMovie a))) i = Some x ->
    nth_error (mFrameData (snd (sortMovie a))) j = Some y ->
    scaled (mBrightness x)
      <= scaled (mBrightness y) + scaled ROUND_TO + 2 ^ (places - 49).
Proof.
  intros Hf. rewrite sortMovie_eq.
  cbn [snd mFrameData with_offsets_txt with_mFrameIndex with_mSorted
         with_mFrameData].
  apply sorted_brightness.
  - apply std_sort_Sorted, FrameBrightnessSort_asym.
  - eapply Permutation_Forall; [apply std_sort_perm|exact Hf].
Qed.

Lemma sortMovie_brightness_order_witness :
  let a := with_mFrameData sample_table (setup None None None) in
  let x := mkFrameData 2 (decimal 48 100) in
  let y := mkFrameData 3 (decimal 52 100) in
  nth_error (mFrameData (snd (sortMovie a))) 0 = Some x /\
  nth_error (mFrameData (snd (sortMovie a))) 3 = Some y /\
  scaled (mBrightness x)
    <= scaled (mBrightness y) + scaled ROUND_TO + 2 ^ (places - 49).
Proof.
  intros a x y.
  assert (Hx : nth_error (mFrameData (snd (sortMovie a))) 0 = Some x)
    by (vm_compute; reflexivity).
  assert (Hy : nth_error (mFrameData (snd (sortMovie a))) 3 = Some y)
    by (vm_compute; reflexivity).
  split; [exact Hx|]. split; [exact Hy|].
  apply (sortMovie_brightness_order a) with (i := 0%nat) (j := 3%nat);
    [|lia|exact Hx|exact Hy].
  change (mFrameData a) with sample_table. unfold sample_table.
  repeat (apply Forall_cons;
          [apply in_rangeb_spec; vm_compute; reflexivity|]).
  apply Forall_nil.
Defined.

Lemma analysed_brightness (m : MovieSurface) (pos : Z) (n : nat)
    (r : FrameData) :
  In r (analysed m pos pos n) ->
  mBrightness r = brightness_at m (mIndex r).
Proof.
  unfold analysed. intros H. apply in_map_iff in H.
  destruct H as (j & <- & _). reflexivity.
Qed.

Lemma Forall2_nth_error_r {A B} (R : A -> B -> Prop) (l : list A)
    (l' : list B) :
  Forall2 R l l' ->
  forall (i : nat) (y : B),
    nth_error l' i = Some y ->
    exists x, nth_error l i = Some x /\ R x y.
Proof.
  induction 1 as [|x y l l' Hxy _ IH]; intros i z Hi.
  - destruct i; discriminate.
  - destruct i as [|i].
    + cbn [nth_error] in Hi. injection Hi as <-.
      exists x. split; [reflexivity|exact Hxy].
    + cbn [nth_error] in Hi |- *. apply IH, Hi.
Qed.

(** X18.  The output movie is in order of brightness up to one bucket
    width.  From a freshly set-up application, on a movie whose frames from
    [START_FRAME] on can all be decoded and have at least one pixel (and a
    pixel count within an [int]), [loadMovieFile] writes [N - START_FRAME]
    frames, and no frame of the output is brighter than a later frame of the
    output by more than [ROUND_TO + 2^-49], brightness being what
    [processNextFrame] computes for the frame. *)
Theorem loadMovieFile_output_order (start_frame : Z)
    (frames : list (option Surface8u)) (offsets : option string)
    (output : option (list Surface8u)) :
  0 <= start_frame <= Z.of_nat (List.length frames) ->
  (forall i, start_frame <= i < Z.of_nat (List.length frames) ->
     exists s, frameAt (mkMovie frames 0) i = Some s /\
               0 < getWidth s /\ 0 < getHeight s /\
               getWidth s * getHeight s < 2 ^ 31) ->
  exists written : list Surface8u,
    output_mov (snd (loadMovieFile start_frame
                       (setup (Some frames) offsets output))) = Some written /\
    Z.of_nat (List.length written) =
      Z.of_nat (List.length frames) - start_frame /\
    forall (i j : nat) (s s' : Surface8u),
      (i < j)%nat ->
      nth_error written i = Some s -> nth_error written j = Some s' ->
      scaled (surface_brightness s)
        <= scaled (surface_brightness s') + scaled ROUND_TO
           + 2 ^ (places - 49).
Proof.
  intros Hs Hframes.
  set (a := setup (Some frames) offsets output).
  set (m := mkMovie frames 0) in *.
  set (n := Z.to_nat (Z.of_nat (List.length frames) - start_frame)).
  assert (Hok : forall i, start_frame <= i < Z.of_nat (List.length frames) ->
                          frameAt m i <> None).
  { intros i Hi. destruct (Hframes i Hi) as (s & -> & _). discriminate. }
  destruct (loadMovieFile_decodable start_frame a frames eq_refl
              (proj1 Hs) Hok)
    as (a2 & E & D & S & _ & M & _ & _).
  cbn zeta in D. change (mFrameData a) with (@nil FrameData) in D.
  cbn [app] in D. fold m n in D.
  set (t := std_sort FrameBrightnessSort (analysed m start_frame start_frame n))
    in *.
  assert (Hp : Permutation (analysed m start_frame start_frame n) t)
    by apply std_sort_perm.
  assert (Hm : forall i, frameAt (mMovie a2) i = frameAt m i)
    by (intros i; apply frameAt_frames; exact M).
  (* every record names a frame with pixels, and holds its brightness *)
  assert (Hrec : forall r, In r t ->
            exists s, frameAt m (mIndex r) = Some s /\
                      mBrightness r = surface_brightness s /\
                      in_range (surface_brightness s) 1).
  { intros r Hr. apply (Permutation_in _ (Permutation_sym Hp)) in Hr.
    pose proof (analysed_brightness m start_frame n r Hr) as Hb.
    apply analysed_In in Hr. destruct Hr as (j & Hj & Ej).
    destruct (Hframes (mIndex r)) as (s & Fs & Hw & Hh & Ha);
      [unfold n in Hj; lia|].
    exists s. split; [exact Fs|]. split.
    - rewrite Hb. unfold brightness_at. rewrite Fs. reflexivity.
    - apply surface_brightness_in_range; assumption. }
  assert (Hall : forall r, In r (mFrameData a2) ->
                   frameAt (mMovie a2) (mIndex r) <> None).
  { intros r Hr. rewrite D in Hr. destruct (Hrec r Hr) as (s & Fs & _).
    rewrite Hm, Fs. discriminate. }
  destruct (saveMovie_spec a2 S Hall) as (a3 & E3 & O3 & _).
  rewrite E, E3. cbn [snd].
  exists (fetched (mMovie a2) (mFrameData a2)). split; [exact O3|].
  pose proof (fetched_Forall2 (mMovie a2) (mFrameData a2) Hall) as F2.
  rewrite D in *. split.
  - rewrite <- (Forall2_length F2), <- (Permutation_length Hp),
      analysed_length. unfold n. lia.
  - intros i j s s' Hij Hi Hj.
    destruct (Forall2_nth_error_r _ _ _ F2 i s Hi) as (x & Xi & Fx).
    destruct (Forall2_nth_error_r _ _ _ F2 j s' Hj) as (y & Yj & Fy).
    cbn beta in Fx, Fy. rewrite Hm in Fx, Fy.
    destruct (Hrec x (nth_error_In _ _ Xi)) as (sx & Fsx & Bx & _).
    destruct (Hrec y (nth_error_In _ _ Yj)) as (sy & Fsy & By & _).
    rewrite Fx in Fsx. injection Fsx as <-.
    rewrite Fy in Fsy. injection Fsy as <-.
    rewrite <- Bx, <- By.
    apply (sorted_brightness t) with (i := i) (j := j);
      [apply std_sort_Sorted, FrameBrightnessSort_asym| |exact Hij
      |exact Xi|exact Yj].
    apply Forall_forall. intros r Hr.
    destruct (Hrec r Hr) as (sr & _ & -> & Hin). exact Hin.
Qed.

Lemma loadMovieFile_output_order_witness :
  exists (written : list Surface8u) (s s' : Surface8u),
    output_mov (snd (loadMovieFile START_FRAME
                       (setup (Some sample_movie) None None))) = Some written /\
    Z.of_nat (List.length written) = 3 - START_FRAME /\
    nth_error written 0 = Some s /\ nth_error written 2 = Some s' /\
    scaled (surface_brightness s)
      <= scaled (surface_brightness s') + scaled ROUND_TO
         + 2 ^ (places - 49).
Proof.
  destruct (loadMovieFile_output_order START_FRAME sample_movie None None)
    as (written & O & L & H).
  - vm_compute. split; discriminate.
  - intros i Hi.
    assert (Hc : i = 0 \/ i = 1 \/ i = 2)
      by (unfold START_FRAME in Hi; cbn in Hi; lia).
    destruct Hc as [->|[->| ->]]; eexists;
      (split; [reflexivity|repeat split; reflexivity]).
  - assert (E : Some written
                = Some [uniform 4 3 x00; uniform 4 3 x80; uniform 4 3 xff])
      by (rewrite <- O; vm_compute; reflexivity).
    injection E as E. subst written.
    exists [uniform 4 3 x00; uniform 4 3 x80; uniform 4 3 xff],
      (uniform 4 3 x00), (uniform 4 3 xff).
    split; [exact O|]. split; [exact L|].
    split; [reflexivity|]. split; [reflexivity|].
    apply (H 0%nat 2%nat); [lia|reflexivity|reflexivity].
Defined.

(** ** The table of a run and the choice of sorting algorithm *)

Lemma in_range_not_nan (x : double) (B : Z) :
  in_range x B -> Double.is_nan x = false.
Proof. destruct x; try contradiction; reflexivity. Qed.

Lemma analysed_NoDup (m : MovieSurface) (pos index : Z) (n : nat) :
  NoDup (map mIndex (analysed m pos index n)).
Proof.
  rewrite analysed_indices.
  apply NoDup_map_NoDup_ForallPairs; [|apply seq_NoDup].
  intros i j _ _ H. lia.
Qed.

(** What a run from a freshly set-up application leaves in the table, on
    a movie whose frames can be decoded and have pixels. *)
Lemma loadMovieFile_fresh_table (start_frame : Z)
    (frames : list (option Surface8u)) (offsets : option string)
    (output : option (list Surface8u)) :
  0 <= start_frame <= Z.of_nat (List.length frames) ->
  (forall i, start_frame <= i < Z.of_nat (List.length frames) ->
     exists s, frameAt (mkMovie frames 0) i = Some s /\
               0 < getWidth s /\ 0 < getHeight s /\
               getWidth s * getHeight s < 2 ^ 31) ->
  let t0 := analysed (mkMovie frames 0) start_frame start_frame
              (Z.to_nat (Z.of_nat (List.length frames) - start_frame)) in
  mFrameData (snd (loadMovieFile start_frame
                     (setup (Some frames) offsets output)))
    = std_sort FrameBrightnessSort t0 /\
  output_mov (snd (loadMovieFile start_frame
                     (setup (Some frames) offsets output)))
    = Some (fetched (mkMovie frames 0) (std_sort FrameBrightnessSort t0)) /\
  Forall (fun r => in_range (mBrightness r) 1) t0 /\
  (forall r, In r t0 -> frameAt (mkMovie frames 0) (mIndex r) <> None).
Proof.
  intros Hs Hframes t0.
  set (a := setup (Some frames) offsets output).
  set (m := mkMovie frames 0) in *.
  assert (Hok : forall i, start_frame <= i < Z.of_nat (List.length frames) ->
                          frameAt m i <> None).
  { intros i Hi. destruct (Hframes i Hi) as (s & -> & _). discriminate. }
  destruct (loadMovieFile_decodable start_frame a frames eq_refl
              (proj1 Hs) Hok)
    as (a2 & E & D & S & _ & M & _ & _).
  cbn zeta in D. change (mFrameData a) with (@nil FrameData) in D.
  cbn [app] in D. fold m in D. fold t0 in D.
  assert (Hm : forall i, frameAt (mMovie a2) i = frameAt m i)
    by (intros i; apply frameAt_frames; exact M).
  assert (Hdec : forall r, In r t0 -> frameAt m (mIndex r) <> None).
  { intros r Hr. apply analysed_In in Hr. destruct Hr as (j & Hj & ->).
    apply Hok. lia. }
  assert (Hall : forall r, In r (mFrameData a2) ->
                   frameAt (mMovie a2) (mIndex r) <> None).
  { intros r Hr. rewrite D in Hr. rewrite Hm. apply Hdec.
    apply (Permutation_in _ (Permutation_sym (std_sort_perm _ _)) Hr). }
  destruct (saveMovie_spec a2 S Hall) as (a3 & E3 & O3 & _ & D3 & _).
  rewrite E, E3. cbn [snd]. rewrite D3, O3, D.
  split; [reflexivity|]. split.
  - f_equal. unfold fetched. apply flat_map_ext. intros r.
    rewrite Hm. reflexivity.
  - split; [|exact Hdec].
    apply Forall_forall. intros r Hr.
    pose proof (analysed_brightness m start_frame _ r Hr) as Hb.
    apply analysed_In in Hr. destruct Hr as (j & Hj & Ej).
    destruct (Hframes (mIndex r)) as (s & Fs & Hw & Hh & Ha); [lia|].
    rewrite Hb. unfold brightness_at. rewrite Fs.
    apply surface_brightness_in_range; assumption.
Qed.

(** X19.  On a movie whose frames can be decoded and have pixels, the
    table that a run from a freshly set-up application leaves does not
    depend on the sorting algorithm: no brightness in it is NaN and no index
    occurs twice, so the comparator is a strict total order on it, and every
    arrangement of its records without an inversion between neighbours is
    the table itself. *)
Theorem loadMovieFile_table_determined (start_frame : Z)
    (frames : list (option Surface8u)) (offsets : option string)
    (output : option (list Surface8u)) :
  0 <= start_frame <= Z.of_nat (List.length frames) ->
  (forall i, start_frame <= i < Z.of_nat (List.length frames) ->
     exists s, frameAt (mkMovie frames 0) i = Some s /\
               0 < getWidth s /\ 0 < getHeight s /\
               getWidth s * getHeight s < 2 ^ 31) ->
  let t := mFrameData (snd (loadMovieFile start_frame
                              (setup (Some frames) offsets output))) in
  Forall not_nan t /\ NoDup (map mIndex t) /\
  forall t' : list FrameData,
    Permutation t t' -> Sorted (not_after FrameBrightnessSort) t' -> t' = t.
Proof.
  intros Hs Hframes.
  destruct (loadMovieFile_fresh_table start_frame frames offsets output
              Hs Hframes) as (D & _ & Hr & _).
  cbn zeta in D, Hr |- *. rewrite D.
  set (t0 := analysed (mkMovie frames 0) start_frame start_frame
               (Z.to_nat (Z.of_nat (List.length frames) - start_frame))) in *.
  pose proof (std_sort_perm FrameBrightnessSort t0) as Hp.
  assert (Hn : Forall not_nan (std_sort FrameBrightnessSort t0)).
  { eapply Permutation_Forall; [exact Hp|].
    eapply Forall_impl; [|exact Hr].
    intros r H. exact (in_range_not_nan _ _ H). }
  assert (Hd : NoDup (map mIndex (std_sort FrameBrightnessSort t0))).
  { eapply Permutation_NoDup; [apply Permutation_map, Hp|].
    apply analysed_NoDup. }
  split; [exact Hn|]. split; [exact Hd|].
  intros t' Hp' Hs'. symmetry.
  apply sorted_table_unique; try assumption.
  apply std_sort_Sorted, FrameBrightnessSort_asym.
Qed.

Lemma loadMovieFile_table_determined_witness :
  let t := mFrameData (snd (loadMovieFile START_FRAME
                              (setup (Some sample_movie) None None))) in
  Forall not_nan t /\ NoDup (map mIndex t).
Proof.
  destruct (loadMovieFile_table_determined START_FRAME sample_movie None None)
    as (H1 & H2 & _).
  - vm_compute. split; discriminate.
  - intros i Hi.
    assert (Hc : i = 0 \/ i = 1 \/ i = 2)
      by (unfold START_FRAME in Hi; cbn in Hi; lia).
    destruct Hc as [->|[->| ->]]; eexists;
      (split; [reflexivity|repeat split; reflexivity]).
  - split; [exact H1|exact H2].
Defined.

(** ** A movie that is in order already *)

Lemma analysed_Sorted (m : MovieSurface) (start : Z) (n : nat) :
  (forall i, start <= i -> i + 1 < start + Z.of_nat n ->
     Double.ltb (rounded (brightness_at m (i + 1)))
       (rounded (brightness_at m i)) = false) ->
  Sorted (not_after FrameBrightnessSort) (analysed m start start n).
Proof.
  revert start. induction n as [|n IH]; intros start H; [constructor|].
  rewrite analysed_S. constructor.
  - apply IH. intros i Hi Hi'. apply H; lia.
  - destruct n as [|n]; [constructor|].
    rewrite analysed_S. constructor.
    unfold not_after, FrameBrightnessSort. cbn [mBrightness mIndex].
    rewrite (H start) by lia.
    replace (start + 1 <? start) with false by (symmetry; apply Z.ltb_ge; lia).
    destruct (Double.neb _ _); reflexivity.
Qed.

Lemma fetched_analysed (m : MovieSurface) (start : Z) (n : nat) :
  (forall j : nat, (j < n)%nat -> frameAt m (start + Z.of_nat j) <> None) ->
  forall k : nat, (k < n)%nat ->
    nth_error (fetched m (analysed m start start n)) k
    = frameAt m (start + Z.of_nat k).
Proof.
  revert start. induction n as [|n IH]; intros start H k Hk; [lia|].
  rewrite analysed_S. cbn [fetched flat_map mIndex].
  destruct (frameAt m start) as [s|] eqn:F.
  2:{ exfalso. apply (H O); [lia|]. rewrite Z.add_0_r. exact F. }
  cbn [app]. destruct k as [|k].
  - cbn [nth_error]. rewrite Z.add_0_r, F. reflexivity.
  - cbn [nth_error]. fold (fetched m (analysed m (start + 1) (start + 1) n)).
    rewrite IH; [f_equal; lia| |lia].
    intros j Hj. replace (start + 1 + Z.of_nat j)
      with (start + Z.of_nat (S j)) by lia.
    apply H. lia.
Qed.

(** X20.  A movie that is in order already is copied as it is.  From a
    freshly set-up application, on a movie whose frames can be decoded and
    have pixels, and in which the rounded brightness of no frame is less
    than that of the frame before it, the table keeps the order of the
    frames and output frame [k] is source frame [START_FRAME + k]; frames
    of equal rounded brightness, in particular, keep their order. *)
Theorem loadMovieFile_sorted_input (start_frame : Z)
    (frames : list (option Surface8u)) (offsets : option string)
    (output : option (list Surface8u)) :
  0 <= start_frame <= Z.of_nat (List.length frames) ->
  (forall i, start_frame <= i < Z.of_nat (List.length frames) ->
     exists s, frameAt (mkMovie frames 0) i = Some s /\
               0 < getWidth s /\ 0 < getHeight s /\
               getWidth s * getHeight s < 2 ^ 31) ->
  (forall i, start_frame <= i -> i + 1 < Z.of_nat (List.length frames) ->
     Double.ltb (rounded (brightness_at (mkMovie frames 0) (i + 1)))
       (rounded (brightness_at (mkMovie frames 0) i)) = false) ->
  let a' := snd (loadMovieFile start_frame
                   (setup (Some frames) offsets output)) in
  map mIndex (mFrameData a') =
    map (fun j => start_frame + Z.of_nat j)
      (seq 0 (Z.to_nat (Z.of_nat (List.length frames) - start_frame))) /\
  exists written : list Surface8u,
    output_mov a' = Some written /\
    forall k : nat,
      Z.of_nat k < Z.of_nat (List.length frames) - start_frame ->
      nth_error written k =
      frameAt (mkMovie frames 0) (start_frame + Z.of_nat k).
Proof.
  intros Hs Hframes Hord.
  destruct (loadMovieFile_fresh_table start_frame frames offsets output
              Hs Hframes) as (D & O & Hr & Hdec).
  cbn zeta in D, O, Hr, Hdec |- *. rewrite D, O.
  set (m := mkMovie frames 0) in *.
  set (n := Z.to_nat (Z.of_nat (List.length frames) - start_frame)) in *.
  set (t0 := analysed m start_frame start_frame n) in *.
  assert (E : std_sort FrameBrightnessSort t0 = t0).
  { symmetry. apply sorted_table_unique.
    - eapply Forall_impl; [|exact Hr].
      intros r H. exact (in_range_not_nan _ _ H).
    - apply analysed_NoDup.
    - apply std_sort_perm.
    - apply analysed_Sorted. intros i Hi Hi'. apply Hord; [exact Hi|].
      unfold n in Hi'. lia.
    - apply std_sort_Sorted, FrameBrightnessSort_asym. }
  rewrite E. split; [apply analysed_indices|].
  exists (fetched m t0). split; [reflexivity|].
  intros k Hk. apply fetched_analysed; [|unfold n; lia].
  intros j Hj.
  destruct (Hframes (start_frame + Z.of_nat j)) as (s & -> & _);
    [unfold n in Hj; lia|discriminate].
Qed.

Lemma loadMovieFile_sorted_input_witness :
  let movie := [Some (uniform 4 3 x00); Some (uniform 4 3 x80);
                Some (uniform 4 3 x80); Some (uniform 4 3 xff)] in
  exists written : list Surface8u,
    output_mov (snd (loadMovieFile START_FRAME (setup (Some movie) None None)))
      = Some written /\
    nth_error written 2 = Some (uniform 4 3 x80).
Proof.
  intros movie.
  destruct (loadMovieFile_sorted_input START_FRAME movie None None)
    as (_ & written & O & H).
  - vm_compute. split; discriminate.
  - intros i Hi.
    assert (Hc : i = 0 \/ i = 1 \/ i = 2 \/ i = 3)
      by (unfold START_FRAME in Hi; cbn in Hi; lia).
    destruct Hc as [->|[->|[->| ->]]]; eexists;
      (split; [reflexivity|repeat split; reflexivity]).
  - intros i Hi Hi'.
    assert (Hc : i = 0 \/ i = 1 \/ i = 2)
      by (unfold START_FRAME in Hi; cbn in Hi'; lia).
    destruct Hc as [->|[->| ->]]; vm_compute; reflexivity.
  - exists written. split; [exact O|].
    rewrite (H 2%nat) by (vm_compute; reflexivity). reflexivity.
Defined.
(** * The prediction after the first frame *)

(** ** Signs of rounded results *)

Lemma binary_round_aux_signed (sx : bool) (mx ex : Z) (lx : location) :
  0 <= mx ->
  signed sx (binary_round_aux Double.prec Double.emax sx mx ex lx).
Proof.
  intros Hm.
  destruct (binary_round_aux_unfold Double.prec Double.emax sx mx ex lx Hm)
    as (m2 & Hr & _ & ->).
  cbv zeta.
  set (k := Z.max 0 _) in Hr.
  assert (H0 : 0 <= mx / 2 ^ k).
  { apply Z.div_pos; [lia|]. apply Z.pow_pos_nonneg; lia. }
  match goal with
  | |- signed _ (match ?q with _ => _ end) =>
      assert (Hq : 0 <= q); [|destruct q as [|p|p]]
  end.
  - apply Z.div_pos; [lia|]. apply Z.pow_pos_nonneg; lia.
  - reflexivity.
  - destruct (_ <=? _); reflexivity.
  - lia.
Qed.

(** A significand that has a bit at or above the exponent of the format is
    not rounded to zero. *)
Lemma binary_round_aux_nonzero (sx : bool) (mx ex : Z) (lx : location) :
  0 < mx ->
  2 ^ (Z.max 0 (fexp Double.prec Double.emax (Zdigits2 mx + ex) - ex)) <= mx ->
  match binary_round_aux Double.prec Double.emax sx mx ex lx with
  | S754_finite s _ _ | S754_infinity s => s = sx
  | _ => False
  end.
Proof.
  intros Hm Hk.
  destruct (binary_round_aux_unfold Double.prec Double.emax sx mx ex lx
              ltac:(lia)) as (m2 & Hr & _ & ->).
  cbv zeta.
  set (k := Z.max 0 _) in *.
  assert (Pk : 0 < 2 ^ k) by (apply Z.pow_pos_nonneg; lia).
  assert (H1 : 1 <= mx / 2 ^ k) by (apply Z.div_le_lower_bound; lia).
  assert (H2 : 0 < m2) by lia.
  pose proof (Zdigits2_bounds m2 H2) as [L2 _].
  pose proof (Zdigits2_pos m2 H2) as D2.
  set (k2 := Z.max 0 _).
  assert (Hk2 : 0 <= k2 <= Zdigits2 m2 - 1).
  { unfold k2, k. rewrite !fexp_double. clear - D2. lia. }
  assert (Pk2 : 0 < 2 ^ k2) by (apply Z.pow_pos_nonneg; lia).
  assert (H3 : 2 ^ k2 <= m2).
  { eapply Z.le_trans; [|exact L2]. apply Z.pow_le_mono_r; lia. }
  assert (H4 : 1 <= m2 / 2 ^ k2) by (apply Z.div_le_lower_bound; lia).
  destruct (m2 / 2 ^ k2) as [|p|p]; try lia.
  destruct (_ <=? _); reflexivity.
Qed.

Lemma binary_round_nonzero (sx : bool) (M : positive) (ez : Z) :
  -1074 <= ez ->
  match binary_round Double.prec Double.emax sx M ez with
  | S754_finite s _ _ | S754_infinity s => s = sx
  | _ => False
  end.
Proof.
  intros Hez. unfold binary_round.
  set (t := Zpos (digits2_pos M) + ez).
  pose proof (shl_align_spec M ez (fexp Double.prec Double.emax t))
    as [Es Em].
  destruct (shl_align M ez _) as [mz e0]. cbn [fst snd] in *.
  pose proof (Zdigits2_pos (Zpos M) ltac:(lia)) as DM.
  assert (Dz : Zdigits2 (Zpos mz) + e0 = t).
  { rewrite Em, Zdigits2_mul_pow2 by lia. rewrite Es.
    unfold t. simpl Zdigits2. lia. }
  pose proof (Zdigits2_bounds (Zpos mz) ltac:(lia)) as [Lz _].
  apply binary_round_aux_nonzero; [lia|].
  rewrite Dz.
  eapply Z.le_trans; [|exact Lz]. apply Z.pow_le_mono_r; [lia|].
  rewrite fexp_double in *. simpl Zdigits2 in DM. unfold t in *.
  clear - Dz Es Hez DM. lia.
Qed.

Lemma SFdiv_core_binary_nonneg (m1 e1 m2 e2 : Z) :
  0 <= m1 -> 0 < m2 ->
  0 <= fst (fst (SFdiv_core_binary Double.prec Double.emax m1 e1 m2 e2)).
Proof.
  intros H1 H2. unfold SFdiv_core_binary.
  match goal with
  | |- 0 <= fst (fst (let '(q, r) := Z.div_eucl ?a ?b in _)) =>
      pose proof (Z_div_mod a b ltac:(lia)) as Hd;
      assert (Ha : 0 <= a); [|destruct (Z.div_eucl a b) as [q r]]
  end.
  { destruct (_ - _ - _) as [|p|p]; try lia.
    rewrite Z.shiftl_mul_pow2 by lia.
    apply Z.mul_nonneg_nonneg; [lia | apply Z.pow_nonneg; lia]. }
  cbn [fst]. nia.
Qed.

(** Dividing a number by a positive double, or multiplying it with one,
    gives a number of the same sign. *)
Lemma div_signed (s : bool) (x : double) (m : positive) (e : Z) :
  signed s x -> signed s (Double.div x (S754_finite false m e)).
Proof.
  destruct x as [sx|sx| |sx mx ex]; try contradiction;
    cbn [signed]; intros <-.
  - cbn [Double.div SFdiv signed]. apply xorb_false_r.
  - cbn [Double.div SFdiv signed]. apply xorb_false_r.
  - unfold Double.div, SFdiv.
    pose proof (SFdiv_core_binary_nonneg (Zpos mx) ex (Zpos m) e
                  ltac:(lia) ltac:(lia)) as H.
    destruct (SFdiv_core_binary _ _ _ _ _ _) as [[mz ez] lz].
    cbn [fst] in H. rewrite xorb_false_r.
    apply binary_round_aux_signed, H.
Qed.

Lemma mul_signed (s : bool) (x : double) (m : positive) (e : Z) :
  signed s x -> signed s (Double.mul x (S754_finite false m e)).
Proof.
  destruct x as [sx|sx| |sx mx ex]; try contradiction;
    cbn [signed]; intros <-.
  - cbn [Double.mul SFmul signed]. apply xorb_false_r.
  - cbn [Double.mul SFmul signed]. apply xorb_false_r.
  - unfold Double.mul, SFmul. rewrite xorb_false_r.
    apply binary_round_aux_signed. lia.
Qed.

Lemma signed_not_nan (s : bool) (x : double) :
  signed s x -> Double.is_nan x = false.
Proof. destruct x; [reflexivity|reflexivity|contradiction|reflexivity]. Qed.

Lemma signed_false_leb (x : double) :
  signed false x -> Double.leb Double.zero x = true.
Proof.
  destruct x as [s|s| |s m e]; try contradiction; cbn [signed];
    intros ->; reflexivity.
Qed.

(** ** The ratio and its complement *)

(** For [0 < index < total] the ratio [(double) index / (double) total]
    is a positive double below 1. *)
Lemma ratio_between (index total : Z) :
  0 < index < total -> total < 2 ^ 31 ->
  exists (m : positive) (e : Z),
    Double.div (Double.of_int index) (Double.of_int total)
      = S754_finite false m e /\
    bounded Double.prec Double.emax m e = true /\
    Zpos m * 2 ^ (e + places) < 2 ^ places.
Proof.
  intros Hi Ht.
  assert (H53 : 2 ^ 53 = 2 ^ 31 * 4194304) by reflexivity.
  destruct (of_int_pos total) as (my & ey & Ey & Vy & Ly & My); [lia|].
  destruct (of_int_pos index) as (mx & ex & Ex & Vx & Lx & Mx); [lia|].
  destruct (bounded_exponent my ey Vy) as [By _].
  destruct (bounded_exponent mx ex Vx) as [Bx _].
  assert (Lin : linear (places = 1074 /\ -1074 <= ey <= 0 /\
                        -1074 <= ex <= 0))
    by (pose proof places_eq; unfold linear; clear - H By Bx Ly Lx; lia).
  clear By Bx H53.
  set (P := 2 ^ places).
  assert (PP : 0 < P) by (apply pow2_pos; lin).
  assert (Sy : Zpos my * 2 ^ (ey + places) = total * P).
  { rewrite My, <- Z.mul_assoc, <- Z.pow_add_r by lin.
    unfold P. f_equal; f_equal; lin. }
  assert (Sx : Zpos mx * 2 ^ (ex + places) = index * P).
  { rewrite Mx, <- Z.mul_assoc, <- Z.pow_add_r by lin.
    unfold P. f_equal; f_equal; lin. }
  rewrite Ey, Ex.
  destruct (div_bounded (S754_finite false mx ex) my ey 1 0 index)
    as [Hr F]; [exact Vy|exact Ly|cbn; lia|lia| | |].
  { cbn [in_range]. split; [reflexivity|]. split; [exact Vx|].
    rewrite Sx. apply Z.le_refl. }
  { cbn [scaled cond_Zopp]. rewrite Sx, Sy. clear - Hi PP. nia. }
  cbn [scaled cond_Zopp] in F. rewrite Sx, Sy in F.
  fold P in F.
  replace (places + 0 - 52) with (places - 52) in F by lin.
  set (Q := 2 ^ (places - 52)) in F.
  assert (PQ : 0 < Q) by (apply pow2_pos; lin).
  assert (EP : P = 4503599627370496 * Q).
  { change 4503599627370496 with (2 ^ 52). unfold P, Q.
    rewrite <- Z.pow_add_r by lin. f_equal; lin. }
  set (r := Double.div (S754_finite false mx ex) (S754_finite false my ey))
    in *.
  set (q := scaled r) in F.
  (* the bound, freed of the common factor [P] *)
  assert (G : Z.abs (q * total - index * P) <= total * Q).
  { apply Z.abs_le in F. apply Z.abs_le. split.
    - apply (Z.mul_le_mono_pos_r _ _ P PP).
      eapply Z.le_trans; [|eapply Z.le_trans; [apply (proj1 F)|]];
        apply Z.eq_le_incl; ring.
    - apply (Z.mul_le_mono_pos_r _ _ P PP).
      eapply Z.le_trans; [|eapply Z.le_trans; [apply (proj2 F)|]];
        apply Z.eq_le_incl; ring. }
  apply Z.abs_le in G.
  assert (T31 : total < 2147483648) by exact Ht.
  assert (Hq : 0 < q < P).
  { clear - G Hi T31 PQ EP. subst P. clearbody q Q. nia. }
  destruct r as [s|s| |s m e]; try contradiction.
  - unfold q in Hq. cbn [scaled] in Hq. lia.
  - destruct Hr as (-> & Vr & _). exists m, e.
    split; [reflexivity|]. split; [exact Vr|].
    unfold q in Hq. cbn [scaled cond_Zopp] in Hq. apply Hq.
Qed.

(** One minus a positive double below 1 is a positive double. *)
Lemma sub_one_pos (m : positive) (e : Z) :
  bounded Double.prec Double.emax m e = true ->
  Zpos m * 2 ^ (e + places) < 2 ^ places ->
  exists (m' : positive) (e' : Z),
    Double.sub Double.one (S754_finite false m e) = S754_finite false m' e'.
Proof.
  intros V Hlt.
  destruct (bounded_exponent m e V) as [Be _].
  set (ez := Z.min (-52) e).
  assert (Lin : linear (places = 1074 /\ -1074 <= e /\ -1074 <= ez /\
                        ez <= -52 /\ ez <= e))
    by (pose proof places_eq; unfold linear, ez; clear - H Be; lia).
  clear Be.
  unfold Double.sub, Double.one, SFsub. cbv zeta. fold ez.
  pose proof (shl_align_spec 4503599627370496 (-52) ez) as [_ E1].
  pose proof (shl_align_spec m e ez) as [_ E2].
  replace (Z.min (-52) ez) with ez in E1 by lin.
  replace (Z.min e ez) with ez in E2 by lin.
  cbn [cond_Zopp]. rewrite E1, E2.
  set (D := Zpos 4503599627370496 * 2 ^ (-52 - ez) - Zpos m * 2 ^ (e - ez)).
  assert (Pz : 0 < 2 ^ (ez + places)) by (apply pow2_pos; lin).
  assert (ED : D * 2 ^ (ez + places)
               = 2 ^ places - Zpos m * 2 ^ (e + places)).
  { unfold D. rewrite Z.mul_sub_distr_r.
    rewrite <- !Z.mul_assoc, <- !Z.pow_add_r by lin.
    change (Zpos 4503599627370496) with (2 ^ 52).
    rewrite <- Z.pow_add_r by lin.
    f_equal; f_equal; [|f_equal]; lin. }
  assert (HD : 0 < D).
  { clear - ED Hlt Pz. nia. }
  destruct D as [|p|p] eqn:EDp; try lia.
  cbn [binary_normalize].
  destruct (binary_round_spec p ez 1) as [Hr _];
    [lin|split; [lia|reflexivity]| |].
  { rewrite ED, Z.mul_1_l.
    assert (0 < Zpos m * 2 ^ (e + places))
      by (apply Z.mul_pos_pos; [lia|apply pow2_pos; lin]).
    lia. }
  pose proof (binary_round_nonzero false p ez ltac:(lin)) as Hn.
  destruct (binary_round _ _ _ _ _) as [s|s| |s m' e'];
    try contradiction.
  subst s. exists m', e'. reflexivity.
Qed.

(** ** The prediction *)

(** X21.  Past the first frame the remaining-time prediction is a number:
    for [0 < index < total] (the frame count within an [int]) and an
    elapsed time that is not a NaN, [predict] does not return a NaN, and
    for an elapsed time that is not negative it returns a value that is
    not negative.  Only [index = 0] gives the NaN or infinity of C9. *)
Theorem predict_after_first_frame (elapsed : double) (index total : Z) :
  0 < index < total -> total < 2 ^ 31 ->
  Double.is_nan elapsed = false ->
  Double.is_nan (predict elapsed index total) = false /\
  (Double.leb Double.zero elapsed = true ->
   Double.leb Double.zero (predict elapsed index total) = true).
Proof.
  intros Hi Ht Hn.
  destruct (ratio_between index total Hi Ht) as (m & e & Er & V & Hlt).
  destruct (sub_one_pos m e V Hlt) as (m' & e' & Es).
  unfold predict. cbv zeta. rewrite Er, Es.
  assert (S : forall s, signed s elapsed ->
            signed s (Double.mul (Double.div elapsed (S754_finite false m e))
                        (S754_finite false m' e')))
    by (intros s Hs; apply mul_signed, div_signed, Hs).
  split.
  - destruct elapsed as [s|s| |s mx ex]; try discriminate;
      apply (signed_not_nan s), S; reflexivity.
  - intros Hle.
    destruct elapsed as [s|s| |s mx ex]; try discriminate.
    + cbn [Double.div SFdiv Double.mul SFmul]. reflexivity.
    + destruct s; [discriminate|]. apply signed_false_leb, S. reflexivity.
    + destruct s; [discriminate|]. apply signed_false_leb, S. reflexivity.
Qed.

Lemma predict_after_first_frame_witness :
  Double.is_nan (predict (decimal 3 2) 1 3) = false /\
  Double.leb Double.zero (predict (decimal 3 2) 1 3) = true.
Proof.
  destruct (predict_after_first_frame (decimal 3 2) 1 3) as [H1 H2].
  - lia.
  - reflexivity.
  - reflexivity.
  - split; [exact H1|]. apply H2. reflexivity.
Defined.
